(** * googletrends: a shallow embedding of the request-shaping, transport and
      response-extraction layer, with the properties of its specification.

    Go strings are byte strings: they are modelled by [string] (a list of
    8-bit [ascii]).  Go [int] values that can be negative (the result of
    [strings.LastIndex], parsed suffixes, HTTP status codes) are [Z]; slice
    indices are [nat].  A Go map is [option (gmap string string)], where
    [None] is the nil map; a pointer that may be nil is an [option]. *)

From Stdlib Require Import ZArith NArith Lia String Ascii List Bool DecimalString.
From stdpp Require Import base option list sorting gmap strings.
Import ListNotations.

Local Open Scope string_scope.

(** ** Package [strings] of the Go standard library (the functions used) *)

Module strings.

Definition HasPrefix (s prefix : string) : bool := String.prefix prefix s.

Definition rev (s : string) : string :=
  string_of_list_ascii (List.rev (list_ascii_of_string s)).

Definition HasSuffix (s suffix : string) : bool :=
  String.prefix (rev suffix) (rev s).

Fixpoint Contains (s substr : string) : bool :=
  String.prefix substr s ||
  match s with
  | EmptyString => false
  | String _ s' => Contains s' substr
  end.

(** [LastIndex s substr]: index of the last occurrence of [substr] in [s],
    or -1.  The scan goes left to right and remembers the last position
    at which [substr] starts. *)
Fixpoint LastIndex_from (s substr : string) (i last : Z) : Z :=
  let last' := if String.prefix substr s then i else last in
  match s with
  | EmptyString => last'
  | String _ s' => LastIndex_from s' substr (i + 1) last'
  end.

Definition LastIndex (s substr : string) : Z := LastIndex_from s substr 0 (-1).

(** The slice expression [s[lo:]].  Every use in the program has
    [0 <= lo <= len(s)] (see [LastIndex_from_spec]). *)
Fixpoint drop (n : nat) (s : string) : string :=
  match n, s with
  | O, _ => s
  | S n', String _ s' => drop n' s'
  | S _, EmptyString => EmptyString
  end.

Definition slice_from (s : string) (lo : Z) : string := drop (Z.to_nat lo) s.

(** [Split s sep] for a non-empty separator: the substrings between the
    occurrences of [sep], scanning left to right.  [skip] counts the bytes
    of a matched separator still to be passed over and [cur] holds the
    current piece, reversed. *)
Fixpoint Split_aux (sep : string) (skip : nat) (cur : list ascii) (s : string)
  : list string :=
  match s with
  | EmptyString => [string_of_list_ascii (List.rev cur)]
  | String a s' =>
      match skip with
      | S k => Split_aux sep k cur s'
      | O =>
          if String.prefix sep s
          then string_of_list_ascii (List.rev cur)
                 :: Split_aux sep (String.length sep - 1) [] s'
          else Split_aux sep O (a :: cur) s'
      end
  end.

Definition Split (s sep : string) : list string := Split_aux sep O [] s.

(** White space as [unicode.IsSpace] sees it, in UTF-8: the six ASCII
    characters, U+0085, U+00A0, U+1680, U+2000..U+200A, U+2028, U+2029,
    U+202F, U+205F and U+3000. *)
Definition bytes (l : list nat) : string :=
  string_of_list_ascii (List.map ascii_of_nat l).

Definition spaces : list string :=
  List.map bytes
    ([[9]; [10]; [11]; [12]; [13]; [32]; [194; 133]; [194; 160]; [225; 154; 128]]
     ++ List.map (fun k => [226; 128; k]) (seq 128 11)
     ++ [[226; 128; 168]; [226; 128; 169]; [226; 128; 175]; [226; 129; 159];
         [227; 128; 128]]).

Definition leading_space (s : string) : option nat :=
  match List.filter (fun sp => String.prefix sp s) spaces with
  | sp :: _ => Some (String.length sp)
  | [] => None
  end.

Fixpoint TrimLeft_fuel (fuel : nat) (s : string) : string :=
  match fuel with
  | O => s
  | S f =>
      match leading_space s with
      | Some n => TrimLeft_fuel f (drop n s)
      | None => s
      end
  end.

Definition TrimLeftSpace (s : string) : string := TrimLeft_fuel (String.length s) s.

Definition trailing_space (r : string) : option nat :=
  match List.filter (fun sp => String.prefix (rev sp) r) spaces with
  | sp :: _ => Some (String.length sp)
  | [] => None
  end.

Fixpoint TrimRight_fuel (fuel : nat) (r : string) : string :=
  match fuel with
  | O => r
  | S f =>
      match trailing_space r with
      | Some n => TrimRight_fuel f (drop n r)
      | None => r
      end
  end.

Definition TrimRightSpace (s : string) : string :=
  rev (TrimRight_fuel (String.length s) (rev s)).

Definition TrimSpace (s : string) : string := TrimRightSpace (TrimLeftSpace s).

End strings.

(** ** Package [strconv]: [ParseInt(s, 10, bitSize)] *)

Module strconv.

Definition digit (c : ascii) : option Z :=
  let n := Z.of_nat (nat_of_ascii c) in
  if (48 <=? n)%Z && (n <=? 57)%Z then Some (n - 48)%Z else None.

Fixpoint digits (s : string) (acc : Z) : option Z :=
  match s with
  | EmptyString => Some acc
  | String c s' =>
      match digit c with
      | Some d => digits s' (acc * 10 + d)%Z
      | None => None
      end
  end.

(** The magnitude: at least one character, decimal digits only. *)
Definition ParseUint (s : string) : option Z :=
  match s with
  | EmptyString => None
  | _ => digits s 0
  end.

(** [ParseInt s bitSize] is [Some n] when [strconv.ParseInt(s, 10, bitSize)]
    returns [n] with a nil error, and [None] when the error is not nil
    (syntax or range); the program never looks at the value in that
    case. *)
Definition ParseInt (s : string) (bitSize : Z) : option Z :=
  match s with
  | EmptyString => None
  | String c s' =>
      let neg := Ascii.eqb c "-" in
      let body := if Ascii.eqb c "+" || Ascii.eqb c "-" then s' else s in
      match ParseUint body with
      | None => None
      | Some un =>
          let cutoff := (2 ^ (bitSize - 1))%Z in
          if negb neg && (cutoff <=? un)%Z then None
          else if neg && (cutoff <? un)%Z then None
          else Some (if neg then (- un)%Z else un)
      end
  end.

End strconv.

(** ** Package [math/bits] *)

Module bits.
(** [bits.Len(x)]: the number of bits needed to write [x], 0 for 0. *)
Definition Len (x : nat) : nat :=
  match x with
  | O => O
  | S _ => S (Nat.log2 x)
  end.
End bits.

(** ** Package [sort]: [sort.Sort] of the Go library (pattern-defeating
    quicksort, Go 1.19 and later)

    The functions work on a [sort.Interface]: the length of the data, the
    comparison of two positions and their exchange.  Positions are [int]s
    that never go below zero where they are used; a loop is a recursion
    on the number of turns it can still take. *)

Module sort.
Section Interface.
Context {D : Type}.
Variable Len : D -> nat.
Variable Less : D -> nat -> nat -> bool.
Variable Swap : D -> nat -> nat -> D.

(** [for i < b && p(i) { i++ }], with [n] the distance to [b]. *)
Fixpoint advance (p : nat -> bool) (i n : nat) : nat :=
  match n with
  | O => i
  | S n' => if p i then advance p (S i) n' else i
  end.

(** [for i <= j && p(j) { j-- }], with [n] the distance from [i] to past [j]. *)
Fixpoint retreat (p : nat -> bool) (j n : nat) : nat :=
  match n with
  | O => j
  | S n' => if p j then retreat p (j - 1) n' else j
  end.

(** [insertionSort(data, a, b)]:
<<
    for i := a + 1; i < b; i++ {
        for j := i; j > a && data.Less(j, j-1); j-- { data.Swap(j, j-1) }
    }
>>
    [sift] is the inner loop, started at [j]. *)
Fixpoint sift (data : D) (a j : nat) : D :=
  match j with
  | O => data
  | S j' => if Nat.ltb a j && Less data j j' then sift (Swap data j j') a j' else data
  end.

Fixpoint insertion_loop (data : D) (a i n : nat) : D :=
  match n with
  | O => data
  | S n' => insertion_loop (sift data a i) a (S i) n'
  end.

Definition insertionSort (data : D) (a b : nat) : D :=
  insertion_loop data a (a + 1) (b - (a + 1)).

(** [siftDown(data, lo, hi, first)]:
<<
    root := lo
    for {
        child := 2*root + 1
        if child >= hi { return }
        if child+1 < hi && data.Less(first+child, first+child+1) { child++ }
        if !data.Less(first+root, first+child) { return }
        data.Swap(first+root, first+child)
        root = child
    }
>>
    The root moves down at every turn, so there are at most [hi] turns. *)
Fixpoint siftDown_loop (turns : nat) (data : D) (root hi first : nat) : D :=
  match turns with
  | O => data
  | S turns' =>
      let child := 2 * root + 1 in
      if Nat.leb hi child then data
      else
        let child :=
          if Nat.ltb (child + 1) hi && Less data (first + child) (first + child + 1)
          then child + 1 else child in
        if negb (Less data (first + root) (first + child)) then data
        else siftDown_loop turns' (Swap data (first + root) (first + child)) child hi first
  end.

Definition siftDown (data : D) (lo hi first : nat) : D :=
  siftDown_loop hi data lo hi first.

(** [heapSort(data, a, b)]:
<<
    first := a; lo := 0; hi := b - a
    for i := (hi - 1) / 2; i >= 0; i-- { siftDown(data, i, hi, first) }
    for i := hi - 1; i >= 0; i-- {
        data.Swap(first, first+i)
        siftDown(data, lo, i, first)
    }
>>
    [heap_build] runs the first loop from [i = n - 1] down to 0 and
    [heap_pop] the second one. *)
Fixpoint heap_build (data : D) (n hi first : nat) : D :=
  match n with
  | O => data
  | S i => heap_build (siftDown data i hi first) i hi first
  end.

Fixpoint heap_pop (data : D) (n first : nat) : D :=
  match n with
  | O => data
  | S i => heap_pop (siftDown (Swap data first (first + i)) 0 i first) i first
  end.

Definition heapSort (data : D) (a b : nat) : D :=
  let first := a in
  let hi := b - a in
  heap_pop (heap_build data ((hi - 1) / 2 + 1) hi first) hi first.

(** [partition(data, a, b, pivot)]:
<<
    data.Swap(a, pivot)
    i, j := a+1, b-1
    for i <= j && data.Less(i, a) { i++ }
    for i <= j && !data.Less(j, a) { j-- }
    if i > j { data.Swap(j, a); return j, true }
    data.Swap(i, j); i++; j--
    for {
        for i <= j && data.Less(i, a) { i++ }
        for i <= j && !data.Less(j, a) { j-- }
        if i > j { break }
        data.Swap(i, j); i++; j--
    }
    data.Swap(j, a)
    return j, false
>>
    Every turn of the last loop that goes on brings [i] and [j] closer by
    two. *)
Fixpoint partition_loop (turns : nat) (data : D) (a i j : nat) : D * nat :=
  match turns with
  | O => (data, j)
  | S turns' =>
      let i := advance (fun i => Less data i a) i (j + 1 - i) in
      let j := retreat (fun j => negb (Less data j a)) j (j + 1 - i) in
      if Nat.ltb j i then (data, j)
      else partition_loop turns' (Swap data i j) a (i + 1) (j - 1)
  end.

Definition partition (data : D) (a b pivot : nat) : D * nat * bool :=
  let data := Swap data a pivot in
  let i := a + 1 in
  let j := b - 1 in
  let i := advance (fun i => Less data i a) i (j + 1 - i) in
  let j := retreat (fun j => negb (Less data j a)) j (j + 1 - i) in
  if Nat.ltb j i then (Swap data j a, j, true)
  else
    let data := Swap data i j in
    let '(data, j) := partition_loop (b - a) data a (i + 1) (j - 1) in
    (Swap data j a, j, false).

(** [partitionEqual(data, a, b, pivot)]:
<<
    data.Swap(a, pivot)
    i, j := a+1, b-1
    for {
        for i <= j && !data.Less(a, i) { i++ }
        for i <= j && data.Less(a, j) { j-- }
        if i > j { break }
        data.Swap(i, j); i++; j--
    }
    return i
>> *)
Fixpoint partitionEqual_loop (turns : nat) (data : D) (a i j : nat) : D * nat :=
  match turns with
  | O => (data, i)
  | S turns' =>
      let i := advance (fun i => negb (Less data a i)) i (j + 1 - i) in
      let j := retreat (fun j => Less data a j) j (j + 1 - i) in
      if Nat.ltb j i then (data, i)
      else partitionEqual_loop turns' (Swap data i j) a (i + 1) (j - 1)
  end.

Definition partitionEqual (data : D) (a b pivot : nat) : D * nat :=
  partitionEqual_loop (S (b - a)) (Swap data a pivot) a (a + 1) (b - 1).

(** [partialInsertionSort(data, a, b)]:
<<
    const (maxSteps = 5; shortestShifting = 50)
    i := a + 1
    for j := 0; j < maxSteps; j++ {
        for i < b && !data.Less(i, i-1) { i++ }
        if i == b { return true }
        if b-a < shortestShifting { return false }
        data.Swap(i, i-1)
        if i-a >= 2 {
            for j := i - 1; j >= 1; j-- {
                if !data.Less(j, j-1) { break }
                data.Swap(j, j-1)
            }
        }
        if b-i >= 2 {
            for j := i + 1; j < b; j++ {
                if !data.Less(j, j-1) { break }
                data.Swap(j, j-1)
            }
        }
    }
    return false
>>
    The loop to the left stops at position 1, not at [a + 1]. *)
Fixpoint shift_left (data : D) (j : nat) : D :=
  match j with
  | O => data
  | S j' => if negb (Less data j j') then data else shift_left (Swap data j j') j'
  end.

Fixpoint shift_right (data : D) (j n : nat) : D :=
  match n with
  | O => data
  | S n' =>
      if negb (Less data j (j - 1)) then data
      else shift_right (Swap data j (j - 1)) (S j) n'
  end.

Definition maxSteps : nat := 5.
Definition shortestShifting : nat := 50.

Fixpoint partialInsertionSort_loop (steps : nat) (data : D) (a b i : nat) : D * bool :=
  match steps with
  | O => (data, false)
  | S steps' =>
      let i := advance (fun i => negb (Less data i (i - 1))) i (b - i) in
      if Nat.eqb i b then (data, true)
      else if Nat.ltb (b - a) shortestShifting then (data, false)
      else
        let data := Swap data i (i - 1) in
        let data := if Nat.leb 2 (i - a) then shift_left data (i - 1) else data in
        let data := if Nat.leb 2 (b - i) then shift_right data (i + 1) (b - (i + 1))
                    else data in
        partialInsertionSort_loop steps' data a b i
  end.

Definition partialInsertionSort (data : D) (a b : nat) : D * bool :=
  partialInsertionSort_loop maxSteps data a b (a + 1).

(** [random.Next()] of the library's [xorshift] generator, a [uint64]
    that [breakPatterns] seeds with the length of the range: the step
    from one state to the next, which is also the number drawn.  The
    functions below take it as it comes, whatever shifts it is made of. *)
Variable Next : Z -> Z.

(** [nextPowerOfTwo(length)] is [1 << bits.Len(uint(length))]. *)
Definition nextPowerOfTwo (length : nat) : Z := 2 ^ Z.of_nat (bits.Len length).

(** [breakPatterns(data, a, b)]:
<<
    length := b - a
    if length >= 8 {
        random := xorshift(length)
        modulus := nextPowerOfTwo(length)
        idx := a + (length/4)*2 - 1
        for i := 0; i < 3; i++ {
            other := int(uint(random.Next()) & (modulus - 1))
            if other >= length { other -= length }
            data.Swap(idx-1+i, a+other)
        }
    }
>> *)
Fixpoint breakPatterns_loop (n : nat) (data : D) (a length idx i : nat) (random : Z) : D :=
  match n with
  | O => data
  | S n' =>
      let random := Next random in
      let other := Z.to_nat (Z.land random (nextPowerOfTwo length - 1)) in
      let other := if Nat.leb length other then other - length else other in
      breakPatterns_loop n' (Swap data (idx - 1 + i) (a + other)) a length idx (S i) random
  end.

Definition breakPatterns (data : D) (a b : nat) : D :=
  let length := b - a in
  if Nat.leb 8 length
  then breakPatterns_loop 3 data a length (a + (length / 4) * 2 - 1) 0 (Z.of_nat length)
  else data.

(** The hint of [choosePivot] for the order of the data. *)
Inductive sortedHint : Type := unknownHint | increasingHint | decreasingHint.

(** [order2(data, a, b, swaps)], with the counter returned. *)
Definition order2 (data : D) (a b swaps : nat) : nat * nat * nat :=
  if Less data b a then (b, a, S swaps) else (a, b, swaps).

(** [median(data, a, b, c, swaps)] *)
Definition median (data : D) (a b c swaps : nat) : nat * nat :=
  let '(a, b, swaps) := order2 data a b swaps in
  let '(b, c, swaps) := order2 data b c swaps in
  let '(a, b, swaps) := order2 data a b swaps in
  (b, swaps).

(** [medianAdjacent(data, a, swaps)] *)
Definition medianAdjacent (data : D) (a swaps : nat) : nat * nat :=
  median data (a - 1) a (a + 1) swaps.

(** [choosePivot(data, a, b)]:
<<
    const (shortestNinther = 50; maxSwaps = 4 * 3)
    l := b - a
    var (swaps int; i = a + l/4*1; j = a + l/4*2; k = a + l/4*3)
    if l >= 8 {
        if l >= shortestNinther {
            i = medianAdjacent(data, i, &swaps)
            j = medianAdjacent(data, j, &swaps)
            k = medianAdjacent(data, k, &swaps)
        }
        j = median(data, i, j, k, &swaps)
    }
    switch swaps {
    case 0: return j, increasingHint
    case maxSwaps: return j, decreasingHint
    default: return j, unknownHint
    }
>> *)
Definition shortestNinther : nat := 50.
Definition maxSwaps : nat := 4 * 3.

Definition choosePivot (data : D) (a b : nat) : nat * sortedHint :=
  let l := b - a in
  let swaps := 0 in
  let i := a + l / 4 * 1 in
  let j := a + l / 4 * 2 in
  let k := a + l / 4 * 3 in
  let '(j, swaps) :=
    if Nat.leb 8 l then
      let '(i, j, k, swaps) :=
        if Nat.leb shortestNinther l then
          let '(i, swaps) := medianAdjacent data i swaps in
          let '(j, swaps) := medianAdjacent data j swaps in
          let '(k, swaps) := medianAdjacent data k swaps in
          (i, j, k, swaps)
        else (i, j, k, swaps) in
      median data i j k swaps
    else (j, swaps) in
  if Nat.eqb swaps 0 then (j, increasingHint)
  else if Nat.eqb swaps maxSwaps then (j, decreasingHint)
  else (j, unknownHint).

(** [reverseRange(data, a, b)]:
<<
    i := a; j := b - 1
    for i < j { data.Swap(i, j); i++; j-- }
>> *)
Fixpoint reverseRange_loop (turns : nat) (data : D) (i j : nat) : D :=
  match turns with
  | O => data
  | S turns' =>
      if Nat.ltb i j then reverseRange_loop turns' (Swap data i j) (i + 1) (j - 1)
      else data
  end.

Definition reverseRange (data : D) (a b : nat) : D :=
  reverseRange_loop (b - a) data a (b - 1).

Definition maxInsertion : nat := 12.

(** [pdqsort(data, a, b, limit)]:
<<
    var (wasBalanced = true; wasPartitioned = true)
    for {
        length := b - a
        if length <= maxInsertion { insertionSort(data, a, b); return }
        if limit == 0 { heapSort(data, a, b); return }
        if !wasBalanced { breakPatterns(data, a, b); limit-- }
        pivot, hint := choosePivot(data, a, b)
        if hint == decreasingHint {
            reverseRange(data, a, b)
            pivot = (b - 1) - (pivot - a)
            hint = increasingHint
        }
        if wasBalanced && wasPartitioned && hint == increasingHint {
            if partialInsertionSort(data, a, b) { return }
        }
        if a > 0 && !data.Less(a-1, pivot) {
            mid := partitionEqual(data, a, b, pivot)
            a = mid
            continue
        }
        mid, alreadyPartitioned := partition(data, a, b, pivot)
        wasPartitioned = alreadyPartitioned
        leftLen, rightLen := mid-a, b-mid
        balanceThreshold := length / 8
        if leftLen < rightLen {
            wasBalanced = leftLen >= balanceThreshold
            pdqsort(data, a, mid, limit)
            a = mid + 1
        } else {
            wasBalanced = rightLen >= balanceThreshold
            pdqsort(data, mid+1, b, limit)
            b = mid
        }
    }
>>
    A turn of the loop and a call are both a call here, with the two flags
    as arguments; [None] is for a run cut short by [steps]. *)
Fixpoint pdqsort (steps : nat) (data : D) (a b limit : nat)
         (wasBalanced wasPartitioned : bool) : option D :=
  match steps with
  | O => None
  | S steps' =>
      let length := b - a in
      if Nat.leb length maxInsertion then Some (insertionSort data a b)
      else if Nat.eqb limit 0 then Some (heapSort data a b)
      else
        let data := if wasBalanced then data else breakPatterns data a b in
        let limit := if wasBalanced then limit else limit - 1 in
        let '(pivot, hint) := choosePivot data a b in
        let data := match hint with
                    | decreasingHint => reverseRange data a b
                    | _ => data
                    end in
        let pivot := match hint with
                     | decreasingHint => (b - 1) - (pivot - a)
                     | _ => pivot
                     end in
        let hint := match hint with
                    | decreasingHint => increasingHint
                    | _ => hint
                    end in
        let '(data, sorted) :=
          match hint with
          | increasingHint =>
              if wasBalanced && wasPartitioned then partialInsertionSort data a b
              else (data, false)
          | _ => (data, false)
          end in
        if sorted then Some data
        else if Nat.ltb 0 a && negb (Less data (a - 1) pivot) then
          let '(data, mid) := partitionEqual data a b pivot in
          pdqsort steps' data mid b limit wasBalanced wasPartitioned
        else
          let '(data, mid, alreadyPartitioned) := partition data a b pivot in
          let leftLen := mid - a in
          let rightLen := b - mid in
          let balanceThreshold := length / 8 in
          if Nat.ltb leftLen rightLen then
            match pdqsort steps' data a mid limit true true with
            | None => None
            | Some data =>
                pdqsort steps' data (mid + 1) b limit
                        (Nat.leb balanceThreshold leftLen) alreadyPartitioned
            end
          else
            match pdqsort steps' data (mid + 1) b limit true true with
            | None => None
            | Some data =>
                pdqsort steps' data a mid limit
                        (Nat.leb balanceThreshold rightLen) alreadyPartitioned
            end
  end.

(** [Sort(data)]:
<<
    n := data.Len()
    if n <= 1 { return }
    limit := bits.Len(uint(n))
    pdqsort(data, 0, n, limit)
>>
    Every turn of [pdqsort] works on a shorter range, so [n + 1] steps are
    enough. *)
Definition Sort (data : D) : option D :=
  let n := Len data in
  if Nat.leb n 1 then Some data
  else pdqsort (S n) data 0 n (bits.Len n) true true.

End Interface.
End sort.

(** ** Errors

    [errors.New] values, the two sentinels, and the two wrapping shapes the
    program builds with [fmt.Errorf]:
    ["%s: %w"] with a message constant, and
    ["%w: request data: code = %d, status = %s"] around [ErrRequestFailed]. *)

Inductive error : Type :=
| errors_New (msg : string)
| ErrRequestFailed
| ErrInvalidWidgetType
| Errorf_s_w (msg : string) (cause : error)
| Errorf_w_reqData (cause : error) (code : Z) (status : string).

Definition errParsing := "failed to parse json".
Definition errInvalidRequest := "invalid request param".
Definition errCreateRequest := "failed to create request".
Definition errDoRequest := "failed to perform request".

(** [%d] of a Go int. *)
Definition itoa (n : Z) : string :=
  match n with
  | Z0 => "0"
  | Zpos p => NilEmpty.string_of_uint (Pos.to_uint p)
  | Zneg p => "-" ++ NilEmpty.string_of_uint (Pos.to_uint p)
  end.

(** The [Error()] text. *)
Fixpoint Error (e : error) : string :=
  match e with
  | errors_New msg => msg
  | ErrRequestFailed => "failed to perform http request"
  | ErrInvalidWidgetType => "invalid widget type"
  | Errorf_s_w msg cause => msg ++ ": " ++ Error cause
  | Errorf_w_reqData cause code status =>
      Error cause ++ ": request data: code = " ++ itoa code ++ ", status = " ++ status
  end.

(** [errors.Is err target] for a sentinel [target]: walk the [%w] chain. *)
Fixpoint errors_Is_ErrRequestFailed (e : error) : bool :=
  match e with
  | ErrRequestFailed => true
  | Errorf_s_w _ cause => errors_Is_ErrRequestFailed cause
  | Errorf_w_reqData cause _ _ => errors_Is_ErrRequestFailed cause
  | _ => false
  end.

(** [errors.Unwrap]. *)
Definition Unwrap (e : error) : option error :=
  match e with
  | Errorf_s_w _ cause => Some cause
  | Errorf_w_reqData cause _ _ => Some cause
  | _ => None
  end.

(** ** JSON values, as [encoding/json] decodes them into [interface{}] *)

#[warnings="-register-all"]
Inductive json : Type :=
| JNull
| JBool (b : bool)
| JNumber (literal : string)
| JString (s : string)
| JArray (items : list json)
| JObject (members : list (string * json)).

(** ** The data model (types file) *)

Definition IntOverTimeWidgetID := "TIMESERIES".
Definition IntOverRegionID := "GEO_MAP".
Definition RelatedQueriesID := "RELATED_QUERIES".
Definition RelatedTopicsID := "RELATED_TOPICS".
Definition compareDataMode := "PERCENTAGES".

Definition paramHl := "hl".
Definition paramReq := "req".
Definition paramTZ := "tz".
Definition paramToken := "token".

Definition gAPI := "https://trends.google.com/trends/api".
Definition gSRelated := "/widgetdata/relatedsearches".
Definition gSIntOverTime := "/widgetdata/multiline".
Definition gSIntOverReg := "/widgetdata/comparedgeo".

Record KeywordRestriction : Type := {
  kr_Type : string;
  kr_Value : string
}.

Record KeywordsRestriction : Type := {
  Keyword : option (list (option KeywordRestriction))
}.

(** [Geo] is a Go map: [None] is the nil map, [Some ∅] an empty one. *)
Record WidgetComparisonItem : Type := {
  ci_Geo : option (gmap string string);
  ci_Time : string;
  ComplexKeywordsRestriction : KeywordsRestriction;
  OriginalTimeRangeForExploreURL : string
}.

Record RequestOptions : Type := {
  ro_Property : string;
  ro_Backend : string;
  ro_Category : Z
}.

(** [Geo] is an [interface{}]: [None] is the nil interface.  [CompItem] is a
    slice of pointers: [None] for the nil slice, and [None] entries for nil
    pointers. *)
Record WidgetResponse : Type := {
  Geo : option json;
  Time : string;
  Resolution : string;
  Locale : string;
  Restriction : WidgetComparisonItem;
  CompItem : option (list (option WidgetComparisonItem));
  RequestOpt : RequestOptions;
  KeywordType : string;
  Metric : option (list string);
  Language : string;
  TrendinessSettings : option (gmap string string);
  DataMode : string;
  UserConfig : option (gmap string string);
  UserCountryCode : string
}.

(** [Request] is a pointer: [None] is nil. *)
Record ExploreWidget : Type := {
  Token : string;
  Type_ : string;
  Title : string;
  ID : string;
  Request : option WidgetResponse
}.

(** The slice of widget pointers.  The entries are the widgets pointed to;
    the methods below only read the [ID] of an entry and move entries. *)
Abbreviation ExploreResponse := (list ExploreWidget).

Definition Len (e : ExploreResponse) : nat := length e.

(** The comparison of [Less], on the two identifiers it reads. *)
Definition Less_ID (idI idJ : string) : bool :=
  let numI := strings.LastIndex idI "_" in
  if (numI <? 0)%Z then true
  else
    let numJ := strings.LastIndex idJ "_" in
    if (numJ <? 0)%Z then false
    else
      match strconv.ParseInt (strings.slice_from idI (numI + 1)) 32 with
      | None => true
      | Some valI =>
          match strconv.ParseInt (strings.slice_from idJ (numJ + 1)) 32 with
          | None => false
          | Some valJ => (valI <? valJ)%Z
          end
      end.

(** [e.Less(i, j)]; the sort only calls it with indices in range. *)
Definition Less (e : ExploreResponse) (i j : nat) : bool :=
  match e !! i, e !! j with
  | Some wi, Some wj => Less_ID (ID wi) (ID wj)
  | _, _ => false
  end.

(** [e.Swap(i, j)]: [e[i], e[j] = e[j], e[i]]. *)
Definition Swap (e : ExploreResponse) (i j : nat) : ExploreResponse :=
  match e !! i, e !! j with
  | Some wi, Some wj => <[i := wj]> (<[j := wi]> e)
  | _, _ => e
  end.

(** [e.Sort()] is [sort.Sort(e)], with the three methods above as the
    [sort.Interface] and [Next] the generator of the library.  [None] is
    for a run cut short by the count of steps in the model of [pdqsort],
    which does not happen. *)
Definition Sort (Next : Z -> Z) (e : ExploreResponse) : option ExploreResponse :=
  sort.Sort Len Less Swap Next e.

(** [e.GetWidgetsByOrder(i)], with [out] the slice built so far. *)
Fixpoint GetWidgetsByOrder_loop (e : ExploreResponse) (i : Z) (out : ExploreResponse)
  : ExploreResponse :=
  match e with
  | [] => out
  | v :: rest =>
      if String.eqb (ID v) IntOverTimeWidgetID || String.eqb (ID v) IntOverRegionID
      then GetWidgetsByOrder_loop rest i out
      else
        let ind := strings.LastIndex (ID v) "_" in
        match strconv.ParseInt (strings.slice_from (ID v) (ind + 1)) 32 with
        | None => out
        | Some val =>
            if (val =? i)%Z
            then GetWidgetsByOrder_loop rest i (out ++ [v])%list
            else GetWidgetsByOrder_loop rest i out
        end
  end.

Definition GetWidgetsByOrder (e : ExploreResponse) (i : Z) : ExploreResponse :=
  GetWidgetsByOrder_loop e i [].

(** [e.GetWidgetsByType(t)], with [out] the slice built so far. *)
Fixpoint GetWidgetsByType_loop (e : ExploreResponse) (t : string) (out : ExploreResponse)
  : ExploreResponse :=
  match e with
  | [] => out
  | v :: rest =>
      if strings.Contains (ID v) t
      then GetWidgetsByType_loop rest t (out ++ [v])%list
      else GetWidgetsByType_loop rest t out
  end.

Definition GetWidgetsByType (e : ExploreResponse) (t : string) : ExploreResponse :=
  GetWidgetsByType_loop e t [].

Definition widget (id : string) : ExploreWidget :=
  {| Token := ""; Type_ := ""; Title := ""; ID := id; Request := None |}.


(** *** Vocabulary for the properties of the collection methods *)

(** The identifier is exactly one of the two un-suffixed widget types. *)
Definition unsuffixed_type (id : string) : bool :=
  String.eqb id IntOverTimeWidgetID || String.eqb id IntOverRegionID.

(** The text after the last underscore (the whole identifier when there is
    none), read as a 32-bit decimal integer. *)
Definition order_suffix (id : string) : option Z :=
  strconv.ParseInt (strings.slice_from id (strings.LastIndex id "_" + 1)) 32.

(** A widget at which [GetWidgetsByOrder] gives up. *)
Definition unparsable (v : ExploreWidget) : bool :=
  negb (unsuffixed_type (ID v)) &&
  match order_suffix (ID v) with Some _ => false | None => true end.

(** A widget that [GetWidgetsByOrder i] selects. *)
Definition has_order (i : Z) (v : ExploreWidget) : bool :=
  negb (unsuffixed_type (ID v)) &&
  match order_suffix (ID v) with Some val => (val =? i)%Z | None => false end.

(** What [Less] sees of an identifier: no underscore at all, an underscore
    followed by text that is not a 32-bit decimal integer, or an underscore
    followed by the order number. *)
Inductive suffix : Type :=
| NoUnderscore
| BadSuffix
| Numbered (k : Z).

Definition suffix_of (id : string) : suffix :=
  let num := strings.LastIndex id "_" in
  if (num <? 0)%Z then NoUnderscore
  else
    match strconv.ParseInt (strings.slice_from id (num + 1)) 32 with
    | None => BadSuffix
    | Some k => Numbered k
    end.

(** The order the sort establishes: identifiers without a number first
    (those without underscore before the others), then the numbered ones by
    ascending number. *)
Definition suffix_leb (s t : suffix) : bool :=
  match s, t with
  | NoUnderscore, _ => true
  | _, NoUnderscore => false
  | BadSuffix, _ => true
  | _, BadSuffix => false
  | Numbered a, Numbered b => (a <=? b)%Z
  end.

Definition widget_le (v w : ExploreWidget) : Prop :=
  suffix_leb (suffix_of (ID v)) (suffix_of (ID w)) = true.

(** The comparison [Less] makes of two identifiers, on what it sees of
    them (see [Less_ID_suffix]): it answers [true] on two identifiers
    without order number of the same kind. *)
Definition suffix_ltb (s t : suffix) : bool :=
  match s, t with
  | NoUnderscore, _ => true
  | _, NoUnderscore => false
  | BadSuffix, _ => true
  | _, BadSuffix => false
  | Numbered a, Numbered b => (a <? b)%Z
  end.

(** What [Less] sees of the widgets of a collection, in order. *)
Definition suffixes (e : ExploreResponse) : list suffix :=
  (fun w => suffix_of (ID w)) <$> e.

#[global] Instance suffix_inhabited : Inhabited suffix := populate NoUnderscore.

(** *** Vocabulary for the library sort on a list

    [Less] and [Swap] on a list, with [lt] the comparison [Less] makes of
    two entries. *)
Definition less_at {A : Type} (lt : A -> A -> bool) (l : list A) (i j : nat) : bool :=
  match l !! i, l !! j with
  | Some x, Some y => lt x y
  | _, _ => false
  end.

Definition swap_at {A : Type} (l : list A) (i j : nat) : list A :=
  match l !! i, l !! j with
  | Some x, Some y => <[i := y]> (<[j := x]> l)
  | _, _ => l
  end.

(** [l'] is [l] with the entries of the positions [a <= x < b] rearranged. *)
Definition perm_in {A : Type} `{!Inhabited A} (a b : nat) (l l' : list A) : Prop :=
  length l' = length l /\
  (forall x, x < a \/ b <= x -> l' !!! x = l !!! x) /\
  l' ≡ₚ l.

(** The positions [a <= x < b] are in order. *)
Definition sorted_in {A : Type} `{!Inhabited A} (le : A -> A -> Prop) (a b : nat)
           (l : list A) : Prop :=
  forall i j, a <= i -> i <= j -> j < b -> le (l !!! i) (l !!! j).

(** No entry before position [a] is above an entry of [a <= x < b]. *)
Definition prefix_le {A : Type} `{!Inhabited A} (le : A -> A -> Prop) (a b : nat)
           (l : list A) : Prop :=
  forall x y, x < a -> a <= y -> y < b -> le (l !!! x) (l !!! y).

(** The heap of [heapSort]: position [c] is a child of position [r], and
    from [lo] on no child below [hi] is above its parent; positions are
    counted from [first]. *)
Definition heap_child (r c : nat) : Prop := c = 2 * r + 1 \/ c = 2 * r + 2.

Definition heap_in {A : Type} `{!Inhabited A} (le : A -> A -> Prop) (first lo hi : nat)
           (l : list A) : Prop :=
  forall r c, lo <= r -> heap_child r c -> c < hi ->
              le (l !!! (first + c)) (l !!! (first + r)).

(** Two runs of a function of the package [sort] on two implementations
    of the interface kept in step by [R]: the data are related and what
    else is returned is the same. *)
Definition related_with {D1 D2 T : Type} (R : D1 -> D2 -> Prop)
           (x : D1 * T) (y : D2 * T) : Prop :=
  R x.1 y.1 /\ x.2 = y.2.

Definition related_with2 {D1 D2 T U : Type} (R : D1 -> D2 -> Prop)
           (x : D1 * T * U) (y : D2 * T * U) : Prop :=
  R x.1.1 y.1.1 /\ x.1.2 = y.1.2 /\ x.2 = y.2.

Definition related_option {D1 D2 : Type} (R : D1 -> D2 -> Prop)
           (x : option D1) (y : option D2) : Prop :=
  match x, y with
  | Some d1, Some d2 => R d1 d2
  | None, None => True
  | _, _ => False
  end.

(** The widgets carrying the order number [k]. *)
Definition numbered (k : Z) (w : ExploreWidget) : bool :=
  match suffix_of (ID w) with
  | Numbered k' => (k' =? k)%Z
  | _ => false
  end.

(** The widgets without an order number. *)
Definition unnumbered (w : ExploreWidget) : bool :=
  match suffix_of (ID w) with
  | Numbered _ => false
  | _ => true
  end.

(** Insertion of [x] at the right end of a sorted run, the run being given
    right to left: [x] passes every entry it is [Less] than. *)
Fixpoint insert_right (x : ExploreWidget) (rp : ExploreResponse) : ExploreResponse :=
  match rp with
  | [] => [x]
  | y :: rp' => if Less_ID (ID x) (ID y) then y :: insert_right x rp' else x :: rp
  end.

(** The collection of the sorting test and its expected order. *)
Definition sort_test_input : ExploreResponse :=
  List.map widget ["RELATED_QUERIES_2"; "RELATED_TOPICS_0"; "RELATED_QUERIES_1";
                   "TIMESERIES"; "GEO_MAP"].

Definition sort_test_output : ExploreResponse :=
  List.map widget ["TIMESERIES"; "GEO_MAP"; "RELATED_TOPICS_0"; "RELATED_QUERIES_1";
                   "RELATED_QUERIES_2"].

(** Thirteen widgets, twelve with the order number 1 and a last one with
    the order number 0, and what [Sort] makes of them. *)
Definition thirteen_widgets : ExploreResponse :=
  List.map widget ["A_1"; "B_1"; "C_1"; "D_1"; "E_1"; "F_1"; "G_1"; "H_1"; "I_1"; "J_1";
                   "K_1"; "L_1"; "M_0"].

Definition thirteen_sorted : ExploreResponse :=
  List.map widget ["M_0"; "G_1"; "C_1"; "D_1"; "E_1"; "F_1"; "A_1"; "H_1"; "I_1"; "J_1";
                   "K_1"; "L_1"; "B_1"].

(** ** Transport (client file)

    An [http.Header] maps a header name to its values; the names used here
    are already in canonical form. *)

Definition headerKeyAccept := "Accept".
Definition headerKeyCookie := "Cookie".
Definition headerKeySetCookie := "Set-Cookie".
Definition headerKeyContentType := "Content-Type".
Definition contentTypeJSON := "application/json".
Definition contentTypeForm := "application/x-www-form-urlencoded;charset=UTF-8".

Definition StatusOK : Z := 200.
Definition StatusTooManyRequests : Z := 429.

Abbreviation Header := (gmap string (list string)).

Module Header.
Definition Add (h : Header) (key value : string) : Header :=
  <[key := (default [] (h !! key) ++ [value])%list]> h.

Definition Set_ (h : Header) (key value : string) : Header :=
  <[key := [value]]> h.

(** The first value of the header, or the empty string. *)
Definition Get (h : Header) (key : string) : string :=
  match h !! key with
  | Some (v :: _) => v
  | _ => ""
  end.
End Header.

(** A [url.URL] as the program uses it: the text given to [url.Parse] and
    the query parameters assigned to [RawQuery] (kept as the [url.Values]
    before encoding). *)
Record URL : Type := {
  url_Base : string;
  url_Query : gmap string (list string)
}.

Section Transport.

(** [context.Context] values, and the state of the injected [HTTPDoer]
    with its one operation. *)
Context {Ctx : Type} {Sender : Type}.

Record HTTPRequest : Type := {
  req_ctx : Ctx;
  req_Method : string;
  req_URL : URL;
  req_Header : Header;
  req_Body : string
}.

(** [resp_Body] is what [io.ReadAll(resp.Body)] returns: the bytes read and
    the error, if any. *)
Record HTTPResponse : Type := {
  resp_StatusCode : Z;
  resp_Status : string;
  resp_Header : Header;
  resp_Body : string;
  resp_BodyErr : option error
}.

Variable Do : Sender -> HTTPRequest -> Sender * (error + HTTPResponse).

(** Whether [url.Parse(u.String())] inside [http.NewRequestWithContext]
    succeeds; the error returned otherwise. *)
Variable url_check : URL -> option error.

(** The fields of [gClient] that the transport reads and writes.  [debug]
    only switches logging on, which is not modelled. *)
Record gClient : Type := {
  cookie : string;
  debug : bool
}.

Definition set_cookie (c : gClient) (v : string) : gClient :=
  {| cookie := v; debug := debug c |}.

Definition set_Header (r : HTTPRequest) (h : Header) : HTTPRequest :=
  {| req_ctx := req_ctx r; req_Method := req_Method r; req_URL := req_URL r;
     req_Header := h; req_Body := req_Body r |}.

(** [http.NewRequestWithContext]: a nil context ([None]) and a URL that
    does not parse are errors; the two methods used are valid. *)
Definition NewRequestWithContext (ctx : option Ctx) (method : string) (u : URL)
           (body : string) : error + HTTPRequest :=
  match ctx with
  | None => inl (errors_New "net/http: nil Context")
  | Some ctx =>
      match url_check u with
      | Some err => inl err
      | None =>
          inr {| req_ctx := ctx; req_Method := method; req_URL := u;
                 req_Header := ∅; req_Body := body |}
      end
  end.

(** What a transport operation leaves behind: the client, the sender, the
    requests handed to the sender (oldest first) and the returned pair. *)
Record outcome : Type := {
  out_client : gClient;
  out_sender : Sender;
  out_sent : list HTTPRequest;
  out_result : error + string
}.

(** The end of [do] and [doPost]: the status check and the body read. *)
Definition finish (resp : HTTPResponse) : error + string :=
  if negb (resp_StatusCode resp =? StatusOK)%Z
  then inl (Errorf_w_reqData ErrRequestFailed (resp_StatusCode resp) (resp_Status resp))
  else
    match resp_BodyErr resp with
    | Some err => inl err
    | None => inr (resp_Body resp)
    end.

(** [do] and [doPost] from [c.httpClient.Do(r)] on; the two bodies are the
    same text from there. *)
Definition send (c : gClient) (s : Sender) (r : HTTPRequest) : outcome :=
  match Do s r with
  | (s1, inl err) =>
      {| out_client := c; out_sender := s1; out_sent := [r];
         out_result := inl (Errorf_s_w errDoRequest err) |}
  | (s1, inr resp) =>
      if (resp_StatusCode resp =? StatusTooManyRequests)%Z
      then
        match strings.Split (Header.Get (resp_Header resp) headerKeySetCookie) ";" with
        | cookie0 :: _ =>
            let c' := set_cookie c cookie0 in
            let r' := set_Header r (Header.Set_ (req_Header r) headerKeyCookie cookie0) in
            match Do s1 r' with
            | (s2, inl err) =>
                {| out_client := c'; out_sender := s2; out_sent := [r; r'];
                   out_result := inl err |}
            | (s2, inr resp') =>
                {| out_client := c'; out_sender := s2; out_sent := [r; r'];
                   out_result := finish resp' |}
            end
        | [] =>
            {| out_client := c; out_sender := s1; out_sent := [r];
               out_result := finish resp |}
        end
      else
        {| out_client := c; out_sender := s1; out_sent := [r];
           out_result := finish resp |}
  end.

Definition with_cookie (c : gClient) (r : HTTPRequest) : HTTPRequest :=
  if negb (String.length (cookie c) =? 0)%nat
  then set_Header r (Header.Add (req_Header r) headerKeyCookie (cookie c))
  else r.

(** [c.do(ctx, u)] *)
Definition do (c : gClient) (s : Sender) (ctx : option Ctx) (u : URL) : outcome :=
  match NewRequestWithContext ctx "GET" u "" with
  | inl err =>
      {| out_client := c; out_sender := s; out_sent := [];
         out_result := inl (Errorf_s_w errCreateRequest err) |}
  | inr r =>
      let r := set_Header r (Header.Add (req_Header r) headerKeyAccept contentTypeJSON) in
      send c s (with_cookie c r)
  end.

(** [c.doPost(ctx, u, payload)] *)
Definition doPost (c : gClient) (s : Sender) (ctx : option Ctx) (u : URL)
           (payload : string) : outcome :=
  match NewRequestWithContext ctx "POST" u payload with
  | inl err =>
      {| out_client := c; out_sender := s; out_sent := [];
         out_result := inl (Errorf_s_w errCreateRequest err) |}
  | inr r =>
      let r := set_Header r (Header.Add (req_Header r) headerKeyContentType contentTypeForm) in
      send c s (with_cookie c r)
  end.

End Transport.

Arguments HTTPRequest : clear implicits.
Arguments outcome : clear implicits.

(** The cookie taken from a 429 answer (the first [;]-separated piece of its
    [Set-Cookie] header, empty when there is no such header), and the
    request as it is sent again. *)
Definition retry_cookie (resp : HTTPResponse) : string :=
  hd "" (strings.Split (Header.Get (resp_Header resp) headerKeySetCookie) ";").

Definition retry_request {Ctx : Type} (r : HTTPRequest Ctx) (resp : HTTPResponse)
  : HTTPRequest Ctx :=
  set_Header r (Header.Set_ (req_Header r) headerKeyCookie (retry_cookie resp)).

(** A scripted sender, as the mock of the tests: each call consumes the next
    prepared answer. *)
Definition scripted (script : list (error + HTTPResponse))
           (r : HTTPRequest unit) : list (error + HTTPResponse) * (error + HTTPResponse) :=
  match script with
  | answer :: rest => (rest, answer)
  | [] => ([], inl (errors_New "no more answers"))
  end.

Definition newMockResponse (statusCode : Z) (body : string) : HTTPResponse :=
  {| resp_StatusCode := statusCode; resp_Status := ""; resp_Header := ∅;
     resp_Body := body; resp_BodyErr := None |}.

(** A client that holds a session cookie, and a service that answers 429
    without [Set-Cookie] header and then 200. *)
Definition client_with_cookie : gClient := {| cookie := "abc=1"; debug := false |}.

Definition throttled_without_cookie : list (error + HTTPResponse) :=
  [inr (newMockResponse StatusTooManyRequests ""); inr (newMockResponse StatusOK "ok")].


Definition with_header (resp : HTTPResponse) (key value : string) : HTTPResponse :=
  {| resp_StatusCode := resp_StatusCode resp; resp_Status := resp_Status resp;
     resp_Header := Header.Set_ (resp_Header resp) key value;
     resp_Body := resp_Body resp; resp_BodyErr := resp_BodyErr resp |}.

Definition newGClient : gClient := {| cookie := ""; debug := false |}.

Definition test_URL : URL := {| url_Base := "https://example.com/test"; url_Query := ∅ |}.

(** The answers of the rate-limit test: 429 with a cookie, then 200. *)
Definition tooManyRequests_answer : HTTPResponse :=
  with_header (newMockResponse StatusTooManyRequests "") headerKeySetCookie
              "test_cookie=value; Path=/".

Definition tooManyRequests_script : list (error + HTTPResponse) :=
  [inr tooManyRequests_answer; inr (newMockResponse StatusOK "{'status': 'ok'}")].

(** The request [do] builds for [test_URL] with a fresh client. *)
Definition test_request : HTTPRequest unit :=
  {| req_ctx := tt; req_Method := "GET"; req_URL := test_URL;
     req_Header := Header.Add ∅ headerKeyAccept contentTypeJSON; req_Body := "" |}.

(** A sender that answers every call with status 500 and counts the calls. *)
Definition always_500 (calls : nat) (r : HTTPRequest unit) : nat * (error + HTTPResponse) :=
  (S calls, inr (newMockResponse 500 "error")).

Definition no_url_error (u : URL) : option error := None.

(** ** Package [encoding/json]: decoding a text into an [interface{}]

    The decoder follows the grammar of JSON texts as the Go scanner accepts
    it, and builds strings the way the Go decoder does: escapes are
    replaced, [\u] escapes are written in UTF-8 (a surrogate without its
    partner becomes U+FFFD) and bytes that are not well-formed UTF-8 become
    U+FFFD.  A number keeps its literal; one that does not fit a [float64]
    is an error.  The members of an object are kept in the order of the
    text. *)

Module Json.

Local Open Scope N_scope.

Definition code (c : ascii) : N := N_of_ascii c.

Definition is_space (c : ascii) : bool :=
  N.eqb (code c) 32 || N.eqb (code c) 9 || N.eqb (code c) 10 || N.eqb (code c) 13.

Fixpoint skip_space (s : string) : string :=
  match s with
  | String c r => if is_space c then skip_space r else s
  | EmptyString => s
  end.

Definition is_digit (c : ascii) : bool := N.leb 48 (code c) && N.leb (code c) 57.

Definition hex (c : ascii) : option N :=
  let n := code c in
  if N.leb 48 n && N.leb n 57 then Some (n - 48)%N
  else if N.leb 97 n && N.leb n 102 then Some (n - 87)%N
  else if N.leb 65 n && N.leb n 70 then Some (n - 55)%N
  else None.

(** [getu4] after the [\u]. *)
Definition hex4 (a b c d : ascii) : option N :=
  match hex a, hex b, hex c, hex d with
  | Some x, Some y, Some z, Some w => Some (((x * 16 + y) * 16 + z) * 16 + w)%N
  | _, _, _, _ => None
  end.

(** [utf8.EncodeRune], given back to front. *)
Definition cont (n : N) : ascii := ascii_of_N (128 + n mod 64).

Definition encode_rune_rev (n : N) : list ascii :=
  (if n <? 128 then [ascii_of_N n]
   else if n <? 2048 then [cont n; ascii_of_N (192 + n / 64)]
   else if n <? 65536 then [cont n; cont (n / 64); ascii_of_N (224 + n / 4096)]
   else [cont n; cont (n / 64); cont (n / 4096); ascii_of_N (240 + n / 262144)])%N.

Definition replacement : N := 65533.

Definition between (lo hi : N) (c : ascii) : bool :=
  N.leb lo (code c) && N.leb (code c) hi.

(** The length of the well-formed UTF-8 sequence at the head of [c :: r],
    for a first byte [c >= 128]; [None] when there is none. *)
Definition utf8_length (c : ascii) (r : string) : option nat :=
  let second lo hi := match r with String d _ => between lo hi d | _ => false end in
  let third := match r with String _ (String d _) => between 128 191 d | _ => false end in
  let fourth :=
    match r with String _ (String _ (String d _)) => between 128 191 d | _ => false end in
  if between 194 223 c then if second 128 191 then Some 2%nat else None
  else if between 224 224 c then if second 160 191 && third then Some 3%nat else None
  else if between 237 237 c then if second 128 159 && third then Some 3%nat else None
  else if between 225 239 c then if second 128 191 && third then Some 3%nat else None
  else if between 240 240 c then if second 144 191 && third && fourth then Some 4%nat else None
  else if between 241 243 c then if second 128 191 && third && fourth then Some 4%nat else None
  else if between 244 244 c then if second 128 143 && third && fourth then Some 4%nat else None
  else None.

(** The text of a string literal after its opening quote; [acc] is the
    decoded string so far, back to front, and [keep] the number of bytes
    of a well-formed multi-byte character still to be copied. *)
Fixpoint string_body (s : string) (keep : nat) (acc : list ascii)
  : option (string * string) :=
  match s with
  | EmptyString => None
  | String c r =>
      match keep with
      | S k => string_body r k (c :: acc)
      | O =>
          if N.eqb (code c) 34 then Some (string_of_list_ascii (List.rev acc), r)
          else if N.eqb (code c) 92 then
            match r with
            | String e r1 =>
                let plain (b : N) := string_body r1 O (ascii_of_N b :: acc) in
                if N.eqb (code e) 34 then plain 34
                else if N.eqb (code e) 92 then plain 92
                else if N.eqb (code e) 47 then plain 47
                else if N.eqb (code e) 98 then plain 8
                else if N.eqb (code e) 102 then plain 12
                else if N.eqb (code e) 110 then plain 10
                else if N.eqb (code e) 114 then plain 13
                else if N.eqb (code e) 116 then plain 9
                else if N.eqb (code e) 117 then
                  match r1 with
                  | String h1 (String h2 (String h3 (String h4 r5))) =>
                      match hex4 h1 h2 h3 h4 with
                      | None => None
                      | Some n =>
                          if N.leb 55296 n && N.ltb n 57344 then
                            match r5 with
                            | String b (String u (String g1 (String g2 (String g3
                                (String g4 r11))))) =>
                                match hex4 g1 g2 g3 g4 with
                                | Some m =>
                                    if N.eqb (code b) 92 && N.eqb (code u) 117
                                       && N.ltb n 56320
                                       && N.leb 56320 m && N.ltb m 57344
                                    then string_body r11 O
                                           (encode_rune_rev
                                              (65536 + (n - 55296) * 1024 + (m - 56320))
                                              ++ acc)%list
                                    else string_body r5 O
                                           (encode_rune_rev replacement ++ acc)%list
                                | None =>
                                    string_body r5 O
                                      (encode_rune_rev replacement ++ acc)%list
                                end
                            | _ => string_body r5 O (encode_rune_rev replacement ++ acc)%list
                            end
                          else string_body r5 O (encode_rune_rev n ++ acc)%list
                      end
                  | _ => None
                  end
                else None
            | EmptyString => None
            end
          else if N.ltb (code c) 32 then None
          else if N.ltb (code c) 128 then string_body r O (c :: acc)
          else
            match utf8_length c r with
            | Some n => string_body r (n - 1)%nat (c :: acc)
            | None => string_body r O (encode_rune_rev replacement ++ acc)%list
            end
      end
  end.

(** Numbers: an optional minus sign, an integer part without leading
    zero, an optional fraction and an optional exponent. *)
Fixpoint take_digits (s : string) (acc : list ascii) : list ascii * string :=
  match s with
  | String c r => if is_digit c then take_digits r (c :: acc) else (acc, s)
  | EmptyString => (acc, s)
  end.

Definition digits_value (ds : list ascii) : Z :=
  List.fold_left (fun v c => (v * 10 + Z.of_N (code c - 48))%Z) ds 0%Z.

(** Whether [m * 10^k] is below the numbers that round to infinity as a
    [float64], that is below [2^1024 - 2^970].  [len] bounds the number of
    digits of [m]. *)
Definition fits_float64 (m : Z) (len : nat) (k : Z) : bool :=
  let limit := (2 ^ 1024 - 2 ^ 970)%Z in
  if (m =? 0)%Z then true
  else if (0 <=? k)%Z then
    if (310 <? k)%Z then false else (m * 10 ^ k <? limit)%Z
  else if (Z.of_nat len <? - k)%Z then true
  else (m <? limit * 10 ^ (- k))%Z.

Definition number (s : string) : option (json * string) :=
  let '(sign, s1) :=
    match s with
    | String c r => if N.eqb (code c) 45 then ([c], r) else ([], s)
    | EmptyString => ([], s)
    end in
  let '(int, s2) := take_digits s1 [] in
  let int_ok :=
    match List.rev int with
    | [] => false
    | d :: [] => true
    | d :: _ => negb (N.eqb (code d) 48)
    end in
  if negb int_ok then None
  else
    let '(frac, s3, frac_ok) :=
      match s2 with
      | String c r =>
          if N.eqb (code c) 46
          then let '(f, r') := take_digits r [] in
               (f, r', negb (Nat.eqb (length f) O))
          else ([], s2, true)
      | EmptyString => ([], s2, true)
      end in
    if negb frac_ok then None
    else
      let '(exp, s4, exp_ok) :=
        match s3 with
        | String c r =>
            if N.eqb (code c) 101 || N.eqb (code c) 69 then
              let '(neg, r1) :=
                match r with
                | String g r' =>
                    if N.eqb (code g) 45 then (true, r')
                    else if N.eqb (code g) 43 then (false, r')
                    else (false, r)
                | EmptyString => (false, r)
                end in
              let '(e, r2) := take_digits r1 [] in
              let v := digits_value (List.rev e) in
              (if neg then (- v)%Z else v, r2, negb (Nat.eqb (length e) O))
            else (0%Z, s3, true)
        | EmptyString => (0%Z, s3, true)
        end in
      if negb exp_ok then None
      else
        let m := digits_value (List.rev int ++ List.rev frac)%list in
        if fits_float64 m (length int + length frac)%nat (exp - Z.of_nat (length frac))%Z
        then
          Some (JNumber (String.substring O (String.length s - String.length s4)%nat s), s4)
        else None.

Definition maxNestingDepth : N := 10000.

(** A value, with the text after it.  [fuel] bounds the number of values
    and elements read (the length of the text is enough) and [depth] is
    the nesting depth so far. *)
Fixpoint value (fuel : nat) (depth : N) (s : string) : option (json * string) :=
  match fuel with
  | O => None
  | S fuel' =>
      match skip_space s with
      | EmptyString => None
      | String c r =>
          if N.eqb (code c) 91 then
            if N.ltb maxNestingDepth (N.succ depth) then None
            else
              match skip_space r with
              | String d r' =>
                  if N.eqb (code d) 93 then Some (JArray [], r')
                  else
                    match elements fuel' (N.succ depth) r with
                    | Some (items, rest) => Some (JArray items, rest)
                    | None => None
                    end
              | EmptyString => None
              end
          else if N.eqb (code c) 123 then
            if N.ltb maxNestingDepth (N.succ depth) then None
            else
              match skip_space r with
              | String d r' =>
                  if N.eqb (code d) 125 then Some (JObject [], r')
                  else
                    match members fuel' (N.succ depth) r with
                    | Some (ms, rest) => Some (JObject ms, rest)
                    | None => None
                    end
              | EmptyString => None
              end
          else if N.eqb (code c) 34 then
            match string_body r O [] with
            | Some (str, rest) => Some (JString str, rest)
            | None => None
            end
          else if String.prefix "true" (String c r) then Some (JBool true, strings.drop 4%nat (String c r))
          else if String.prefix "false" (String c r) then Some (JBool false, strings.drop 5%nat (String c r))
          else if String.prefix "null" (String c r) then Some (JNull, strings.drop 4%nat (String c r))
          else number (String c r)
      end
  end

(** The elements of an array, from the first one to the closing bracket. *)
with elements (fuel : nat) (depth : N) (s : string) : option (list json * string) :=
  match fuel with
  | O => None
  | S fuel' =>
      match value fuel' depth s with
      | None => None
      | Some (v, r) =>
          match skip_space r with
          | String c r' =>
              if N.eqb (code c) 44 then
                match elements fuel' depth r' with
                | Some (vs, rest) => Some (v :: vs, rest)
                | None => None
                end
              else if N.eqb (code c) 93 then Some ([v], r')
              else None
          | EmptyString => None
          end
      end
  end

(** The members of an object, from the first one to the closing brace. *)
with members (fuel : nat) (depth : N) (s : string)
  : option (list (string * json) * string) :=
  match fuel with
  | O => None
  | S fuel' =>
      match skip_space s with
      | String q r =>
          if N.eqb (code q) 34 then
            match string_body r O [] with
            | None => None
            | Some (key, r1) =>
                match skip_space r1 with
                | String colon r2 =>
                    if N.eqb (code colon) 58 then
                      match value fuel' depth r2 with
                      | None => None
                      | Some (v, r3) =>
                          match skip_space r3 with
                          | String c r4 =>
                              if N.eqb (code c) 44 then
                                match members fuel' depth r4 with
                                | Some (ms, rest) => Some ((key, v) :: ms, rest)
                                | None => None
                                end
                              else if N.eqb (code c) 125 then Some ([(key, v)], r4)
                              else None
                          | EmptyString => None
                          end
                      end
                    else None
                | EmptyString => None
                end
            end
          else None
      | EmptyString => None
      end
  end.

(** The whole text is one value between optional white space. *)
Definition decode (data : string) : error + json :=
  match value (S (String.length data)) 0 data with
  | Some (v, rest) =>
      match skip_space rest with
      | EmptyString => inr v
      | _ => inl (errors_New "invalid character after top-level value")
      end
  | None => inl (errors_New "invalid JSON text")
  end.

End Json.

(** ** The batch-response extractor (client file) *)

Section Extractor.

(** [json.Unmarshal] into an [interface{}]: the decoded value, or the
    error. *)
Variable decode : string -> error + json.

(** [json.Unmarshal(data, &v)] for [var v []interface{}]: an array fills
    the slice, [null] leaves it nil, any other value is an error. *)
Definition Unmarshal_slice (data : string) : error + list json :=
  match decode data with
  | inl err => inl err
  | inr (JArray items) => inr items
  | inr JNull => inr []
  | inr _ => inl (errors_New "json: cannot unmarshal into Go value of type []interface {}")
  end.

(** The loop over [items]: [result = append(result, topic)] for every item
    that is a non-empty array starting with a string. *)
Fixpoint append_topics (result : list string) (items : list json) : list string :=
  match items with
  | [] => result
  | JArray (JString topic :: _) :: rest => append_topics (result ++ [topic])%list rest
  | _ :: rest => append_topics result rest
  end.

(** The function literal run on a line: it appends to the [result] of the
    enclosing function and returns its error. *)
Definition parseLine (result : list string) (trimmed : string)
  : list string * option error :=
  match Unmarshal_slice trimmed with
  | inl err => (result, Some err)
  | inr intermediate =>
      if Nat.ltb 2 (length intermediate) then
        match intermediate !! 0 with
        | Some (JArray secondItem) =>
            if Nat.ltb (length secondItem) 3
            then (result, Some (errors_New "invalid intermediate format"))
            else
              match secondItem !! 2 with
              | Some (JString jsonStr) =>
                  match Unmarshal_slice jsonStr with
                  | inl err => (result, Some err)
                  | inr data =>
                      if Nat.ltb 1 (length data) then
                        match data !! 1 with
                        | Some (JArray items) => (append_topics result items, None)
                        | _ => (result, Some (errors_New "invalid items format"))
                        end
                      else (result, None)
                  end
              | _ => (result, Some (errors_New "invalid json string format"))
              end
        | _ => (result, Some (errors_New "invalid intermediate format"))
        end
      else (result, None)
  end.

Definition newline : string := String (ascii_of_nat 10) EmptyString.

(** The loop over the lines, with [result] as it stands. *)
Fixpoint scan_lines (result : list string) (lines : list string) : error + list string :=
  match lines with
  | [] => inl (errors_New "no valid JSON found in response")
  | line :: rest =>
      let trimmed := strings.TrimSpace line in
      if strings.HasPrefix trimmed "[" && strings.HasSuffix trimmed "]" then
        match parseLine result trimmed with
        | (result', Some parseErr) => scan_lines result' rest
        | (result', None) =>
            if Nat.ltb 0 (length result') then inr result' else scan_lines result' rest
        end
      else scan_lines result rest
  end.

(** [c.extractJSONFromResponse(text)]; the client only decides whether
    the steps are logged. *)
Definition extractJSONFromResponse (text : string) : error + list string :=
  scan_lines [] (strings.Split text newline).

(** What a line contributes when it is reached with nothing found so far:
    the topics it appends, none when it is skipped or fails to parse. *)
Definition line_topics (line : string) : list string :=
  let trimmed := strings.TrimSpace line in
  if strings.HasPrefix trimmed "[" && strings.HasSuffix trimmed "]"
  then (parseLine [] trimmed).1
  else [].

(** The first element of each item that is a non-empty list starting with
    a string. *)
Definition topics (items : list json) : list string :=
  omap (fun item => match item with
                    | JArray (JString topic :: _) => Some topic
                    | _ => None
                    end) items.

End Extractor.

(** *** The nested shape of a line, and the ways a line misses it

    The extractor looks for a line that is an array of more than two
    entries whose first entry is an array whose third element is a string
    holding the text of an array whose second element is a list, the
    [items]. *)
Inductive nested_shape (decode : string -> error + json) (trimmed : string)
          (items : list json) : Prop :=
| nested (a b x y d0 : json) (js : string) (t rest drest : list json) :
    decode trimmed
    = inr (JArray (JArray (a :: b :: JString js :: t) :: x :: y :: rest)) ->
    decode js = inr (JArray (d0 :: JArray items :: drest)) ->
    nested_shape decode trimmed items.

Definition is_list (v : json) : Prop := exists l, v = JArray l.

Definition is_text (v : json) : Prop := exists s, v = JString s.

(** A mismatch of structure: at one of the levels the text is not JSON, a
    value has the wrong type, or an array has too few elements. *)
Inductive mismatch (decode : string -> error + json) (trimmed : string) : Prop :=
| line_not_json (err : error) :
    decode trimmed = inl err -> mismatch decode trimmed
| line_not_list (v : json) :
    decode trimmed = inr v -> ~ is_list v -> mismatch decode trimmed
| line_few_entries (l : list json) :
    decode trimmed = inr (JArray l) -> length l <= 2 -> mismatch decode trimmed
| first_not_list (v : json) (l : list json) :
    decode trimmed = inr (JArray (v :: l)) -> ~ is_list v -> mismatch decode trimmed
| first_few_elements (entry l : list json) :
    decode trimmed = inr (JArray (JArray entry :: l)) -> length entry < 3 ->
    mismatch decode trimmed
| third_not_text (a b v : json) (t l : list json) :
    decode trimmed = inr (JArray (JArray (a :: b :: v :: t) :: l)) -> ~ is_text v ->
    mismatch decode trimmed
| inner_not_json (a b : json) (js : string) (t l : list json) (err : error) :
    decode trimmed = inr (JArray (JArray (a :: b :: JString js :: t) :: l)) ->
    decode js = inl err -> mismatch decode trimmed
| inner_not_list (a b : json) (js : string) (t l : list json) (v : json) :
    decode trimmed = inr (JArray (JArray (a :: b :: JString js :: t) :: l)) ->
    decode js = inr v -> ~ is_list v -> mismatch decode trimmed
| inner_few_entries (a b : json) (js : string) (t l data : list json) :
    decode trimmed = inr (JArray (JArray (a :: b :: JString js :: t) :: l)) ->
    decode js = inr (JArray data) -> length data <= 1 -> mismatch decode trimmed
| second_not_list (a b : json) (js : string) (t l : list json) (d0 v : json)
                  (drest : list json) :
    decode trimmed = inr (JArray (JArray (a :: b :: JString js :: t) :: l)) ->
    decode js = inr (JArray (d0 :: v :: drest)) -> ~ is_list v ->
    mismatch decode trimmed.

(** A line yields the topics [ts]: trimmed, it starts with [[] and ends
    with []], it has the nested shape, and [ts] are the topics of its
    items. *)
Definition yields (decode : string -> error + json) (line : string)
           (ts : list string) : Prop :=
  strings.HasPrefix (strings.TrimSpace line) "[" = true /\
  strings.HasSuffix (strings.TrimSpace line) "]" = true /\
  exists items, nested_shape decode (strings.TrimSpace line) items /\ ts = topics items.

(** Test texts are written with apostrophes where the JSON text has double
    quotes. *)
Definition dq (s : string) : string :=
  string_of_list_ascii
    (List.map (fun c => if Ascii.eqb c "'" then ascii_of_nat 34 else c)
              (list_ascii_of_string s)).

(** The inner items [[["golang",1],["rust",2]]] in a line of three
    top-level entries, as the service sends it, and the same first entry
    alone in the top-level array. *)
Definition golang_rust_inner : string := dq "[null,[['golang',1],['rust',2]]]".

Definition golang_rust_line : string :=
  dq "[['wrb.fr','i0OFE','[null,[[\'golang\',1],[\'rust\',2]]]',null,null,null,'generic'],['di',27],['af.httprm',27,'x',28]]".

Definition golang_rust_alone : string :=
  dq "[['wrb.fr','i0OFE','[null,[[\'golang\',1],[\'rust\',2]]]',null,null,null,'generic']]".

(** A response: the guard line, an empty line, a length line, a line that
    is an array of another shape, and the line with the data. *)
Definition golang_rust_response : string :=
  (")]}'" ++ newline ++ newline ++ "123" ++ newline ++ "[1,2,3]" ++ newline
     ++ " " ++ golang_rust_line ++ newline)%string.

(** ** Package [encoding/json]: encoding the widget sub-request

    [json.Marshal] of a struct is described in two steps: the JSON value
    that the field tags and [omitempty] options select, and the text of this
    value, which is the business of the [json_Marshal] of the operations
    below.  A string, a map or a nil interface marked [omitempty] is left out
    when empty; a nil slice, map or pointer without the mark is [null]; the
    keys of a map are sorted. *)

Definition json_member (key : string) (j : json) : option json :=
  match j with
  | JObject members =>
      match List.find (fun kv => String.eqb kv.1 key) members with
      | Some kv => Some kv.2
      | None => None
      end
  | _ => None
  end.

Definition field (key : string) (v : json) : list (string * json) := [(key, v)].

Definition field_omitempty (key : string) (s : string) : list (string * json) :=
  if (String.length s =? 0)%nat then [] else [(key, JString s)].

(** The order of the keys in the text of a map. *)
Definition key_le (p q : string * string) : Prop := String.leb p.1 q.1 = true.

Definition key_le_dec (p q : string * string) : Decision (key_le p q) :=
  decide (String.leb p.1 q.1 = true).

Definition map_json (m : gmap string string) : json :=
  JObject (List.map (fun kv => (kv.1, JString kv.2))
                    (@merge_sort _ key_le key_le_dec (map_to_list m))).

(** [len(m)] of a map that may be nil. *)
Definition map_len (m : option (gmap string string)) : nat :=
  match m with
  | None => O
  | Some m => size m
  end.

Definition field_map (key : string) (m : option (gmap string string))
  : list (string * json) :=
  match m with
  | None => [(key, JNull)]
  | Some m => [(key, map_json m)]
  end.

Definition field_map_omitempty (key : string) (m : option (gmap string string))
  : list (string * json) :=
  match m with
  | None => []
  | Some m' => if (map_len m =? 0)%nat then [] else [(key, map_json m')]
  end.

Definition slice_json {A : Type} (f : A -> json) (l : option (list A)) : json :=
  match l with
  | None => JNull
  | Some items => JArray (List.map f items)
  end.

Definition pointer_json {A : Type} (f : A -> json) (p : option A) : json :=
  match p with
  | None => JNull
  | Some v => f v
  end.

Definition KeywordRestriction_json (k : KeywordRestriction) : json :=
  JObject (field "type" (JString (kr_Type k)) ++ field "value" (JString (kr_Value k)))%list.

Definition KeywordsRestriction_json (k : KeywordsRestriction) : json :=
  JObject (field "keyword" (slice_json (pointer_json KeywordRestriction_json) (Keyword k))).

Definition WidgetComparisonItem_json (ci : WidgetComparisonItem) : json :=
  JObject (field_map_omitempty "geo" (ci_Geo ci)
           ++ field_omitempty "time" (ci_Time ci)
           ++ field "complexKeywordsRestriction"
                (KeywordsRestriction_json (ComplexKeywordsRestriction ci))
           ++ field_omitempty "originalTimeRangeForExploreUrl"
                (OriginalTimeRangeForExploreURL ci))%list.

Definition RequestOptions_json (o : RequestOptions) : json :=
  JObject (field "property" (JString (ro_Property o))
           ++ field "backend" (JString (ro_Backend o))
           ++ field "category" (JNumber (itoa (ro_Category o))))%list.

Definition WidgetResponse_json (r : WidgetResponse) : json :=
  JObject (match Geo r with Some g => [("geo", g)] | None => [] end
           ++ field_omitempty "time" (Time r)
           ++ field_omitempty "resolution" (Resolution r)
           ++ field_omitempty "locale" (Locale r)
           ++ field "restriction" (WidgetComparisonItem_json (Restriction r))
           ++ field "comparisonItem"
                (slice_json (pointer_json WidgetComparisonItem_json) (CompItem r))
           ++ field "requestOptions" (RequestOptions_json (RequestOpt r))
           ++ field "keywordType" (JString (KeywordType r))
           ++ field "metric" (slice_json JString (Metric r))
           ++ field "language" (JString (Language r))
           ++ field_map "trendinessSettings" (TrendinessSettings r)
           ++ field_omitempty "dataMode" (DataMode r)
           ++ field_map_omitempty "userConfig" (UserConfig r)
           ++ field_omitempty "userCountryCode" (UserCountryCode r))%list.

(** ** The detail-fetch operations (API file) *)

(** [strings.Replace(s, old, new, 1)] *)
Fixpoint Replace1 (s old new : string) : string :=
  if String.prefix old s then (new ++ strings.drop (String.length old) s)%string
  else
    match s with
    | EmptyString => EmptyString
    | String a s' => String a (Replace1 s' old new)
    end.

(** The map literal [map[string]string{"": ""}]. *)
Definition empty_geo : gmap string string := {[ "" := "" ]}.

Definition set_ci_Geo (ci : WidgetComparisonItem) (g : option (gmap string string))
  : WidgetComparisonItem :=
  {| ci_Geo := g; ci_Time := ci_Time ci;
     ComplexKeywordsRestriction := ComplexKeywordsRestriction ci;
     OriginalTimeRangeForExploreURL := OriginalTimeRangeForExploreURL ci |}.

Definition set_CompItem (r : WidgetResponse) (items : option (list (option WidgetComparisonItem)))
  : WidgetResponse :=
  {| Geo := Geo r; Time := Time r; Resolution := Resolution r; Locale := Locale r;
     Restriction := Restriction r; CompItem := items; RequestOpt := RequestOpt r;
     KeywordType := KeywordType r; Metric := Metric r; Language := Language r;
     TrendinessSettings := TrendinessSettings r; DataMode := DataMode r;
     UserConfig := UserConfig r; UserCountryCode := UserCountryCode r |}.

Definition set_DataMode (r : WidgetResponse) (mode : string) : WidgetResponse :=
  {| Geo := Geo r; Time := Time r; Resolution := Resolution r; Locale := Locale r;
     Restriction := Restriction r; CompItem := CompItem r; RequestOpt := RequestOpt r;
     KeywordType := KeywordType r; Metric := Metric r; Language := Language r;
     TrendinessSettings := TrendinessSettings r; DataMode := mode;
     UserConfig := UserConfig r; UserCountryCode := UserCountryCode r |}.

Definition set_Restriction (r : WidgetResponse) (ci : WidgetComparisonItem) : WidgetResponse :=
  {| Geo := Geo r; Time := Time r; Resolution := Resolution r; Locale := Locale r;
     Restriction := ci; CompItem := CompItem r; RequestOpt := RequestOpt r;
     KeywordType := KeywordType r; Metric := Metric r; Language := Language r;
     TrendinessSettings := TrendinessSettings r; DataMode := DataMode r;
     UserConfig := UserConfig r; UserCountryCode := UserCountryCode r |}.

Definition set_Request (w : ExploreWidget) (r : WidgetResponse) : ExploreWidget :=
  {| Token := Token w; Type_ := Type_ w; Title := Title w; ID := ID w; Request := Some r |}.

(** [len(s)] of a slice that may be nil. *)
Definition slice_len {A : Type} (l : option (list A)) : nat :=
  match l with
  | None => O
  | Some items => length items
  end.

(** The loop of [InterestOverTime] over [w.Request.CompItem]:
<<
    if v != nil && len(v.Geo) == 0 {
        w.Request.CompItem[i].Geo = map[string]string{"": ""}
    }
>> *)
Definition init_item_Geo (v : option WidgetComparisonItem) : option WidgetComparisonItem :=
  match v with
  | Some ci => if (map_len (ci_Geo ci) =? 0)%nat then Some (set_ci_Geo ci (Some empty_geo)) else v
  | None => None
  end.

Definition init_Geo (r : WidgetResponse) : WidgetResponse :=
  set_CompItem r (option_map (List.map init_item_Geo) (CompItem r)).

(** The step of [InterestByLocation]:
    [if len(w.Request.CompItem) > 1 { w.Request.DataMode = compareDataMode }]. *)
Definition force_DataMode (r : WidgetResponse) : WidgetResponse :=
  if Nat.ltb 1 (slice_len (CompItem r)) then set_DataMode r compareDataMode else r.

(** The step of [Related]:
    [if len(w.Request.Restriction.Geo) == 0 { w.Request.Restriction.Geo[""] = "" }].
    An assignment to an entry of a nil map panics: [None]. *)
Definition restriction_Geo (r : WidgetResponse) : option WidgetResponse :=
  if (map_len (ci_Geo (Restriction r)) =? 0)%nat then
    match ci_Geo (Restriction r) with
    | None => None
    | Some m => Some (set_Restriction r (set_ci_Geo (Restriction r) (Some (<["" := ""]> m))))
    end
  else Some r.

Section Api.

Context {Ctx Sender : Type}.
Variable Do : Sender -> HTTPRequest Ctx -> Sender * (error + HTTPResponse).
Variable url_check : URL -> option error.

(** The text of a JSON value, or the error of [json.Marshal]. *)
Variable json_Marshal : json -> error + string.

(** The end of an operation: a panic before anything is changed or sent,
    a return with the widget, the client and the sender as the operation
    leaves them, the requests it sent and the returned pair, or a panic
    after the answer was decoded, with the widget, the client, the sender
    and the requests sent as they are then. *)
Inductive call (T : Type) : Type :=
| Panics (reason : string)
| Returns (w : ExploreWidget) (c : gClient) (s : Sender)
          (sent : list (HTTPRequest Ctx)) (result : error + T)
| PanicsAfter (reason : string) (w : ExploreWidget) (c : gClient) (s : Sender)
              (sent : list (HTTPRequest Ctx)).

Arguments Panics {T} reason.
Arguments Returns {T} w c s sent result.
Arguments PanicsAfter {T} reason w c s sent.

(** The three operations are the same text from [json.Marshal(w.Request)]
    to the decoding of the answer, up to the path of the endpoint and the
    type decoded; [unmarshal] is [json.Unmarshal] into that type followed by
    the selection of the returned field. *)
Definition fetch {T : Type} (path : string) (unmarshal : string -> error + T)
           (c : gClient) (s : Sender) (ctx : option Ctx) (hl : string)
           (w : ExploreWidget) (r : WidgetResponse)
  : call T :=
  match json_Marshal (WidgetResponse_json r) with
  | inl err => Returns w c s [] (inl (Errorf_s_w errInvalidRequest err))
  | inr mReq =>
      let p : gmap string (list string) :=
        <[paramReq := [mReq]]>
          (<[paramToken := [Token w]]> (<[paramHl := [hl]]> (<[paramTZ := ["0"]]> ∅))) in
      let u := {| url_Base := (gAPI ++ path)%string; url_Query := p |} in
      let o := do Do url_check c s ctx u in
      let returns := Returns w (out_client o) (out_sender o) (out_sent o) in
      match out_result o with
      | inl err => returns (inl err)
      | inr b =>
          let str := Replace1 b ")]}'," "" in
          match unmarshal str with
          | inl err => returns (inl (Errorf_s_w errParsing err))
          | inr out => returns (inr out)
          end
      end
  end.

Context {Timeline GeoMap RankedKeyword : Type}.
Variable unmarshal_multilineOut : string -> error + list Timeline.
Variable unmarshal_geoOut : string -> error + list GeoMap.

(** [out.Default.Ranked] is a [[]*rankedList]: an entry is a pointer to the
    keywords of one list, nil for a [null] in the answer. *)
Variable unmarshal_relatedOut : string -> error + list (option (list RankedKeyword)).

Definition nil_dereference : string :=
  "invalid memory address or nil pointer dereference".

(** The loop at the end of [Related]:
    [for _, v := range out.Default.Ranked { keywords = append(keywords, v.Keywords...) }].
    A nil entry makes [v.Keywords] panic: [None]. *)
Fixpoint append_Keywords (keywords : list RankedKeyword)
         (ranked : list (option (list RankedKeyword))) : option (list RankedKeyword) :=
  match ranked with
  | [] => Some keywords
  | None :: _ => None
  | Some v :: rest => append_Keywords (keywords ++ v)%list rest
  end.

Definition InterestOverTime (c : gClient) (s : Sender) (ctx : option Ctx)
           (w : ExploreWidget) (hl : string) : call (list Timeline) :=
  if negb (strings.HasPrefix (ID w) IntOverTimeWidgetID)
  then Returns w c s [] (inl ErrInvalidWidgetType)
  else
    match Request w with
    | None => Panics nil_dereference
    | Some r =>
        let r' := init_Geo r in
        fetch gSIntOverTime unmarshal_multilineOut c s ctx hl (set_Request w r') r'
    end.

Definition InterestByLocation (c : gClient) (s : Sender) (ctx : option Ctx)
           (w : ExploreWidget) (hl : string) : call (list GeoMap) :=
  if negb (strings.HasPrefix (ID w) IntOverRegionID)
  then Returns w c s [] (inl ErrInvalidWidgetType)
  else
    match Request w with
    | None => Panics nil_dereference
    | Some r =>
        let r' := force_DataMode r in
        fetch gSIntOverReg unmarshal_geoOut c s ctx hl (set_Request w r') r'
    end.

Definition Related (c : gClient) (s : Sender) (ctx : option Ctx)
           (w : ExploreWidget) (hl : string)
  : call (list RankedKeyword) :=
  if negb (strings.HasPrefix (ID w) RelatedQueriesID)
     && negb (strings.HasPrefix (ID w) RelatedTopicsID)
  then Returns w c s [] (inl ErrInvalidWidgetType)
  else
    match Request w with
    | None => Panics nil_dereference
    | Some r =>
        match restriction_Geo r with
        | None => Panics "assignment to entry in nil map"
        | Some r' =>
            match fetch gSRelated unmarshal_relatedOut c s ctx hl (set_Request w r') r' with
            | Returns w1 c1 s1 sent (inr ranked) =>
                match append_Keywords [] ranked with
                | Some keywords => Returns w1 c1 s1 sent (inr keywords)
                | None => PanicsAfter nil_dereference w1 c1 s1 sent
                end
            | Returns w1 c1 s1 sent (inl err) => Returns w1 c1 s1 sent (inl err)
            | Panics reason => Panics reason
            | PanicsAfter reason w1 c1 s1 sent => PanicsAfter reason w1 c1 s1 sent
            end
        end
    end.

End Api.

Arguments Panics {Ctx Sender T} reason.
Arguments Returns {Ctx Sender T} w c s sent result.
Arguments PanicsAfter {Ctx Sender T} reason w c s sent.

(** *** Vocabulary for the properties of the operations *)

(** The fields of a widget outside its sub-request. *)
Definition same_widget_fields (w w' : ExploreWidget) : Prop :=
  Token w' = Token w /\ Type_ w' = Type_ w /\ Title w' = Title w /\ ID w' = ID w.

(** The fields of a sub-request other than [Restriction], [CompItem] and
    [DataMode]. *)
Definition same_request_fields (r r' : WidgetResponse) : Prop :=
  Geo r' = Geo r /\ Time r' = Time r /\ Resolution r' = Resolution r /\
  Locale r' = Locale r /\ RequestOpt r' = RequestOpt r /\
  KeywordType r' = KeywordType r /\ Metric r' = Metric r /\ Language r' = Language r /\
  TrendinessSettings r' = TrendinessSettings r /\ UserConfig r' = UserConfig r /\
  UserCountryCode r' = UserCountryCode r.

(** A comparison term is left alone, or its empty geographic scope became
    the map with the one empty entry. *)
Definition geo_initialised (ci ci' : WidgetComparisonItem) : Prop :=
  ci' = ci \/ (map_len (ci_Geo ci) = O /\ ci' = set_ci_Geo ci (Some empty_geo)).

Definition item_geo_initialised (v v' : option WidgetComparisonItem) : Prop :=
  match v, v' with
  | None, None => True
  | Some ci, Some ci' => geo_initialised ci ci'
  | _, _ => False
  end.

Definition items_geo_initialised (l l' : option (list (option WidgetComparisonItem))) : Prop :=
  match l, l' with
  | None, None => True
  | Some items, Some items' => Forall2 item_geo_initialised items items'
  | _, _ => False
  end.

(** The encoded term has a [geo] member. *)
Definition geo_encoded (v : option WidgetComparisonItem) : Prop :=
  match v with
  | None => True
  | Some ci => json_member "geo" (WidgetComparisonItem_json ci) <> None
  end.

(** The request carries [text] as its [req] query parameter. *)
Definition carries_req {Ctx : Type} (text : string) (q : HTTPRequest Ctx) : Prop :=
  url_Query (req_URL q) !! paramReq = Some [text].

(** Every request of [sent] carries the text of the sub-request [r]. *)
Definition sends {Ctx : Type} (json_Marshal : json -> error + string) (r : WidgetResponse)
           (sent : list (HTTPRequest Ctx)) : Prop :=
  forall q, In q sent ->
            exists text, json_Marshal (WidgetResponse_json r) = inr text /\
                         carries_req text q.

(** The identifiers [Related] accepts. *)
Definition related_type (id : string) : bool :=
  strings.HasPrefix id RelatedQueriesID || strings.HasPrefix id RelatedTopicsID.

(** *** Values for running the operations *)

Module Render.

Definition hex_digit (n : N) : ascii :=
  ascii_of_N (if (n <? 10)%N then 48 + n else 87 + n)%N.

(** A string between quotes, with the quote, the backslash and the
    control characters escaped. *)
Fixpoint body (s : string) : string :=
  match s with
  | EmptyString => EmptyString
  | String c r =>
      let n := N_of_ascii c in
      (if (n =? 34)%N then String "\" (String c EmptyString)
       else if (n =? 92)%N then "\\"
       else if (n <? 32)%N
            then "\u00" ++ String (hex_digit (n / 16)) (String (hex_digit (n mod 16)) "")
            else String c EmptyString) ++ body r
  end%string.

Definition quoted (s : string) : string :=
  (String (ascii_of_nat 34) (body s) ++ String (ascii_of_nat 34) "")%string.

Definition join (l : list string) : string :=
  match l with
  | [] => EmptyString
  | x :: rest => List.fold_left (fun acc y => (acc ++ "," ++ y)%string) rest x
  end.

(** A compact text of a JSON value. *)
Fixpoint text (j : json) : string :=
  match j with
  | JNull => "null"
  | JBool true => "true"
  | JBool false => "false"
  | JNumber literal => literal
  | JString s => quoted s
  | JArray items => "[" ++ join (List.map text items) ++ "]"
  | JObject members =>
      "{" ++ join (List.map (fun kv => quoted kv.1 ++ ":" ++ text kv.2) members) ++ "}"
  end%string.

End Render.

Definition test_Marshal (j : json) : error + string := inr (Render.text j).

Definition no_rows {A : Type} (s : string) : error + list A := inr [].

Definition zero_item : WidgetComparisonItem :=
  {| ci_Geo := None; ci_Time := ""; ComplexKeywordsRestriction := {| Keyword := None |};
     OriginalTimeRangeForExploreURL := "" |}.

(** [&WidgetResponse{}] *)
Definition zero_request : WidgetResponse :=
  {| Geo := None; Time := ""; Resolution := ""; Locale := ""; Restriction := zero_item;
     CompItem := None; RequestOpt := {| ro_Property := ""; ro_Backend := ""; ro_Category := 0 |};
     KeywordType := ""; Metric := None; Language := ""; TrendinessSettings := None;
     DataMode := ""; UserConfig := None; UserCountryCode := "" |}.

(** A comparison term as the explore answer gives it for a world-wide
    query: ["geo": {}] decodes to an empty map. *)
Definition term (time : string) : WidgetComparisonItem :=
  set_ci_Geo {| ci_Geo := None; ci_Time := time;
                ComplexKeywordsRestriction := {| Keyword := None |};
                OriginalTimeRangeForExploreURL := "" |} (Some ∅).

Definition widget_with (id : string) (r : WidgetResponse) : ExploreWidget :=
  {| Token := "token"; Type_ := ""; Title := ""; ID := id; Request := Some r |}.

(** A related-queries widget whose restriction has no [geo]: the map is nil. *)
Definition related_nil_geo : ExploreWidget := widget_with "RELATED_QUERIES_0" zero_request.

(** The same with ["geo": {}]. *)
Definition related_empty_geo : ExploreWidget :=
  widget_with "RELATED_QUERIES_0" (set_Restriction zero_request (term "today 12-m")).

Definition one_term : WidgetResponse :=
  set_CompItem zero_request (Some [Some (term "today 12-m")]).

Definition two_terms : WidgetResponse :=
  set_CompItem zero_request (Some [Some (term "today 12-m"); Some (term "today 12-m")]).

Definition answer_200 : list (error + HTTPResponse) := [inr (newMockResponse StatusOK "{}")].

(** The three operations with the scripted sender, the encoder above and
    decoders that find no rows. *)
Definition test_timeline :=
  InterestOverTime scripted no_url_error test_Marshal (@no_rows unit)
                   newGClient answer_200 (Some tt).

Definition test_by_location :=
  InterestByLocation scripted no_url_error test_Marshal (@no_rows unit)
                     newGClient answer_200 (Some tt).

(** A decoder that finds one ranked list, and that one [null]. *)
Definition null_ranked (s : string) : error + list (option (list unit)) := inr [None].

Definition test_related :=
  Related scripted no_url_error test_Marshal (@no_rows (option (list unit)))
          newGClient answer_200 (Some tt).

(** The text of [one_term] as it stands: the comparison term has no [geo]. *)
Definition one_term_text : string :=
  dq "{'restriction':{'complexKeywordsRestriction':{'keyword':null}},'comparisonItem':[{'time':'today 12-m','complexKeywordsRestriction':{'keyword':null}}],'requestOptions':{'property':'','backend':'','category':0},'keywordType':'','metric':null,'language':'','trendinessSettings':null}".

(** *** Vocabulary for further properties of the collection methods *)

Definition has_underscore (s : string) : bool := strings.Contains s "_".

(** The identifier has no underscore. *)
Definition plain (w : ExploreWidget) : bool :=
  match suffix_of (ID w) with
  | NoUnderscore => true
  | _ => false
  end.

(** The identifier has an underscore that is not followed by a number. *)
Definition odd_suffix (w : ExploreWidget) : bool :=
  match suffix_of (ID w) with
  | BadSuffix => true
  | _ => false
  end.

(** *** Vocabulary for further properties of the transport *)

(** The request that [do] hands to the sender first. *)
Definition do_request {Ctx : Type} (c : gClient) (ctx : Ctx) (u : URL) : HTTPRequest Ctx :=
  with_cookie c {| req_ctx := ctx; req_Method := "GET"; req_URL := u;
                   req_Header := Header.Add ∅ headerKeyAccept contentTypeJSON;
                   req_Body := "" |}.

(** The request that [doPost] hands to the sender first. *)
Definition doPost_request {Ctx : Type} (c : gClient) (ctx : Ctx) (u : URL) (payload : string)
  : HTTPRequest Ctx :=
  with_cookie c {| req_ctx := ctx; req_Method := "POST"; req_URL := u;
                   req_Header := Header.Add ∅ headerKeyContentType contentTypeForm;
                   req_Body := payload |}.

(** The [Cookie] header that goes with a stored cookie. *)
Definition cookie_header (c : gClient) : option (list string) :=
  if (String.length (cookie c) =? 0)%nat then None else Some [cookie c].

(** A sender that answers 200 with the body ["ok"] and counts its calls. *)
Definition always_ok (calls : nat) (r : HTTPRequest unit) : nat * (error + HTTPResponse) :=
  (S calls, inr (newMockResponse StatusOK "ok")).

(** *** Vocabulary for further properties of the extractor *)

(** The line, trimmed, starts with [[] and ends with []]. *)
Definition bracketed (line : string) : bool :=
  strings.HasPrefix (strings.TrimSpace line) "[" && strings.HasSuffix (strings.TrimSpace line) "]".

(** ** The remaining operations of the client and API files *)

Definition gSExplore := "/explore".
Definition gSCategories := "/explore/pickers/category".
Definition gSGeo := "/explore/pickers/geo".
Definition gBatchExecute := "https://trends.google.com/_/TrendsUi/data/batchexecute".

(** [c.unmarshal(str, dest)], for the decoder of the type of [dest]. *)
Definition unmarshal {T : Type} (json_Unmarshal : string -> error + T) (str : string)
  : error + T :=
  match json_Unmarshal str with
  | inl err => inl (Errorf_s_w errParsing err)
  | inr v => inr v
  end.

(** *** Trending searches *)

Record SearchTitle : Type := {
  Query : string
}.

Record SearchImage : Type := {
  NewsURL : string;
  img_Source : string;
  ImageURL : string
}.

Record SearchArticle : Type := {
  art_Title : string;
  TimeAgo : string;
  art_Source : string;
  art_Image : option SearchImage;
  art_URL : string;
  Snippet : string
}.

Record TrendingSearch : Type := {
  ts_Title : option SearchTitle;
  FormattedTraffic : string;
  ts_Image : option SearchImage;
  Articles : option (list (option SearchArticle))
}.

Record TrendingSearchDays : Type := {
  FormattedDate : string;
  Searches : option (list (option TrendingSearch))
}.

(** The struct literal built for a term. *)
Definition search_of (term : string) : TrendingSearch :=
  {| ts_Title := Some {| Query := term |}; FormattedTraffic := ""; ts_Image := None;
     Articles := Some [] |}.

Definition quote : string := String (ascii_of_nat 34) EmptyString.

(** [fmt.Sprintf("f.req=[[[i0OFE,\"[null, null, \\\"%s\\\", 0, null, 48]\"]]]", loc)] *)
Definition trendsNew_payload (loc : string) : string :=
  ("f.req=[[[i0OFE," ++ quote ++ "[null, null, \" ++ quote ++ loc ++ "\" ++ quote
     ++ ", 0, null, 48]" ++ quote ++ "]]]")%string.

(** *** Reference trees and their cache *)

#[warnings="-register-all"]
Inductive ExploreCatTree : Type :=
| CatTree (name : string) (id : Z) (children : option (list (option ExploreCatTree))).

#[warnings="-register-all"]
Inductive ExploreLocTree : Type :=
| LocTree (name : string) (id : string) (children : option (list (option ExploreLocTree))).

(** The two cache fields of [gClient]; each is a pointer, nil when unset.
    The locks around them order concurrent accesses and have no effect on a
    single caller. *)
Record cache : Type := {
  exploreCats : option ExploreCatTree;
  exploreLocs : option ExploreLocTree
}.

Definition getCategories (k : cache) : option ExploreCatTree := exploreCats k.

Definition setCategories (k : cache) (cats : option ExploreCatTree) : cache :=
  {| exploreCats := cats; exploreLocs := exploreLocs k |}.

Definition getLocations (k : cache) : option ExploreLocTree := exploreLocs k.

Definition setLocations (k : cache) (locs : option ExploreLocTree) : cache :=
  {| exploreCats := exploreCats k; exploreLocs := locs |}.

(** *** The explore request *)

Record ComparisonItem : Type := {
  cmp_Keyword : string;
  cmp_Geo : string;
  cmp_Time : string;
  cmp_GranularTimeResolution : bool;
  cmp_StartTime : string;
  cmp_EndTime : string
}.

Record ExploreRequest : Type := {
  er_ComparisonItems : option (list (option ComparisonItem));
  er_Category : Z;
  er_Property : string
}.

Definition ComparisonItem_json (ci : ComparisonItem) : json :=
  JObject (field "keyword" (JString (cmp_Keyword ci))
           ++ field_omitempty "geo" (cmp_Geo ci)
           ++ field "time" (JString (cmp_Time ci))
           ++ field "granularTimeResolution" (JBool (cmp_GranularTimeResolution ci))
           ++ field "startTime" (JString (cmp_StartTime ci))
           ++ field "endTime" (JString (cmp_EndTime ci)))%list.

Definition ExploreRequest_json (r : ExploreRequest) : json :=
  JObject (field "comparisonItem"
                 (slice_json (pointer_json ComparisonItem_json) (er_ComparisonItems r))
           ++ field "category" (JNumber (itoa (er_Category r)))
           ++ field "property" (JString (er_Property r)))%list.

(** [strings.Join] and [strings.ReplaceAll] (for a non-empty [old]). *)
Fixpoint Join (elems : list string) (sep : string) : string :=
  match elems with
  | [] => EmptyString
  | [x] => x
  | x :: rest => (x ++ sep ++ Join rest sep)%string
  end.

Definition ReplaceAll (s old new : string) : string := Join (strings.Split s old) new.

Definition set_cmp_Time (ci : ComparisonItem) (time : string) : ComparisonItem :=
  {| cmp_Keyword := cmp_Keyword ci; cmp_Geo := cmp_Geo ci; cmp_Time := time;
     cmp_GranularTimeResolution := cmp_GranularTimeResolution ci;
     cmp_StartTime := cmp_StartTime ci; cmp_EndTime := cmp_EndTime ci |}.

(** The loop of [Explore] over the comparison items:
    [r.Time = strings.ReplaceAll(r.Time, "+", " ")].  A nil item makes the
    assignment panic: [None]. *)
Fixpoint fix_times (items : list (option ComparisonItem))
  : option (list (option ComparisonItem)) :=
  match items with
  | [] => Some []
  | None :: _ => None
  | Some ci :: rest =>
      match fix_times rest with
      | Some rest' => Some (Some (set_cmp_Time ci (ReplaceAll (cmp_Time ci) "+" " ")) :: rest')
      | None => None
      end
  end.

Definition set_ComparisonItems (r : ExploreRequest)
           (items : option (list (option ComparisonItem))) : ExploreRequest :=
  {| er_ComparisonItems := items; er_Category := er_Category r;
     er_Property := er_Property r |}.

Section Rest.

Context {Ctx Sender : Type}.
Variable Do : Sender -> HTTPRequest Ctx -> Sender * (error + HTTPResponse).
Variable url_check : URL -> option error.
Variable json_Marshal : json -> error + string.

(** [json.Unmarshal] into an [interface{}], for the batch answer. *)
Variable decode : string -> error + json.

(** What an operation returns and leaves behind. *)
Record returned (T : Type) : Type := {
  ret_client : gClient;
  ret_sender : Sender;
  ret_sent : list (HTTPRequest Ctx);
  ret_result : error + T
}.

Arguments ret_client {T} _.
Arguments ret_sender {T} _.
Arguments ret_sent {T} _.
Arguments ret_result {T} _.

Definition after {T : Type} (o : outcome Ctx Sender) (result : error + T) : returned T :=
  {| ret_client := out_client o; ret_sender := out_sender o; ret_sent := out_sent o;
     ret_result := result |}.

Definition unsent {T : Type} (c : gClient) (s : Sender) (result : error + T) : returned T :=
  {| ret_client := c; ret_sender := s; ret_sent := []; ret_result := result |}.

(** [c.trendsNew(ctx, hl, loc)] *)
Definition trendsNew (c : gClient) (s : Sender) (ctx : option Ctx) (hl loc : string)
  : returned (list string) :=
  let u := {| url_Base := gBatchExecute; url_Query := ∅ |} in
  let payload := trendsNew_payload loc in
  let o := doPost Do url_check c s ctx u payload in
  match out_result o with
  | inl err => after o (inl err)
  | inr data => after o (extractJSONFromResponse decode data)
  end.

Definition DailyNew (c : gClient) (s : Sender) (ctx : option Ctx) (hl loc : string)
  : returned (list TrendingSearch) :=
  let t := trendsNew c s ctx hl loc in
  match ret_result t with
  | inl err => {| ret_client := ret_client t; ret_sender := ret_sender t;
                  ret_sent := ret_sent t; ret_result := inl err |}
  | inr terms => {| ret_client := ret_client t; ret_sender := ret_sender t;
                    ret_sent := ret_sent t; ret_result := inr (List.map search_of terms) |}
  end.

Definition Daily (c : gClient) (s : Sender) (ctx : option Ctx) (hl loc : string)
  : returned (list TrendingSearch) :=
  DailyNew c s ctx hl loc.

Definition DailyTrendingSearchNew (c : gClient) (s : Sender) (ctx : option Ctx)
           (hl loc : string) : returned (list TrendingSearchDays) :=
  let t := trendsNew c s ctx hl loc in
  match ret_result t with
  | inl err => {| ret_client := ret_client t; ret_sender := ret_sender t;
                  ret_sent := ret_sent t; ret_result := inl err |}
  | inr terms =>
      let today := {| FormattedDate := "Today";
                      Searches := Some (List.map (fun term => Some (search_of term)) terms) |} in
      {| ret_client := ret_client t; ret_sender := ret_sender t;
         ret_sent := ret_sent t; ret_result := inr [today] |}
  end.

Variable unmarshal_ExploreCatTree : string -> error + ExploreCatTree.
Variable unmarshal_ExploreLocTree : string -> error + ExploreLocTree.

(** [ExploreCategories(ctx)], with the cache passed along. *)
Definition ExploreCategories (c : gClient) (k : cache) (s : Sender) (ctx : option Ctx)
  : cache * returned ExploreCatTree :=
  match getCategories k with
  | Some cats => (k, unsent c s (inr cats))
  | None =>
      let u := {| url_Base := (gAPI ++ gSCategories)%string; url_Query := ∅ |} in
      let o := do Do url_check c s ctx u in
      match out_result o with
      | inl err => (k, after o (inl err))
      | inr b =>
          let str := Replace1 b ")]}'" "" in
          match unmarshal unmarshal_ExploreCatTree str with
          | inl err => (k, after o (inl err))
          | inr out => (setCategories k (Some out), after o (inr out))
          end
      end
  end.

(** [ExploreLocations(ctx)] *)
Definition ExploreLocations (c : gClient) (k : cache) (s : Sender) (ctx : option Ctx)
  : cache * returned ExploreLocTree :=
  match getLocations k with
  | Some locs => (k, unsent c s (inr locs))
  | None =>
      let u := {| url_Base := (gAPI ++ gSGeo)%string; url_Query := ∅ |} in
      let o := do Do url_check c s ctx u in
      match out_result o with
      | inl err => (k, after o (inl err))
      | inr b =>
          let str := Replace1 b ")]}'" "" in
          match unmarshal unmarshal_ExploreLocTree str with
          | inl err => (k, after o (inl err))
          | inr out => (setLocations k (Some out), after o (inr out))
          end
      end
  end.

Variable unmarshal_exploreOut : string -> error + list ExploreWidget.

(** [Explore(ctx, r, hl)]: a panic ([None]), or the request as the
    operation leaves it with what it returns.  [r] is a pointer. *)
Definition Explore (c : gClient) (s : Sender) (ctx : option Ctx) (r : option ExploreRequest)
           (hl : string) : option (ExploreRequest * returned (list ExploreWidget)) :=
  match r with
  | None => None
  | Some r =>
      match option_map fix_times (er_ComparisonItems r) with
      | Some None => None
      | fixed =>
          let r' := set_ComparisonItems r (match fixed with
                                           | Some items => items
                                           | None => None
                                           end) in
          match json_Marshal (ExploreRequest_json r') with
          | inl err => Some (r', unsent c s (inl (Errorf_s_w errInvalidRequest err)))
          | inr mReq =>
              let p : gmap string (list string) :=
                <[paramReq := [mReq]]> (<[paramHl := [hl]]> (<[paramTZ := ["0"]]> ∅)) in
              let u := {| url_Base := (gAPI ++ gSExplore)%string; url_Query := p |} in
              let o := do Do url_check c s ctx u in
              match out_result o with
              | inl err => Some (r', after o (inl err))
              | inr b =>
                  let str := Replace1 b ")]}'" "" in
                  Some (r', after o (unmarshal unmarshal_exploreOut str))
              end
          end
      end
  end.

End Rest.

Arguments ret_client {Ctx Sender T} _.
Arguments ret_sender {Ctx Sender T} _.
Arguments ret_sent {Ctx Sender T} _.
Arguments ret_result {Ctx Sender T} _.

(** The bytes of a string with every [+] turned into a space. *)
Fixpoint plus_to_space (s : string) : string :=
  match s with
  | EmptyString => EmptyString
  | String a s' => String (if Ascii.eqb a "+" then " "%char else a) (plus_to_space s')
  end.

(** *** Vocabulary for further properties of the operations *)

(** The operation sent one request, and the sender answered it with status
    200 and the readable body [body]. *)
Definition answered_with {Ctx Sender : Type}
           (Do : Sender -> HTTPRequest Ctx -> Sender * (error + HTTPResponse))
           (s : Sender) (sent : list (HTTPRequest Ctx)) (body : string) : Prop :=
  exists q s1 resp,
    sent = [q] /\ Do s q = (s1, inr resp) /\ resp_StatusCode resp = StatusOK /\
    resp_BodyErr resp = None /\ resp_Body resp = body.

(** The query parameters of a detail fetch. *)
Definition widget_query (hl token text : string) : gmap string (list string) :=
  <[paramReq := [text]]> (<[paramToken := [token]]> (<[paramHl := [hl]]> (<[paramTZ := ["0"]]> ∅))).

(** A GET request to [gAPI ++ path] with the query of a detail fetch for the
    sub-request [r]. *)
Definition widget_request {Ctx : Type} (json_Marshal : json -> error + string)
           (path hl token : string) (r : WidgetResponse) (q : HTTPRequest Ctx) : Prop :=
  req_Method q = "GET" /\
  url_Base (req_URL q) = (gAPI ++ path)%string /\
  exists text, json_Marshal (WidgetResponse_json r) = inr text /\
               url_Query (req_URL q) = widget_query hl token text.

(** The comparison item with every [+] of its time range turned into a
    space. *)
Definition time_fixed (a b : option ComparisonItem) : Prop :=
  exists ci, a = Some ci /\ b = Some (set_cmp_Time ci (plus_to_space (cmp_Time ci))).

(** A decoder that always finds the same category tree. *)
Definition one_tree (str : string) : error + ExploreCatTree := inr (CatTree "X" 1 None).

Definition no_locs (str : string) : error + ExploreLocTree :=
  inl (errors_New "unexpected end of JSON input").

Definition empty_cache : cache := {| exploreCats := None; exploreLocs := None |}.

(** An answer with the guard in front of an empty object. *)
Definition guarded_answer : list (error + HTTPResponse) :=
  [inr (newMockResponse StatusOK (")]}'," ++ "{}"))].

(** An explore request written the old way, with [+] in the time range. *)
Definition old_style_request : ExploreRequest :=
  {| er_ComparisonItems :=
       Some [Some {| cmp_Keyword := "Go"; cmp_Geo := "US"; cmp_Time := "today+12-m";
                     cmp_GranularTimeResolution := false;
                     cmp_StartTime := ""; cmp_EndTime := "" |}];
     er_Category := 31; er_Property := "" |}.

Definition no_widgets (str : string) : error + list ExploreWidget := inr [].

(** * Properties *)

Local Open Scope list_scope.

(** ** Sanity checks of the library models and of the tests of the repository *)

Example TrimSpace_ex :
  strings.TrimSpace (strings.bytes [32; 9; 91; 93; 13; 10]) = "[]".
Proof. vm_compute. reflexivity. Qed.

Example Split_ex : strings.Split "abc=1; Path=/" ";" = ["abc=1"; " Path=/"].
Proof. reflexivity. Qed.

Example Split_empty : strings.Split "" ";" = [""].
Proof. reflexivity. Qed.

Example LastIndex_ex :
  strings.LastIndex "RELATED_QUERIES_2" "_" = 15%Z /\
  strings.LastIndex "TIMESERIES" "_" = (-1)%Z.
Proof. split; reflexivity. Qed.

Example ParseInt_ex :
  strconv.ParseInt "12" 32 = Some 12%Z /\ strconv.ParseInt "-3" 32 = Some (-3)%Z /\
  strconv.ParseInt "MAP" 32 = None /\ strconv.ParseInt "" 32 = None /\
  strconv.ParseInt "2147483648" 32 = None /\
  strconv.ParseInt "-2147483648" 32 = Some (-2147483648)%Z.
Proof. repeat split; reflexivity. Qed.

Example Sort_test (Next : Z -> Z) :
  Sort Next (List.map widget ["RELATED_QUERIES_2"; "RELATED_TOPICS_0"; "RELATED_QUERIES_1";
                         "TIMESERIES"; "GEO_MAP"])
  = Some (List.map widget ["TIMESERIES"; "GEO_MAP"; "RELATED_TOPICS_0"; "RELATED_QUERIES_1";
                     "RELATED_QUERIES_2"]).
Proof. vm_compute. reflexivity. Qed.

Example GetWidgetsByOrder_test :
  let e := List.map widget ["RELATED_QUERIES_0"; "RELATED_TOPICS_0"; "RELATED_QUERIES_1";
                            "RELATED_TOPICS_1"; "TIMESERIES"; "GEO_MAP"] in
  GetWidgetsByOrder e 1 = List.map widget ["RELATED_QUERIES_1"; "RELATED_TOPICS_1"] /\
  GetWidgetsByOrder e 99 = [].
Proof. split; vm_compute; reflexivity. Qed.

Example GetWidgetsByType_test :
  let e := List.map widget ["RELATED_QUERIES_0"; "RELATED_TOPICS_0"; "RELATED_QUERIES_1";
                            "TIMESERIES"; "GEO_MAP"] in
  length (GetWidgetsByType e RelatedQueriesID) = 2 /\
  length (GetWidgetsByType e RelatedTopicsID) = 1 /\
  length (GetWidgetsByType e IntOverTimeWidgetID) = 1.
Proof. repeat split; vm_compute; reflexivity. Qed.

(** ** Filtering a collection by order index *)

Lemma GetWidgetsByOrder_loop_app (pre rest : ExploreResponse) (i : Z) (out : ExploreResponse) :
  Forall (fun w => unparsable w = false) pre ->
  GetWidgetsByOrder_loop (pre ++ rest) i out
  = GetWidgetsByOrder_loop rest i (out ++ List.filter (has_order i) pre).
Proof.
  intros Hpre. revert out.
  induction Hpre as [|w pre Hw _ IH]; intros out; simpl.
  - now rewrite app_nil_r.
  - unfold unparsable, has_order, unsuffixed_type, order_suffix in *.
    destruct (String.eqb (ID w) IntOverTimeWidgetID || String.eqb (ID w) IntOverRegionID);
      simpl in *; [apply IH|].
    destruct (strconv.ParseInt _ 32) as [val|]; [|discriminate].
    destruct (val =? i)%Z; rewrite IH; [|reflexivity].
    now rewrite <- app_assoc.
Qed.

Lemma GetWidgetsByOrder_loop_stop (v : ExploreWidget) (post : ExploreResponse) (i : Z)
      (out : ExploreResponse) :
  unparsable v = true -> GetWidgetsByOrder_loop (v :: post) i out = out.
Proof.
  unfold unparsable, unsuffixed_type, order_suffix. simpl. intros H.
  destruct (String.eqb (ID v) IntOverTimeWidgetID || String.eqb (ID v) IntOverRegionID);
    simpl in H; [discriminate|].
  now destruct (strconv.ParseInt _ 32).
Qed.

(** C10.  [GetWidgetsByOrder i] stops at the first widget whose identifier is
    neither ["TIMESERIES"] nor ["GEO_MAP"] and whose text after the last
    underscore is not a decimal integer: it returns the matches found before
    that widget and ignores every widget after it.  When there is no such
    widget it returns exactly the widgets whose parsed suffix is [i], in
    their original order. *)
Theorem GetWidgetsByOrder_spec (e : ExploreResponse) (i : Z) :
  (forall pre v post,
      e = pre ++ v :: post ->
      Forall (fun w => unparsable w = false) pre ->
      unparsable v = true ->
      GetWidgetsByOrder e i = List.filter (has_order i) pre) /\
  (Forall (fun w => unparsable w = false) e ->
   GetWidgetsByOrder e i = List.filter (has_order i) e).
Proof.
  split.
  - intros pre v post -> Hpre Hv. unfold GetWidgetsByOrder.
    rewrite GetWidgetsByOrder_loop_app by assumption.
    now rewrite GetWidgetsByOrder_loop_stop.
  - intros He. unfold GetWidgetsByOrder.
    rewrite <- (app_nil_r e) at 1.
    now rewrite GetWidgetsByOrder_loop_app.
Qed.

Lemma GetWidgetsByOrder_spec_witness :
  GetWidgetsByOrder
    (List.map widget ["RELATED_QUERIES_1"; "TIMESERIES"; "RELATED_TOPICS_x";
                      "RELATED_TOPICS_1"]) 1
  = [widget "RELATED_QUERIES_1"] /\
  GetWidgetsByOrder
    (List.map widget ["RELATED_QUERIES_1"; "GEO_MAP"; "RELATED_TOPICS_0";
                      "RELATED_TOPICS_1"]) 1
  = List.map widget ["RELATED_QUERIES_1"; "RELATED_TOPICS_1"].
Proof.
  split.
  - apply (proj1 (GetWidgetsByOrder_spec _ 1)
             (List.map widget ["RELATED_QUERIES_1"; "TIMESERIES"])
             (widget "RELATED_TOPICS_x") [widget "RELATED_TOPICS_1"]).
    + reflexivity.
    + repeat constructor.
    + reflexivity.
  - apply (proj2 (GetWidgetsByOrder_spec
                    (List.map widget ["RELATED_QUERIES_1"; "GEO_MAP"; "RELATED_TOPICS_0";
                                      "RELATED_TOPICS_1"]) 1)).
    repeat constructor.
Defined.

(** ** Sorting a collection *)

Lemma Less_ID_suffix (idI idJ : string) :
  Less_ID idI idJ =
  match suffix_of idI, suffix_of idJ with
  | NoUnderscore, _ => true
  | _, NoUnderscore => false
  | BadSuffix, _ => true
  | _, BadSuffix => false
  | Numbered a, Numbered b => (a <? b)%Z
  end.
Proof.
  unfold Less_ID, suffix_of.
  destruct (strings.LastIndex idI "_" <? 0)%Z, (strings.LastIndex idJ "_" <? 0)%Z,
    (strconv.ParseInt (strings.slice_from idI (strings.LastIndex idI "_" + 1)) 32),
    (strconv.ParseInt (strings.slice_from idJ (strings.LastIndex idJ "_" + 1)) 32);
    reflexivity.
Qed.

(** ** Two implementations of the interface in step

    When two implementations of [sort.Interface] answer [Less] alike and
    their [Swap]s keep them related, every function of the package takes
    the same decisions on both and leaves them related. *)
Module sort_related.
Section Related.
Context {D1 D2 : Type}.
Variable Len1 : D1 -> nat.
Variable Less1 : D1 -> nat -> nat -> bool.
Variable Swap1 : D1 -> nat -> nat -> D1.
Variable Len2 : D2 -> nat.
Variable Less2 : D2 -> nat -> nat -> bool.
Variable Swap2 : D2 -> nat -> nat -> D2.
Variable Next : Z -> Z.
Variable R : D1 -> D2 -> Prop.
Hypothesis R_Len : forall d1 d2, R d1 d2 -> Len1 d1 = Len2 d2.
Hypothesis R_Less : forall d1 d2 i j, R d1 d2 -> Less1 d1 i j = Less2 d2 i j.
Hypothesis R_Swap : forall d1 d2 i j, R d1 d2 -> R (Swap1 d1 i j) (Swap2 d2 i j).

Lemma advance_ext (p q : nat -> bool) :
  (forall i, p i = q i) -> forall n i, sort.advance p i n = sort.advance q i n.
Proof.
  intros Hpq n. induction n as [|n IH]; intros i; cbn; [reflexivity|].
  rewrite Hpq. destruct (q i); [apply IH|reflexivity].
Qed.

Lemma retreat_ext (p q : nat -> bool) :
  (forall i, p i = q i) -> forall n j, sort.retreat p j n = sort.retreat q j n.
Proof.
  intros Hpq n. induction n as [|n IH]; intros j; cbn; [reflexivity|].
  rewrite Hpq. destruct (q j); [apply IH|reflexivity].
Qed.

Local Abbreviation R1 := (related_with R).
Local Abbreviation R2 := (related_with2 R).
Local Abbreviation Ro := (related_option R).

Ltac step :=
  cbn [sort.sift sort.insertion_loop sort.siftDown_loop sort.heap_build sort.heap_pop
       sort.partition_loop sort.partitionEqual_loop sort.shift_left sort.shift_right
       sort.partialInsertionSort_loop sort.breakPatterns_loop sort.reverseRange_loop
       sort.pdqsort fst snd].

Ltac less12 d1 d2 H :=
  repeat match goal with
         | |- context [Less1 d1 ?i ?j] => rewrite (R_Less d1 d2 i j H)
         end.

Lemma sift_related (a j : nat) :
  forall d1 d2, R d1 d2 -> R (sort.sift Less1 Swap1 d1 a j) (sort.sift Less2 Swap2 d2 a j).
Proof.
  induction j as [|j IH]; intros d1 d2 H; step; [exact H|].
  less12 d1 d2 H. destruct (_ && _); auto.
Qed.

Lemma insertionSort_related (d1 : D1) (d2 : D2) (a b : nat) :
  R d1 d2 ->
  R (sort.insertionSort Less1 Swap1 d1 a b) (sort.insertionSort Less2 Swap2 d2 a b).
Proof.
  unfold sort.insertionSort. generalize (a + 1) as i, (b - (a + 1)) as n. intros i n.
  revert d1 d2 i. induction n as [|n IH]; intros d1 d2 i H; step; [exact H|].
  apply IH. now apply sift_related.
Qed.

Lemma siftDown_related (lo hi first : nat) (d1 : D1) (d2 : D2) :
  R d1 d2 ->
  R (sort.siftDown Less1 Swap1 d1 lo hi first) (sort.siftDown Less2 Swap2 d2 lo hi first).
Proof.
  unfold sort.siftDown. generalize hi at 1 3 as turns. intros turns.
  revert d1 d2 lo. induction turns as [|turns IH]; intros d1 d2 root H; step; [exact H|].
  destruct (Nat.leb hi _); [exact H|].
  less12 d1 d2 H. destruct (_ && _); (destruct (negb _); [exact H|apply IH; auto]).
Qed.

Lemma heapSort_related (d1 : D1) (d2 : D2) (a b : nat) :
  R d1 d2 -> R (sort.heapSort Less1 Swap1 d1 a b) (sort.heapSort Less2 Swap2 d2 a b).
Proof.
  unfold sort.heapSort. intros H.
  assert (Hb : forall n hi first e1 e2,
             R e1 e2 -> R (sort.heap_build Less1 Swap1 e1 n hi first)
                          (sort.heap_build Less2 Swap2 e2 n hi first)).
  { induction n as [|n IH]; intros hi first e1 e2 He; step; [exact He|].
    apply IH. now apply siftDown_related. }
  assert (Hp : forall n first e1 e2,
             R e1 e2 -> R (sort.heap_pop Less1 Swap1 e1 n first)
                          (sort.heap_pop Less2 Swap2 e2 n first)).
  { induction n as [|n IH]; intros first e1 e2 He; step; [exact He|].
    apply IH. apply siftDown_related. auto. }
  auto.
Qed.

Lemma partition_loop_related (turns a : nat) :
  forall d1 d2 i j,
    R d1 d2 ->
    R1 (sort.partition_loop Less1 Swap1 turns d1 a i j)
       (sort.partition_loop Less2 Swap2 turns d2 a i j).
Proof.
  induction turns as [|turns IH]; intros d1 d2 i j H; step; [now split|].
  rewrite (advance_ext (fun i => Less1 d1 i a) (fun i => Less2 d2 i a)
             ltac:(intros; now apply R_Less)).
  rewrite (retreat_ext (fun j => negb (Less1 d1 j a)) (fun j => negb (Less2 d2 j a))
             ltac:(intros; cbv beta; f_equal; now apply R_Less)).
  destruct (Nat.ltb _ _); [now split|]. apply IH. auto.
Qed.

Lemma partition_related (d1 : D1) (d2 : D2) (a b pivot : nat) :
  R d1 d2 ->
  R2 (sort.partition Less1 Swap1 d1 a b pivot) (sort.partition Less2 Swap2 d2 a b pivot).
Proof.
  intros H. unfold sort.partition.
  pose proof (R_Swap d1 d2 a pivot H) as H0.
  rewrite (advance_ext (fun i => Less1 (Swap1 d1 a pivot) i a)
                       (fun i => Less2 (Swap2 d2 a pivot) i a)
             ltac:(intros; now apply R_Less)).
  rewrite (retreat_ext (fun j => negb (Less1 (Swap1 d1 a pivot) j a))
                       (fun j => negb (Less2 (Swap2 d2 a pivot) j a))
             ltac:(intros; cbv beta; f_equal; now apply R_Less)).
  destruct (Nat.ltb _ _); [repeat split; step; auto|].
  match goal with
  | |- context [sort.partition_loop Less1 Swap1 ?t (Swap1 ?x ?i ?j) ?a ?i' ?j'] =>
      pose proof (partition_loop_related t a (Swap1 x i j) (Swap2 (Swap2 d2 a pivot) i j)
                    i' j' (R_Swap _ _ i j H0)) as [Hl Hj]
  end.
  destruct (sort.partition_loop Less1 _ _ _ _ _ _) as [e1 j1],
    (sort.partition_loop Less2 _ _ _ _ _ _) as [e2 j2].
  cbn in Hl, Hj. subst j2. repeat split; step; auto.
Qed.

Lemma partitionEqual_related (d1 : D1) (d2 : D2) (a b pivot : nat) :
  R d1 d2 ->
  R1 (sort.partitionEqual Less1 Swap1 d1 a b pivot)
     (sort.partitionEqual Less2 Swap2 d2 a b pivot).
Proof.
  intros H. unfold sort.partitionEqual.
  pose proof (R_Swap d1 d2 a pivot H) as H0. revert H0.
  generalize (Swap1 d1 a pivot) as e1, (Swap2 d2 a pivot) as e2,
    (a + 1) as i, (b - 1) as j, (S (b - a)) as turns.
  intros e1 e2 i j turns. revert e1 e2 i j.
  induction turns as [|turns IH]; intros e1 e2 i j H0; step; [now split|].
  rewrite (advance_ext (fun i => negb (Less1 e1 a i)) (fun i => negb (Less2 e2 a i))
             ltac:(intros; cbv beta; f_equal; now apply R_Less)).
  rewrite (retreat_ext (fun j => Less1 e1 a j) (fun j => Less2 e2 a j)
             ltac:(intros; now apply R_Less)).
  destruct (Nat.ltb _ _); [now split|]. apply IH. auto.
Qed.

Lemma shift_left_related (j : nat) :
  forall d1 d2, R d1 d2 ->
                R (sort.shift_left Less1 Swap1 d1 j) (sort.shift_left Less2 Swap2 d2 j).
Proof.
  induction j as [|j IH]; intros d1 d2 H; step; [exact H|].
  less12 d1 d2 H. destruct (negb _); auto.
Qed.

Lemma shift_right_related (n : nat) :
  forall d1 d2 j, R d1 d2 ->
                  R (sort.shift_right Less1 Swap1 d1 j n)
                    (sort.shift_right Less2 Swap2 d2 j n).
Proof.
  induction n as [|n IH]; intros d1 d2 j H; step; [exact H|].
  less12 d1 d2 H. destruct (negb _); auto.
Qed.

Lemma partialInsertionSort_related (d1 : D1) (d2 : D2) (a b : nat) :
  R d1 d2 ->
  R1 (sort.partialInsertionSort Less1 Swap1 d1 a b)
     (sort.partialInsertionSort Less2 Swap2 d2 a b).
Proof.
  unfold sort.partialInsertionSort.
  generalize sort.maxSteps as steps, (a + 1) as i. intros steps. revert d1 d2.
  induction steps as [|steps IH]; intros d1 d2 i H; step; [now split|].
  rewrite (advance_ext (fun i => negb (Less1 d1 i (i - 1)))
                       (fun i => negb (Less2 d2 i (i - 1)))
             ltac:(intros; cbv beta; f_equal; now apply R_Less)).
  destruct (Nat.eqb _ _); [now split|].
  destruct (Nat.ltb _ _); [now split|].
  apply IH.
  destruct (Nat.leb 2 (_ - a)), (Nat.leb 2 (b - _));
    auto using shift_left_related, shift_right_related.
Qed.

Lemma breakPatterns_loop_related (n a length idx : nat) :
  forall d1 d2 i random,
    R d1 d2 ->
    R (sort.breakPatterns_loop Swap1 Next n d1 a length idx i random)
      (sort.breakPatterns_loop Swap2 Next n d2 a length idx i random).
Proof.
  induction n as [|n IH]; intros d1 d2 i random H; step; [exact H|].
  apply IH. now apply R_Swap.
Qed.

Lemma breakPatterns_related (d1 : D1) (d2 : D2) (a b : nat) :
  R d1 d2 -> R (sort.breakPatterns Swap1 Next d1 a b) (sort.breakPatterns Swap2 Next d2 a b).
Proof.
  unfold sort.breakPatterns. destruct (Nat.leb 8 _); [|auto].
  apply breakPatterns_loop_related.
Qed.

Lemma order2_related (d1 : D1) (d2 : D2) (a b swaps : nat) :
  R d1 d2 -> sort.order2 Less1 d1 a b swaps = sort.order2 Less2 d2 a b swaps.
Proof. intros H. unfold sort.order2. now rewrite (R_Less d1 d2 b a H). Qed.

Lemma median_related (d1 : D1) (d2 : D2) (a b c swaps : nat) :
  R d1 d2 -> sort.median Less1 d1 a b c swaps = sort.median Less2 d2 a b c swaps.
Proof.
  intros H. unfold sort.median.
  rewrite (order2_related d1 d2 a b swaps H).
  destruct (sort.order2 Less2 d2 a b swaps) as [[a1 b1] s1].
  rewrite (order2_related d1 d2 b1 c s1 H).
  destruct (sort.order2 Less2 d2 b1 c s1) as [[b2 c2] s2].
  now rewrite (order2_related d1 d2 a1 b2 s2 H).
Qed.

Lemma choosePivot_related (d1 : D1) (d2 : D2) (a b : nat) :
  R d1 d2 -> sort.choosePivot Less1 d1 a b = sort.choosePivot Less2 d2 a b.
Proof.
  intros H. unfold sort.choosePivot, sort.medianAdjacent.
  destruct (Nat.leb 8 _); [|reflexivity].
  destruct (Nat.leb sort.shortestNinther _).
  - rewrite (median_related d1 d2 _ _ _ _ H).
    destruct (sort.median Less2 d2 _ _ _ _) as [i s1].
    rewrite (median_related d1 d2 _ _ _ _ H).
    destruct (sort.median Less2 d2 _ _ _ _) as [j s2].
    rewrite (median_related d1 d2 _ _ _ _ H).
    destruct (sort.median Less2 d2 _ _ _ _) as [k s3].
    now rewrite (median_related d1 d2 _ _ _ _ H).
  - now rewrite (median_related d1 d2 _ _ _ _ H).
Qed.

Lemma reverseRange_related (d1 : D1) (d2 : D2) (a b : nat) :
  R d1 d2 -> R (sort.reverseRange Swap1 d1 a b) (sort.reverseRange Swap2 d2 a b).
Proof.
  unfold sort.reverseRange. generalize (b - a) as turns, (b - 1) as j. intros turns.
  revert d1 d2 a. induction turns as [|turns IH]; intros d1 d2 i j H; step; [exact H|].
  destruct (Nat.ltb i j); auto.
Qed.

Lemma pdqsort_related (steps : nat) :
  forall d1 d2 a b limit wasBalanced wasPartitioned,
    R d1 d2 ->
    Ro (sort.pdqsort Less1 Swap1 Next steps d1 a b limit wasBalanced wasPartitioned)
       (sort.pdqsort Less2 Swap2 Next steps d2 a b limit wasBalanced wasPartitioned).
Proof.
  induction steps as [|steps IH]; intros d1 d2 a b limit wB wP H; cbn [sort.pdqsort];
    [exact I|].
  destruct (Nat.leb _ _); [now apply insertionSort_related|].
  destruct (Nat.eqb _ _); [now apply heapSort_related|].
  assert (H1 : R (if wB then d1 else sort.breakPatterns Swap1 Next d1 a b)
                 (if wB then d2 else sort.breakPatterns Swap2 Next d2 a b))
    by (destruct wB; [exact H|now apply breakPatterns_related]).
  revert H1.
  generalize (if wB then d1 else sort.breakPatterns Swap1 Next d1 a b) as e1,
    (if wB then d2 else sort.breakPatterns Swap2 Next d2 a b) as e2.
  intros e1 e2 H1. rewrite (choosePivot_related e1 e2 a b H1).
  destruct (sort.choosePivot Less2 e2 a b) as [pivot hint].
  set (pivot' := match hint with sort.decreasingHint => _ | _ => pivot end).
  assert (H2 : R (match hint with
                  | sort.decreasingHint => sort.reverseRange Swap1 e1 a b
                  | _ => e1
                  end)
                 (match hint with
                  | sort.decreasingHint => sort.reverseRange Swap2 e2 a b
                  | _ => e2
                  end))
    by (destruct hint; auto using reverseRange_related).
  revert H2.
  generalize (match hint with
              | sort.decreasingHint => sort.reverseRange Swap1 e1 a b
              | _ => e1
              end) as f1,
    (match hint with
     | sort.decreasingHint => sort.reverseRange Swap2 e2 a b
     | _ => e2
     end) as f2.
  intros f1 f2 H2.
  set (hint' := match hint with sort.decreasingHint => sort.increasingHint | _ => hint end).
  assert (H3 : R1 (match hint' with
                   | sort.increasingHint =>
                       if wB && wP then sort.partialInsertionSort Less1 Swap1 f1 a b
                       else (f1, false)
                   | _ => (f1, false)
                   end)
                  (match hint' with
                   | sort.increasingHint =>
                       if wB && wP then sort.partialInsertionSort Less2 Swap2 f2 a b
                       else (f2, false)
                   | _ => (f2, false)
                   end)).
  { destruct hint'; try (now split).
    destruct (wB && wP); [now apply partialInsertionSort_related|now split]. }
  revert H3.
  generalize (match hint' with
              | sort.increasingHint =>
                  if wB && wP then sort.partialInsertionSort Less1 Swap1 f1 a b
                  else (f1, false)
              | _ => (f1, false)
              end),
    (match hint' with
     | sort.increasingHint =>
         if wB && wP then sort.partialInsertionSort Less2 Swap2 f2 a b
         else (f2, false)
     | _ => (f2, false)
     end).
  intros [g1 sorted1] [g2 sorted2] [H3 Hs]. cbn in H3, Hs. subst sorted2.
  destruct sorted1; [exact H3|].
  rewrite (R_Less g1 g2 (a - 1) pivot' H3).
  destruct (_ && _).
  - pose proof (partitionEqual_related g1 g2 a b pivot' H3) as [H4 Hm].
    destruct (sort.partitionEqual Less1 _ _ _ _ _) as [h1 mid1],
      (sort.partitionEqual Less2 _ _ _ _ _) as [h2 mid2].
    cbn in H4, Hm. subst mid2. now apply IH.
  - pose proof (partition_related g1 g2 a b pivot' H3) as (H4 & Hm & Hp).
    destruct (sort.partition Less1 _ _ _ _ _) as [[h1 mid1] ap1],
      (sort.partition Less2 _ _ _ _ _) as [[h2 mid2] ap2].
    cbn in H4, Hm, Hp. subst mid2 ap2.
    destruct (Nat.ltb _ _).
    + pose proof (IH h1 h2 a mid1 (if wB then limit else limit - 1) true true H4) as H5.
      destruct (sort.pdqsort Less1 _ _ _ _ _ _ _ _ _) as [k1|],
        (sort.pdqsort Less2 _ _ _ _ _ _ _ _ _) as [k2|]; try contradiction; [|exact I].
      now apply IH.
    + pose proof (IH h1 h2 (mid1 + 1) b (if wB then limit else limit - 1) true true H4)
        as H5.
      destruct (sort.pdqsort Less1 _ _ _ _ _ _ _ _ _) as [k1|],
        (sort.pdqsort Less2 _ _ _ _ _ _ _ _ _) as [k2|]; try contradiction; [|exact I].
      now apply IH.
Qed.

Lemma Sort_related (d1 : D1) (d2 : D2) :
  R d1 d2 -> Ro (sort.Sort Len1 Less1 Swap1 Next d1) (sort.Sort Len2 Less2 Swap2 Next d2).
Proof.
  intros H. unfold sort.Sort. rewrite (R_Len d1 d2 H).
  destruct (Nat.leb _ 1); [exact H|]. now apply pdqsort_related.
Qed.
End Related.
End sort_related.

(** ** The library sort on a list of keys

    The keys are linearly ordered by [le], and the comparison [lt] that
    [Less] makes lies between the strict and the weak order: it may answer
    either way on equal keys. *)
Module sort_list.
Section ListFacts.
Context {K : Type} `{!Inhabited K}.
Variable lt : K -> K -> bool.
Variable le : K -> K -> Prop.
Hypothesis le_refl : forall x, le x x.
Hypothesis le_trans : forall x y z, le x y -> le y z -> le x z.
Hypothesis le_antisym : forall x y, le x y -> le y x -> x = y.
Hypothesis lt_le : forall x y, lt x y = true -> le x y.
Hypothesis nlt_le : forall x y, lt x y = false -> le y x.
Variable Next : Z -> Z.

Local Abbreviation Less := (less_at lt).
Local Abbreviation Swap := (@swap_at K).
Local Abbreviation sorted_in := (sorted_in le).
Local Abbreviation prefix_le := (prefix_le le).

Implicit Types l : list K.

Lemma Less_total l (i j : nat) :
  i < length l -> j < length l -> Less l i j = lt (l !!! i) (l !!! j).
Proof.
  intros Hi Hj. unfold less_at.
  now rewrite !list_lookup_lookup_total_lt by assumption.
Qed.

Lemma length_Swap l (i j : nat) : length (Swap l i j) = length l.
Proof.
  unfold swap_at. destruct (l !! i), (l !! j); try reflexivity.
  now rewrite !length_insert.
Qed.

Lemma Swap_total l (i j x : nat) :
  i < length l -> j < length l ->
  Swap l i j !!! x
  = l !!! (if decide (x = i) then j else if decide (x = j) then i else x).
Proof.
  intros Hi Hj. unfold swap_at.
  rewrite (list_lookup_lookup_total_lt l i), (list_lookup_lookup_total_lt l j) by assumption.
  destruct (decide (x = i)) as [->|Hxi].
  - now rewrite list_lookup_total_insert_eq by (rewrite length_insert; lia).
  - rewrite list_lookup_total_insert_ne by congruence.
    destruct (decide (x = j)) as [->|Hxj].
    + now rewrite list_lookup_total_insert_eq.
    + now rewrite list_lookup_total_insert_ne by congruence.
Qed.

Lemma Swap_perm l (i j : nat) : Swap l i j ≡ₚ l.
Proof.
  unfold swap_at. destruct (l !! i) as [x|] eqn:Hi, (l !! j) as [y|] eqn:Hj; try reflexivity.
  now apply Permutation_insert_swap.
Qed.

(** Exchanging two equal keys changes nothing. *)
Lemma Swap_same l (i j : nat) : l !!! i = l !!! j -> Swap l i j = l.
Proof.
  intros Heq. unfold swap_at.
  destruct (l !! i) as [x|] eqn:Hi, (l !! j) as [y|] eqn:Hj; try reflexivity.
  rewrite (list_lookup_total_correct l i x Hi), (list_lookup_total_correct l j y Hj) in Heq.
  subst y. rewrite (list_insert_id l j x Hj). now apply list_insert_id.
Qed.

Lemma perm_in_refl (a b : nat) l : perm_in a b l l.
Proof. repeat split; auto. Qed.

Lemma perm_in_trans (a b : nat) l1 l2 l3 :
  perm_in a b l1 l2 -> perm_in a b l2 l3 -> perm_in a b l1 l3.
Proof.
  intros (Hl1 & Ho1 & Hp1) (Hl2 & Ho2 & Hp2). split; [congruence|]. split.
  - intros x Hx. now rewrite Ho2, Ho1.
  - now rewrite Hp2.
Qed.

Lemma perm_in_weaken (a b a' b' : nat) l l' :
  a' <= a -> b <= b' -> perm_in a b l l' -> perm_in a' b' l l'.
Proof.
  intros Ha Hb (Hl & Ho & Hp). split; [exact Hl|]. split; [|exact Hp].
  intros x Hx. apply Ho. lia.
Qed.

Lemma perm_in_Swap (a b i j : nat) l :
  a <= i -> i < b -> a <= j -> j < b -> b <= length l -> perm_in a b l (Swap l i j).
Proof.
  intros Hai Hib Haj Hjb Hb. split; [apply length_Swap|]. split; [|apply Swap_perm].
  intros x Hx. rewrite Swap_total by lia. repeat case_decide; try lia. reflexivity.
Qed.

Lemma perm_in_length (a b : nat) l l' : perm_in a b l l' -> length l' = length l.
Proof. now intros []. Qed.

Lemma take_total_eq (a : nat) l l' :
  length l' = length l -> (forall x, x < a -> l' !!! x = l !!! x) -> take a l' = take a l.
Proof.
  intros Hl Ho. apply list_eq. intros x.
  destruct (decide (x < a)) as [Hx|Hx].
  - rewrite !lookup_take_lt by assumption.
    destruct (decide (x < length l)) as [Hxl|Hxl].
    + rewrite !list_lookup_lookup_total_lt by lia. now rewrite Ho.
    + now rewrite !lookup_ge_None_2 by lia.
  - now rewrite !lookup_take_ge by lia.
Qed.

Lemma drop_total_eq (b : nat) l l' :
  length l' = length l -> (forall x, b <= x -> l' !!! x = l !!! x) -> drop b l' = drop b l.
Proof.
  intros Hl Ho. apply list_eq. intros x. rewrite !lookup_drop.
  destruct (decide (b + x < length l)) as [Hxl|Hxl].
  - rewrite !list_lookup_lookup_total_lt by lia. rewrite Ho by lia. reflexivity.
  - now rewrite !lookup_ge_None_2 by lia.
Qed.

Lemma split_range (a b : nat) l :
  a <= b -> l = take a l ++ take (b - a) (drop a l) ++ drop b l.
Proof.
  intros Hab. rewrite <- (take_drop a l) at 1. f_equal.
  rewrite <- (take_drop (b - a) (drop a l)) at 1. f_equal.
  rewrite drop_drop. f_equal. lia.
Qed.

(** The entries of a range after a rearrangement are the entries before. *)
Lemma perm_in_range (a b : nat) l l' (P : K -> Prop) :
  perm_in a b l l' -> a <= b -> b <= length l ->
  (forall x, a <= x -> x < b -> P (l !!! x)) ->
  forall x, a <= x -> x < b -> P (l' !!! x).
Proof.
  intros (Hl & Ho & Hp) Hab Hb HP x Hax Hxb.
  assert (Hmid : take (b - a) (drop a l') ≡ₚ take (b - a) (drop a l)).
  { rewrite (split_range a b l Hab), (split_range a b l' Hab) in Hp at 1.
    rewrite (take_total_eq a l l' Hl), (drop_total_eq b l l' Hl) in Hp
      by (intros; apply Ho; lia).
    apply Permutation_app_inv_l in Hp. now apply Permutation_app_inv_r in Hp. }
  assert (Hin : l' !!! x ∈ take (b - a) (drop a l')).
  { apply list_elem_of_lookup. exists (x - a).
    rewrite lookup_take_lt, lookup_drop by lia.
    replace (a + (x - a)) with x by lia. apply list_lookup_lookup_total_lt. lia. }
  rewrite Hmid in Hin. apply list_elem_of_lookup in Hin as [y Hy].
  assert (Hyb : y < b - a).
  { apply lookup_lt_Some in Hy. rewrite length_take in Hy. lia. }
  rewrite lookup_take_lt, lookup_drop in Hy by assumption.
  apply list_lookup_total_correct in Hy. rewrite <- Hy. apply HP; lia.
Qed.

Lemma prefix_le_perm (a b : nat) l l' :
  perm_in a b l l' -> a <= b -> b <= length l -> prefix_le a b l -> prefix_le a b l'.
Proof.
  intros Hp Hab Hb Hpre x y Hx Hay Hyb.
  rewrite (proj1 (proj2 Hp) x) by lia.
  apply (perm_in_range a b l l' (fun v => le (l !!! x) v) Hp Hab Hb); [|lia|lia].
  intros z Haz Hzb. now apply Hpre.
Qed.

Lemma sorted_in_StronglySorted l : sorted_in 0 (length l) l -> StronglySorted le l.
Proof.
  induction l as [|x l IH]; intros Hs; constructor.
  - apply IH. intros i j Hi Hij Hj. apply (Hs (S i) (S j)); cbn; lia.
  - apply (@Forall_lookup_total_2 K (le x) _ l). intros i Hi.
    apply (Hs 0 (S i)); cbn; lia.
Qed.

(** *** The two scanning loops *)

Lemma advance_spec (p : nat -> bool) (n : nat) :
  forall i,
    i <= sort.advance p i n /\ sort.advance p i n <= i + n /\
    (forall x, i <= x -> x < sort.advance p i n -> p x = true) /\
    (sort.advance p i n < i + n -> p (sort.advance p i n) = false).
Proof.
  induction n as [|n IH]; intros i; cbn [sort.advance].
  - repeat split; lia.
  - destruct (p i) eqn:Hp.
    + destruct (IH (S i)) as (H1 & H2 & H3 & H4).
      split; [lia|]. split; [lia|]. split.
      * intros x Hx Hx'. destruct (decide (x = i)) as [->|]; [exact Hp|apply H3; lia].
      * intros Hlt. apply H4. lia.
    + split; [lia|]. split; [lia|]. split; [intros x; lia|intros _; exact Hp].
Qed.

Lemma retreat_spec (p : nat -> bool) (n : nat) :
  forall j,
    n <= j ->
    sort.retreat p j n <= j /\ j <= sort.retreat p j n + n /\
    (forall x, sort.retreat p j n < x -> x <= j -> p x = true) /\
    (j < sort.retreat p j n + n -> p (sort.retreat p j n) = false).
Proof.
  induction n as [|n IH]; intros j Hn; cbn [sort.retreat].
  - repeat split; lia.
  - destruct (p j) eqn:Hp.
    + destruct (IH (j - 1)) as (H1 & H2 & H3 & H4); [lia|].
      split; [lia|]. split; [lia|]. split.
      * intros x Hx Hx'. destruct (decide (x = j)) as [->|]; [exact Hp|apply H3; lia].
      * intros Hlt. apply H4. lia.
    + split; [lia|]. split; [lia|]. split; [intros x; lia|intros _; exact Hp].
Qed.

(** *** [insertionSort] *)

Ltac swapped :=
  rewrite ?Swap_total by lia; repeat case_decide; try lia.

Ltac by_hyp :=
  solve [ apply le_refl
        | assumption
        | match goal with H : _ |- _ => solve [apply H; lia] end ].

Lemma sift_spec (a j : nat) :
  forall p l,
    a <= p -> p <= j -> j < length l ->
    sorted_in a p l -> sorted_in p (S j) l ->
    (forall x y, a <= x -> x < p -> p < y -> y <= j -> le (l !!! x) (l !!! y)) ->
    perm_in a (S j) l (sort.sift Less Swap l a p) /\
    sorted_in a (S j) (sort.sift Less Swap l a p).
Proof.
  induction p as [|p IH]; intros l Hap Hpj Hj Hlo Hhi Hx; cbn [sort.sift].
  - split; [apply perm_in_refl|]. intros i k Hi Hik Hk. apply Hhi; lia.
  - destruct (Nat.ltb a (S p)) eqn:Ha; cbn [andb].
    + apply Nat.ltb_lt in Ha. rewrite Less_total by lia.
      destruct (lt (l !!! S p) (l !!! p)) eqn:Hlt.
      * apply lt_le in Hlt.
        destruct (IH (Swap l (S p) p)) as [Hperm Hsorted];
          try rewrite length_Swap; try lia.
        -- intros i k Hi Hik Hk. swapped. by_hyp.
        -- intros i k Hi Hik Hk. swapped; subst; by_hyp.
        -- intros x y Hax Hxp Hpy Hyj. swapped; subst; by_hyp.
        -- split; [|exact Hsorted].
           eapply perm_in_trans; [|exact Hperm]. apply perm_in_Swap; lia.
      * apply nlt_le in Hlt. split; [apply perm_in_refl|].
        intros i k Hi Hik Hk.
        destruct (decide (k <= p)); [apply Hlo; lia|].
        destruct (decide (S p <= i)); [apply Hhi; lia|].
        destruct (decide (k = S p)) as [->|]; [|apply Hx; lia].
        apply le_trans with (l !!! p); [apply Hlo; lia|exact Hlt].
    + apply Nat.ltb_ge in Ha. split; [apply perm_in_refl|].
      intros i k Hi Hik Hk. apply Hhi; lia.
Qed.

Lemma insertion_loop_spec (a b : nat) (n : nat) :
  forall i l,
    a < i -> i + n = b -> b <= length l -> sorted_in a i l ->
    perm_in a b l (sort.insertion_loop Less Swap l a i n) /\
    sorted_in a b (sort.insertion_loop Less Swap l a i n).
Proof.
  induction n as [|n IH]; intros i l Hai Hb Hlen Hs; cbn [sort.insertion_loop].
  - split; [apply perm_in_refl|]. now replace b with i by lia.
  - destruct (sift_spec a i i l) as [Hp Hs']; try lia; try assumption.
    + intros x y Hx Hxy Hy. replace y with x by lia. apply le_refl.
    + destruct (IH (S i) (sort.sift Less Swap l a i)) as [Hp2 Hs2]; try lia.
      * rewrite (perm_in_length _ _ _ _ Hp). lia.
      * exact Hs'.
      * split; [|exact Hs2]. eapply perm_in_trans; [|exact Hp2].
        eapply perm_in_weaken; [| |exact Hp]; lia.
Qed.

Lemma insertionSort_spec (a b : nat) l :
  a <= b -> b <= length l ->
  perm_in a b l (sort.insertionSort Less Swap l a b) /\
  sorted_in a b (sort.insertionSort Less Swap l a b).
Proof.
  intros Hab Hb. unfold sort.insertionSort.
  destruct (decide (b <= a + 1)) as [Hsmall|Hbig].
  - replace (b - (a + 1)) with 0 by lia. cbn [sort.insertion_loop].
    split; [apply perm_in_refl|]. intros i j Hi Hij Hj.
    replace j with i by lia. apply le_refl.
  - apply insertion_loop_spec; try lia.
    intros i j Hi Hij Hj. replace j with i by lia. apply le_refl.
Qed.

(** *** [heapSort] *)

Local Abbreviation heap_in := (heap_in le).

Lemma siftDown_loop_spec (lo hi first : nat) (turns : nat) :
  forall l root,
    lo <= root -> hi <= root + turns -> first + hi <= length l ->
    (forall r c, lo <= r -> r <> root -> heap_child r c -> c < hi ->
                 le (l !!! (first + c)) (l !!! (first + r))) ->
    (forall r c, lo <= r -> heap_child r root -> heap_child root c -> c < hi ->
                 le (l !!! (first + c)) (l !!! (first + r))) ->
    perm_in (first + lo) (first + hi) l (sort.siftDown_loop Less Swap turns l root hi first) /\
    heap_in first lo hi (sort.siftDown_loop Less Swap turns l root hi first).
Proof.
  unfold heap_child.
  induction turns as [|turns IH]; intros l root Hlo Hturns Hlen HA HB;
    cbn [sort.siftDown_loop].
  - split; [apply perm_in_refl|]. intros r c Hr Hc Hchi. unfold heap_child in *; apply HA; lia.
  - destruct (Nat.leb hi (2 * root + 1)) eqn:Hleaf.
    { apply Nat.leb_le in Hleaf. split; [apply perm_in_refl|].
      intros r c Hr Hc Hchi. unfold heap_child in *; apply HA; lia. }
    apply Nat.leb_gt in Hleaf.
    set (child := if Nat.ltb (2 * root + 1 + 1) hi
                     && Less l (first + (2 * root + 1)) (first + (2 * root + 1) + 1)
                  then 2 * root + 1 + 1 else 2 * root + 1).
    assert (Hchild : (child = 2 * root + 1 \/ child = 2 * root + 2) /\ child < hi /\
                     forall c, (c = 2 * root + 1 \/ c = 2 * root + 2) -> c < hi ->
                               le (l !!! (first + c)) (l !!! (first + child))).
    { subst child. destruct (Nat.ltb (2 * root + 1 + 1) hi) eqn:Hr; cbn [andb].
      - apply Nat.ltb_lt in Hr. rewrite Less_total by lia.
        destruct (lt _ _) eqn:Hlt.
        + apply lt_le in Hlt. split; [lia|]. split; [lia|].
          intros c [-> | ->] _.
          * now replace (first + (2 * root + 1 + 1)) with (first + (2 * root + 1) + 1) by lia.
          * replace (2 * root + 1 + 1) with (2 * root + 2) by lia. apply le_refl.
        + apply nlt_le in Hlt. split; [lia|]. split; [lia|].
          intros c [-> | ->] _; [apply le_refl|].
          now replace (first + (2 * root + 2)) with (first + (2 * root + 1) + 1) by lia.
      - apply Nat.ltb_ge in Hr. split; [lia|]. split; [lia|].
        intros c [-> | ->] Hc; [apply le_refl|lia]. }
    destruct Hchild as (Hc1 & Hc2 & Hc3). clearbody child.
    rewrite Less_total by lia.
    destruct (lt (l !!! (first + root)) (l !!! (first + child))) eqn:Hlt; cbn [negb].
    + apply lt_le in Hlt.
      destruct (IH (Swap l (first + root) (first + child)) child) as [Hp Hh];
        try rewrite length_Swap; try lia.
      * intros r c Hr Hne Hc Hchi. unfold heap_child in *. swapped; subst.
        -- apply (HB r child); lia.
        -- exact Hlt.
        -- apply Hc3; lia.
        -- apply HA; lia.
      * intros r c Hr Hrc Hc Hchi. unfold heap_child in *. swapped; subst.
        apply HA; lia.
      * split; [|exact Hh]. eapply perm_in_trans; [|exact Hp]. apply perm_in_Swap; lia.
    + apply nlt_le in Hlt. split; [apply perm_in_refl|].
      intros r c Hr Hc Hchi. unfold heap_child in Hc.
      destruct (decide (r = root)) as [->|Hne].
      * apply le_trans with (l !!! (first + child)); [now apply Hc3|exact Hlt].
      * unfold heap_child in *. apply HA; auto.
Qed.

Lemma siftDown_spec (lo hi first : nat) l :
  first + hi <= length l -> heap_in first (S lo) hi l ->
  perm_in (first + lo) (first + hi) l (sort.siftDown Less Swap l lo hi first) /\
  heap_in first lo hi (sort.siftDown Less Swap l lo hi first).
Proof.
  intros Hlen Hheap. unfold sort.siftDown. apply siftDown_loop_spec; try lia.
  - intros r c Hr Hne Hc Hchi. apply Hheap; [lia|exact Hc|exact Hchi].
  - intros r c Hr Hc. unfold heap_child in Hc. lia.
Qed.

Lemma heap_build_spec (hi first : nat) (n : nat) :
  forall l,
    first + hi <= length l -> heap_in first n hi l ->
    perm_in first (first + hi) l (sort.heap_build Less Swap l n hi first) /\
    heap_in first 0 hi (sort.heap_build Less Swap l n hi first).
Proof.
  induction n as [|n IH]; intros l Hlen Hheap; cbn [sort.heap_build].
  - split; [apply perm_in_refl|exact Hheap].
  - destruct (siftDown_spec n hi first l Hlen Hheap) as [Hp Hh].
    destruct (IH (sort.siftDown Less Swap l n hi first)) as [Hp2 Hh2].
    + rewrite (perm_in_length _ _ _ _ Hp). exact Hlen.
    + exact Hh.
    + split; [|exact Hh2]. eapply perm_in_trans; [|exact Hp2].
      eapply perm_in_weaken; [| |exact Hp]; lia.
Qed.

(** The root of a heap is its greatest entry. *)
Lemma heap_root_max (first n : nat) l :
  heap_in first 0 n l ->
  forall x, x < n -> le (l !!! (first + x)) (l !!! (first + 0)).
Proof.
  intros Hheap x. induction x as [x IH] using lt_wf_ind. intros Hx.
  destruct x as [|x]; [apply le_refl|].
  apply le_trans with (l !!! (first + x / 2)).
  - apply Hheap; [lia| |exact Hx]. unfold heap_child.
    pose proof (Nat.div_mod_eq x 2). pose proof (Nat.mod_upper_bound x 2). lia.
  - apply IH; [|]; pose proof (Nat.div_mod_eq x 2); lia.
Qed.

Lemma heap_pop_spec (hi first : nat) (n : nat) :
  forall l,
    n <= hi -> first + hi <= length l ->
    heap_in first 0 n l ->
    sorted_in (first + n) (first + hi) l ->
    (forall x y, x < n -> n <= y -> y < hi ->
                 le (l !!! (first + x)) (l !!! (first + y))) ->
    perm_in first (first + hi) l (sort.heap_pop Less Swap l n first) /\
    sorted_in first (first + hi) (sort.heap_pop Less Swap l n first).
Proof.
  induction n as [|n IH]; intros l Hn Hlen Hheap Hsorted Hcross; cbn [sort.heap_pop].
  - split; [apply perm_in_refl|]. now rewrite Nat.add_0_r in Hsorted.
  - pose proof (heap_root_max first (S n) l Hheap) as Hmax.
    set (l1 := Swap l first (first + n)).
    assert (Hp1 : perm_in first (first + hi) l l1) by (apply perm_in_Swap; lia).
    assert (Hlen1 : first + hi <= length l1) by (subst l1; rewrite length_Swap; lia).
    assert (Hat : forall x, l1 !!! (first + x)
                            = l !!! (first + (if decide (x = 0) then n
                                              else if decide (x = n) then 0 else x))).
    { intros x. subst l1. rewrite Swap_total by lia.
      repeat case_decide; try lia; f_equal; lia. }
    destruct (siftDown_spec 0 n first l1) as [Hp2 Hh2]; [lia| |].
    { intros r c Hr Hc Hcn. unfold heap_child in Hc. rewrite !Hat.
      repeat case_decide; try lia. apply Hheap; [lia|exact Hc|lia]. }
    set (l2 := sort.siftDown Less Swap l1 0 n first) in *.
    rewrite Nat.add_0_r in Hp2.
    assert (Hfix : forall y, n <= y -> l2 !!! (first + y) = l1 !!! (first + y)).
    { intros y Hy. apply (proj1 (proj2 Hp2)). lia. }
    assert (Hlow : forall v : K,
               (forall x, x < S n -> le (l !!! (first + x)) v) ->
               forall x, x < n -> le (l2 !!! (first + x)) v).
    { intros v Hv x Hx.
      apply (perm_in_range first (first + n) l1 l2 (fun w => le w v) Hp2);
        [lia|lia| |lia|lia].
      intros p Hp Hpn. replace p with (first + (p - first)) by lia. rewrite Hat.
      apply Hv. repeat case_decide; lia. }
    destruct (IH l2) as [Hp3 Hs3].
    + lia.
    + rewrite (perm_in_length _ _ _ _ Hp2). exact Hlen1.
    + exact Hh2.
    + intros p q Hp Hpq Hq.
      replace p with (first + (p - first)) by lia.
      replace q with (first + (q - first)) by lia.
      rewrite !Hfix, !Hat by lia.
      repeat case_decide; try lia; by_hyp.
    + intros x y Hx Hy Hyhi. rewrite (Hfix y) by lia. rewrite Hat.
      apply Hlow; [|exact Hx]. intros x' Hx'.
      repeat case_decide; try lia; by_hyp.
    + split; [|exact Hs3]. eapply perm_in_trans; [exact Hp1|].
      eapply perm_in_trans; [|exact Hp3].
      eapply perm_in_weaken; [| |exact Hp2]; lia.
Qed.

Lemma heapSort_spec (a b : nat) l :
  a <= b -> b <= length l ->
  perm_in a b l (sort.heapSort Less Swap l a b) /\
  sorted_in a b (sort.heapSort Less Swap l a b).
Proof.
  intros Hab Hb. unfold sort.heapSort.
  destruct (heap_build_spec (b - a) a ((b - a - 1) / 2 + 1) l) as [Hp Hh]; [lia| |].
  { intros r c Hr Hc Hcb. unfold heap_child in Hc.
    pose proof (Nat.div_mod_eq (b - a - 1) 2).
    pose proof (Nat.mod_upper_bound (b - a - 1) 2). lia. }
  destruct (heap_pop_spec (b - a) a (b - a)
                          (sort.heap_build Less Swap l ((b - a - 1) / 2 + 1) (b - a) a))
    as [Hp2 Hs2].
  - lia.
  - rewrite (perm_in_length _ _ _ _ Hp). lia.
  - exact Hh.
  - intros i j Hi Hij Hj. lia.
  - intros x y; lia.
  - replace (a + (b - a)) with b in * by lia.
    split; [|exact Hs2]. eapply perm_in_trans; eassumption.
Qed.

(** *** [partition] and [partitionEqual] *)

(** One pass of the two scanning loops from both ends. *)
Lemma scan_spec (f : nat -> bool) (i j : nat) :
  1 <= i -> i <= j + 1 ->
  let i' := sort.advance f i (j + 1 - i) in
  let j' := sort.retreat (fun x => negb (f x)) j (j + 1 - i') in
  i <= i' /\ j' <= j /\ i' <= j' + 1 /\
  (forall x, i <= x -> x < i' -> f x = true) /\
  (forall x, j' < x -> x <= j -> f x = false) /\
  (i' <= j' -> f i' = false /\ f j' = true /\ i' < j').
Proof.
  intros Hi Hij i' j'.
  destruct (advance_spec f (j + 1 - i) i) as (H1 & H2 & H3 & H4). fold i' in H1, H2, H3, H4.
  destruct (retreat_spec (fun x => negb (f x)) (j + 1 - i') j) as (G1 & G2 & G3 & G4);
    [lia|]. fold j' in G1, G2, G3, G4.
  split; [lia|]. split; [lia|]. split; [lia|]. split; [exact H3|]. split.
  - intros x Hx Hxj. apply negb_true_iff. now apply G3.
  - intros Hle.
    assert (Hfi : f i' = false) by (apply H4; lia).
    assert (Hfj : f j' = true) by (apply negb_false_iff, G4; lia).
    split; [exact Hfi|]. split; [exact Hfj|].
    destruct (decide (i' = j')) as [Heq|]; [|lia]. rewrite Heq in Hfi. congruence.
Qed.

Lemma partition_loop_spec (a b : nat) (p : K) (turns : nat) :
  forall l i j l' j',
    a < i -> i <= j + 1 -> j < b -> b <= length l -> j + 1 - i <= turns ->
    l !!! a = p ->
    (forall x, a < x -> x < i -> lt (l !!! x) p = true) ->
    (forall x, j < x -> x < b -> lt (l !!! x) p = false) ->
    sort.partition_loop Less Swap turns l a i j = (l', j') ->
    perm_in (S a) b l l' /\ a <= j' /\ j' < b /\
    (forall x, a < x -> x <= j' -> lt (l' !!! x) p = true) /\
    (forall x, j' < x -> x < b -> lt (l' !!! x) p = false).
Proof.
  induction turns as [|turns IH]; intros l i j l' j' Hai Hij Hjb Hlen Hturns Hp Hlo Hhi;
    cbn [sort.partition_loop].
  - intros [= <- <-]. split; [apply perm_in_refl|]. split; [lia|]. split; [lia|].
    split; [|exact Hhi]. intros x Hx Hxj. apply Hlo; lia.
  - destruct (scan_spec (fun i => Less l i a) i j) as (H1 & H2 & H3 & H4 & H5 & H6);
      [lia|lia|].
    cbv zeta in H1, H2, H3, H4, H5, H6.
    set (i1 := sort.advance (fun i => Less l i a) i (j + 1 - i)) in *.
    set (j1 := sort.retreat (fun j => negb (Less l j a)) j (j + 1 - i1)) in *.
    assert (Hlow : forall x, a < x -> x < i1 -> lt (l !!! x) p = true).
    { intros x Hx Hx1. destruct (decide (x < i)); [now apply Hlo|].
      rewrite <- Hp, <- Less_total by lia. apply H4; lia. }
    assert (Hhigh : forall x, j1 < x -> x < b -> lt (l !!! x) p = false).
    { intros x Hx Hxb. destruct (decide (j < x)); [now apply Hhi|].
      rewrite <- Hp, <- Less_total by lia. apply H5; lia. }
    destruct (Nat.ltb j1 i1) eqn:Hcmp.
    + apply Nat.ltb_lt in Hcmp. intros [= <- <-].
      split; [apply perm_in_refl|]. split; [lia|]. split; [lia|].
      split; [|exact Hhigh]. intros x Hx Hxj. apply Hlow; lia.
    + apply Nat.ltb_ge in Hcmp. destruct (H6 Hcmp) as (Hfi & Hfj & Hlt).
      rewrite Less_total in Hfi, Hfj by lia. rewrite Hp in Hfi, Hfj.
      intros Hloop.
      destruct (IH (Swap l i1 j1) (i1 + 1) (j1 - 1) l' j') as (Hperm & Hj1 & Hj2 & Hl & Hh);
        try rewrite length_Swap; try lia; try exact Hloop.
      * swapped. exact Hp.
      * intros x Hx Hx1. swapped; subst; auto. apply Hlow; lia.
      * intros x Hx Hxb. swapped; subst; auto. apply Hhigh; lia.
      * split; [|auto]. eapply perm_in_trans; [|exact Hperm]. apply perm_in_Swap; lia.
Qed.

Lemma partition_spec (a b pivot : nat) l l' (mid : nat) (already : bool) :
  a <= pivot -> pivot < b -> b <= length l ->
  sort.partition Less Swap l a b pivot = (l', mid, already) ->
  perm_in a b l l' /\ a <= mid /\ mid < b /\ l' !!! mid = l !!! pivot /\
  (forall x, a <= x -> x < mid -> lt (l' !!! x) (l !!! pivot) = true) /\
  (forall x, mid < x -> x < b -> lt (l' !!! x) (l !!! pivot) = false).
Proof.
  intros Hap Hpb Hlen. unfold sort.partition.
  set (p := l !!! pivot). set (l0 := Swap l a pivot).
  assert (Hlen0 : length l0 = length l) by apply length_Swap.
  assert (Hp0 : l0 !!! a = p) by (subst l0 p; swapped; reflexivity).
  assert (Hperm0 : perm_in a b l l0) by (apply perm_in_Swap; lia).
  destruct (scan_spec (fun i => Less l0 i a) (a + 1) (b - 1)) as (H1 & H2 & H3 & H4 & H5 & H6);
    [lia|lia|].
  cbv zeta in H1, H2, H3, H4, H5, H6.
  set (i1 := sort.advance (fun i => Less l0 i a) (a + 1) (b - 1 + 1 - (a + 1))) in *.
  set (j1 := sort.retreat (fun j => negb (Less l0 j a)) (b - 1) (b - 1 + 1 - i1)) in *.
  assert (Hlow : forall x, a < x -> x < i1 -> lt (l0 !!! x) p = true).
  { intros x Hx Hx1. rewrite <- Hp0, <- Less_total by lia. apply H4; lia. }
  assert (Hhigh : forall x, j1 < x -> x < b -> lt (l0 !!! x) p = false).
  { intros x Hx Hxb. rewrite <- Hp0, <- Less_total by lia. apply H5; lia. }
  destruct (Nat.ltb j1 i1) eqn:Hcmp.
  - apply Nat.ltb_lt in Hcmp. intros [= <- <- <-].
    split; [eapply perm_in_trans; [exact Hperm0|apply perm_in_Swap; lia]|].
    split; [lia|]. split; [lia|]. split; [swapped; exact Hp0|]. split.
    + intros x Hx Hxj. swapped; subst; apply Hlow; lia.
    + intros x Hx Hxb. swapped. apply Hhigh; lia.
  - apply Nat.ltb_ge in Hcmp. destruct (H6 Hcmp) as (Hfi & Hfj & Hlt).
    rewrite Less_total in Hfi, Hfj by lia. rewrite Hp0 in Hfi, Hfj.
    destruct (sort.partition_loop Less Swap (b - a) (Swap l0 i1 j1) a (i1 + 1) (j1 - 1))
      as [l2 j2] eqn:Hloop.
    intros [= <- <- <-].
    destruct (partition_loop_spec a b p (b - a) (Swap l0 i1 j1) (i1 + 1) (j1 - 1) l2 j2)
      as (Hperm & Hj1 & Hj2 & Hl & Hh); try rewrite length_Swap; try lia; try exact Hloop.
    + swapped. exact Hp0.
    + intros x Hx Hx1. swapped; subst; auto. apply Hlow; lia.
    + intros x Hx Hxb. swapped; subst; auto. apply Hhigh; lia.
    + assert (Hlen2 : length l2 = length l).
      { rewrite (perm_in_length _ _ _ _ Hperm), length_Swap. exact Hlen0. }
      assert (Hp2 : l2 !!! a = p).
      { rewrite (proj1 (proj2 Hperm) a) by lia. swapped. exact Hp0. }
      split.
      { apply (perm_in_trans a b l l0); [exact Hperm0|].
        apply (perm_in_trans a b l0 (Swap l0 i1 j1)); [apply perm_in_Swap; lia|].
        apply (perm_in_trans a b _ l2);
          [eapply perm_in_weaken; [| |exact Hperm]; lia|].
        apply perm_in_Swap; lia. }
      split; [lia|]. split; [lia|]. split; [swapped; exact Hp2|]. split.
      * intros x Hx Hxj. swapped; subst; apply Hl; lia.
      * intros x Hx Hxb. swapped. apply Hh; lia.
Qed.

Lemma partitionEqual_loop_spec (a b : nat) (p : K) (turns : nat) :
  forall l i j l' mid,
    a < i -> i <= j + 1 -> j < b -> b <= length l -> j + 1 - i <= turns ->
    l !!! a = p ->
    (forall x, a < x -> x < i -> lt p (l !!! x) = false) ->
    sort.partitionEqual_loop Less Swap turns l a i j = (l', mid) ->
    perm_in (S a) b l l' /\ a < mid /\ mid <= b /\
    (forall x, a < x -> x < mid -> lt p (l' !!! x) = false).
Proof.
  induction turns as [|turns IH]; intros l i j l' mid Hai Hij Hjb Hlen Hturns Hp Hlo;
    cbn [sort.partitionEqual_loop].
  - intros [= <- <-]. split; [apply perm_in_refl|]. split; [lia|]. split; [lia|exact Hlo].
  - rewrite (sort_related.retreat_ext (fun j => Less l a j)
                                      (fun j => negb (negb (Less l a j))))
      by (intros; now rewrite negb_involutive).
    destruct (scan_spec (fun i => negb (Less l a i)) i j) as (H1 & H2 & H3 & H4 & H5 & H6);
      [lia|lia|].
    cbv zeta in H1, H2, H3, H4, H5, H6.
    set (i1 := sort.advance (fun i => negb (Less l a i)) i (j + 1 - i)) in *.
    set (j1 := sort.retreat (fun j => negb (negb (Less l a j))) j (j + 1 - i1)) in *.
    assert (Hlow : forall x, a < x -> x < i1 -> lt p (l !!! x) = false).
    { intros x Hx Hx1. destruct (decide (x < i)); [now apply Hlo|].
      rewrite <- Hp, <- Less_total by lia. apply negb_true_iff. apply H4; lia. }
    destruct (Nat.ltb j1 i1) eqn:Hcmp.
    + apply Nat.ltb_lt in Hcmp. intros [= <- <-].
      split; [apply perm_in_refl|]. split; [lia|]. split; [lia|exact Hlow].
    + apply Nat.ltb_ge in Hcmp. destruct (H6 Hcmp) as (Hfi & Hfj & Hlt).
      apply negb_true_iff in Hfj. rewrite Less_total in Hfj by lia. rewrite Hp in Hfj.
      intros Hloop.
      destruct (IH (Swap l i1 j1) (i1 + 1) (j1 - 1) l' mid) as (Hperm & Hm1 & Hm2 & Hl);
        try rewrite length_Swap; try lia; try exact Hloop.
      * swapped. exact Hp.
      * intros x Hx Hx1. swapped; subst; auto. apply Hlow; lia.
      * split; [|auto]. eapply perm_in_trans; [|exact Hperm]. apply perm_in_Swap; lia.
Qed.

Lemma partitionEqual_spec (a b pivot : nat) l l' (mid : nat) :
  a <= pivot -> pivot < b -> b <= length l ->
  (forall x, a <= x -> x < b -> le (l !!! pivot) (l !!! x)) ->
  sort.partitionEqual Less Swap l a b pivot = (l', mid) ->
  perm_in a b l l' /\ a < mid /\ mid <= b /\
  (forall x, a <= x -> x < mid -> l' !!! x = l !!! pivot).
Proof.
  intros Hap Hpb Hlen Hmin. unfold sort.partitionEqual. intros Hloop.
  set (p := l !!! pivot) in *. set (l0 := Swap l a pivot) in *.
  assert (Hlen0 : length l0 = length l) by apply length_Swap.
  assert (Hp0 : l0 !!! a = p) by (subst l0 p; swapped; reflexivity).
  assert (Hperm0 : perm_in a b l l0) by (apply perm_in_Swap; lia).
  destruct (partitionEqual_loop_spec a b p (S (b - a)) l0 (a + 1) (b - 1) l' mid)
    as (Hperm & Hm1 & Hm2 & Hl); try lia; try assumption.
  assert (Hperm' : perm_in a b l l').
  { apply (perm_in_trans a b l l0); [exact Hperm0|].
    eapply perm_in_weaken; [| |exact Hperm]; lia. }
  split; [exact Hperm'|]. split; [lia|]. split; [lia|].
  intros x Hx Hxm. destruct (decide (x = a)) as [->|Hne].
  - rewrite (proj1 (proj2 Hperm) a) by lia. exact Hp0.
  - apply le_antisym.
    + apply nlt_le. apply Hl; lia.
    + apply (perm_in_range a b l l' (fun v => le p v) Hperm'); try lia. exact Hmin.
Qed.

(** *** [partialInsertionSort] *)

(** The loop to the left does nothing once it has come to an entry that no
    entry before it is above. *)
Lemma shift_left_stays (j : nat) :
  forall l,
    j < length l -> (forall x, x < j -> le (l !!! x) (l !!! j)) ->
    sort.shift_left Less Swap l j = l.
Proof.
  induction j as [|j IH]; intros l Hj Hmin; cbn [sort.shift_left]; [reflexivity|].
  rewrite Less_total by lia.
  destruct (lt (l !!! S j) (l !!! j)) eqn:Hlt; cbn [negb]; [|reflexivity].
  assert (Heq : l !!! S j = l !!! j).
  { apply le_antisym; [now apply lt_le|apply Hmin; lia]. }
  rewrite (Swap_same l (S j) j Heq). apply IH; [lia|].
  intros x Hx. rewrite <- Heq. apply Hmin. lia.
Qed.

(** Within a range that no entry before it is above, the loop to the left
    is the inner loop of the insertion sort. *)
Lemma shift_left_sift (a b : nat) (j : nat) :
  forall l,
    a <= j -> j < b -> b <= length l -> prefix_le a b l ->
    sort.shift_left Less Swap l j = sort.sift Less Swap l a j.
Proof.
  induction j as [|j IH]; intros l Haj Hjb Hlen Hpre; [reflexivity|].
  destruct (decide (a = S j)) as [->|Hne].
  - rewrite shift_left_stays; [|lia|intros x Hx; apply Hpre; lia].
    cbn [sort.sift]. now rewrite Nat.ltb_irrefl.
  - cbn [sort.shift_left sort.sift].
    replace (Nat.ltb a (S j)) with true by (symmetry; apply Nat.ltb_lt; lia).
    cbn [andb]. destruct (Less l (S j) j); cbn [negb]; [|reflexivity].
    apply IH; try rewrite length_Swap; try lia.
    apply (prefix_le_perm a b l); [apply perm_in_Swap; lia|lia|lia|exact Hpre].
Qed.

Lemma shift_right_spec (c b : nat) (n : nat) :
  forall l j,
    c < j -> j + n <= b -> b <= length l ->
    perm_in c b l (sort.shift_right Less Swap l j n).
Proof.
  induction n as [|n IH]; intros l j Hcj Hjb Hlen; cbn [sort.shift_right].
  - apply perm_in_refl.
  - destruct (negb _); [apply perm_in_refl|].
    apply (perm_in_trans c b l (Swap l j (j - 1))); [apply perm_in_Swap; lia|].
    apply IH; try rewrite length_Swap; lia.
Qed.

Lemma sorted_in_extend (a : nat) l (n : nat) :
  forall i,
    a < i -> sorted_in a i l ->
    (forall x, i <= x -> x < i + n -> le (l !!! (x - 1)) (l !!! x)) ->
    sorted_in a (i + n) l.
Proof.
  induction n as [|n IH]; intros i Hai Hs Hadj.
  - now rewrite Nat.add_0_r.
  - replace (i + S n) with (S i + n) by lia. apply IH; [lia| |intros x Hx Hx'; apply Hadj; lia].
    intros u v Hu Huv Hv. destruct (decide (v < i)) as [Hvi|Hvi]; [apply Hs; lia|].
    assert (v = i) by lia. subst v.
    destruct (decide (u = i)) as [->|Hne]; [apply le_refl|].
    apply le_trans with (l !!! (i - 1)); [apply Hs; lia|apply Hadj; lia].
Qed.

Lemma partialInsertionSort_loop_spec (a b : nat) (steps : nat) :
  forall l i l' (ok : bool),
    a < i -> i <= b -> b <= length l -> prefix_le a b l -> sorted_in a i l ->
    sort.partialInsertionSort_loop Less Swap steps l a b i = (l', ok) ->
    perm_in a b l l' /\ (ok = true -> sorted_in a b l').
Proof.
  induction steps as [|steps IH]; intros l i l' ok Hai Hib Hlen Hpre Hs;
    cbn [sort.partialInsertionSort_loop].
  - intros [= <- <-]. split; [apply perm_in_refl|discriminate].
  - destruct (advance_spec (fun i => negb (Less l i (i - 1))) (b - i) i)
      as (H1 & H2 & H3 & H4).
    set (i1 := sort.advance (fun i => negb (Less l i (i - 1))) i (b - i)) in *.
    assert (Hs1 : sorted_in a i1 l).
    { replace i1 with (i + (i1 - i)) by lia. apply sorted_in_extend; [lia|exact Hs|].
      intros x Hx Hx'. apply nlt_le. rewrite <- Less_total by lia.
      apply negb_true_iff. apply H3; lia. }
    destruct (Nat.eqb i1 b) eqn:Hend.
    { apply Nat.eqb_eq in Hend. intros [= <- <-]. split; [apply perm_in_refl|].
      intros _. now rewrite <- Hend. }
    apply Nat.eqb_neq in Hend.
    destruct (Nat.ltb (b - a) sort.shortestShifting).
    { intros [= <- <-]. split; [apply perm_in_refl|discriminate]. }
    set (l1 := Swap l i1 (i1 - 1)).
    assert (Hp1 : perm_in a b l l1) by (apply perm_in_Swap; lia).
    assert (Hlen1 : length l1 = length l) by apply length_Swap.
    assert (Hpre1 : prefix_le a b l1) by (apply (prefix_le_perm a b l); auto; lia).
    set (l2 := if Nat.leb 2 (i1 - a) then sort.shift_left Less Swap l1 (i1 - 1) else l1).
    assert (H2' : perm_in a i1 l1 l2 /\ sorted_in a i1 l2).
    { subst l2. destruct (Nat.leb 2 (i1 - a)) eqn:Hwide.
      - apply Nat.leb_le in Hwide.
        rewrite (shift_left_sift a b) by (auto; lia).
        replace i1 with (S (i1 - 1)) at 1 3 by lia.
        apply sift_spec; try lia.
        + intros u v Hu Huv Hv. subst l1. swapped. apply Hs1; lia.
        + intros u v Hu Huv Hv. replace v with u by lia. apply le_refl.
      - apply Nat.leb_gt in Hwide. split; [apply perm_in_refl|].
        intros u v Hu Huv Hv. replace v with u by lia. apply le_refl. }
    destruct H2' as [Hp2 Hs2].
    assert (Hlen2 : length l2 = length l) by (rewrite (perm_in_length _ _ _ _ Hp2); lia).
    set (l3 := if Nat.leb 2 (b - i1)
               then sort.shift_right Less Swap l2 (i1 + 1) (b - (i1 + 1)) else l2).
    assert (Hp3 : perm_in i1 b l2 l3).
    { subst l3. destruct (Nat.leb 2 (b - i1)); [|apply perm_in_refl].
      apply shift_right_spec; lia. }
    assert (Hp : perm_in a b l l3).
    { apply (perm_in_trans a b l l1); [exact Hp1|].
      apply (perm_in_trans a b l1 l2); [eapply perm_in_weaken; [| |exact Hp2]; lia|].
      eapply perm_in_weaken; [| |exact Hp3]; lia. }
    intros Hloop.
    destruct (IH l3 i1 l' ok) as [Hp4 Hs4]; try lia; try exact Hloop.
    + rewrite (perm_in_length _ _ _ _ Hp). lia.
    + apply (prefix_le_perm a b l); auto; lia.
    + intros u v Hu Huv Hv. rewrite !(proj1 (proj2 Hp3)) by lia. apply Hs2; lia.
    + split; [|exact Hs4]. eapply perm_in_trans; eassumption.
Qed.

Lemma partialInsertionSort_spec (a b : nat) l l' (ok : bool) :
  a < b -> b <= length l -> prefix_le a b l ->
  sort.partialInsertionSort Less Swap l a b = (l', ok) ->
  perm_in a b l l' /\ (ok = true -> sorted_in a b l').
Proof.
  intros Hab Hlen Hpre. unfold sort.partialInsertionSort.
  apply partialInsertionSort_loop_spec; try lia; try assumption.
  intros u v Hu Huv Hv. replace v with u by lia. apply le_refl.
Qed.

(** *** [breakPatterns], [reverseRange] and [choosePivot] *)

Lemma breakPatterns_other (length : nat) (random : Z) :
  0 < length ->
  Z.to_nat (Z.land random (sort.nextPowerOfTwo length - 1)) < 2 * length.
Proof.
  intros Hpos. unfold sort.nextPowerOfTwo, bits.Len.
  destruct length as [|m]; [lia|].
  pose proof (Nat.log2_spec (S m) ltac:(lia)) as [Hlow _].
  set (k := Nat.log2 (S m)) in *.
  replace (2 ^ Z.of_nat (S k) - 1)%Z with (Z.ones (Z.of_nat (S k)))
    by (rewrite Z.ones_equiv; lia).
  rewrite Z.land_ones by lia.
  pose proof (Z.mod_pos_bound random (2 ^ Z.of_nat (S k)) ltac:(lia)) as [H0 H1].
  assert (H2 : (2 ^ Z.of_nat (S k) = Z.of_nat (2 * 2 ^ k))%Z).
  { rewrite Nat2Z.inj_succ, Z.pow_succ_r by lia.
    rewrite Nat2Z.inj_mul, Nat2Z.inj_pow. reflexivity. }
  lia.
Qed.

Lemma breakPatterns_loop_spec (a b idx : nat) (n : nat) :
  forall l i random,
    a < b -> b <= length l ->
    (forall k, i <= k -> k < i + n -> a <= idx - 1 + k /\ idx - 1 + k < b) ->
    perm_in a b l (sort.breakPatterns_loop Swap Next n l a (b - a) idx i random).
Proof.
  induction n as [|n IH]; intros l i random Hab Hlen Hidx; cbn [sort.breakPatterns_loop].
  - apply perm_in_refl.
  - set (other := Z.to_nat (Z.land (Next random)
                                   (sort.nextPowerOfTwo (b - a) - 1))).
    pose proof (breakPatterns_other (b - a) (Next random) ltac:(lia)) as Ho.
    fold other in Ho.
    set (other' := if Nat.leb (b - a) other then other - (b - a) else other).
    assert (Ho' : other' < b - a).
    { subst other'. destruct (Nat.leb (b - a) other) eqn:E;
        [apply Nat.leb_le in E|apply Nat.leb_gt in E]; lia. }
    destruct (Hidx i) as [Hi1 Hi2]; [lia|lia|].
    eapply perm_in_trans; [apply (perm_in_Swap a b (idx - 1 + i) (a + other')); lia|].
    apply IH; try rewrite length_Swap; try lia.
    intros k Hk Hk'. apply Hidx; lia.
Qed.

Lemma breakPatterns_spec (a b : nat) l :
  a <= b -> b <= length l -> perm_in a b l (sort.breakPatterns Swap Next l a b).
Proof.
  intros Hab Hlen. unfold sort.breakPatterns.
  destruct (Nat.leb 8 (b - a)) eqn:Hbig; [|apply perm_in_refl].
  apply Nat.leb_le in Hbig. apply breakPatterns_loop_spec; try lia.
  intros k Hk Hk'.
  pose proof (Nat.div_mod_eq (b - a) 4). pose proof (Nat.mod_upper_bound (b - a) 4). lia.
Qed.

Lemma reverseRange_spec (a b : nat) l :
  a <= b -> b <= length l -> perm_in a b l (sort.reverseRange Swap l a b).
Proof.
  intros Hab Hlen. unfold sort.reverseRange.
  destruct (decide (a = b)) as [->|Hne].
  { rewrite Nat.sub_diag. apply perm_in_refl. }
  assert (Hloop : forall turns l i j,
             a <= i -> j < b -> b <= length l ->
             perm_in a b l (sort.reverseRange_loop Swap turns l i j)).
  { clear l Hlen. induction turns as [|turns IH]; intros l i j Hi Hj Hlen;
      cbn [sort.reverseRange_loop]; [apply perm_in_refl|].
    destruct (Nat.ltb i j) eqn:Hij; [|apply perm_in_refl].
    apply Nat.ltb_lt in Hij.
    apply (perm_in_trans a b l (Swap l i j)); [apply perm_in_Swap; lia|].
    apply IH; try rewrite length_Swap; lia. }
  apply Hloop; lia.
Qed.

Lemma median_in (l : list K) (x y z swaps : nat) :
  (sort.median Less l x y z swaps).1 = x \/
  (sort.median Less l x y z swaps).1 = y \/
  (sort.median Less l x y z swaps).1 = z.
Proof.
  unfold sort.median, sort.order2.
  destruct (Less l y x); cbn;
    repeat match goal with |- context [if ?c then _ else _] => destruct c; cbn end; auto.
Qed.

Lemma choosePivot_spec (a b : nat) l :
  8 <= b - a ->
  a <= (sort.choosePivot Less l a b).1 /\ (sort.choosePivot Less l a b).1 < b.
Proof.
  intros Hbig. unfold sort.choosePivot, sort.medianAdjacent.
  replace (Nat.leb 8 (b - a)) with true by (symmetry; apply Nat.leb_le; lia).
  pose proof (Nat.div_mod_eq (b - a) 4) as Hdiv.
  pose proof (Nat.mod_upper_bound (b - a) 4 ltac:(lia)) as Hmod.
  set (q := (b - a) / 4) in *.
  assert (Hend : forall (r : nat * nat),
             a <= r.1 /\ r.1 < b ->
             a <= (let '(j, swaps) := r in
                   if Nat.eqb swaps 0 then (j, sort.increasingHint)
                   else if Nat.eqb swaps sort.maxSwaps then (j, sort.decreasingHint)
                        else (j, sort.unknownHint)).1 /\
             (let '(j, swaps) := r in
              if Nat.eqb swaps 0 then (j, sort.increasingHint)
              else if Nat.eqb swaps sort.maxSwaps then (j, sort.decreasingHint)
                   else (j, sort.unknownHint)).1 < b).
  { intros [j swaps]. cbn [fst]. destruct (Nat.eqb swaps 0); [auto|].
    destruct (Nat.eqb swaps sort.maxSwaps); auto. }
  apply Hend.
  destruct (Nat.leb sort.shortestNinther (b - a)) eqn:Hnin.
  - apply Nat.leb_le in Hnin. unfold sort.shortestNinther in Hnin.
    pose proof (median_in l (a + q * 1 - 1) (a + q * 1) (a + q * 1 + 1) 0) as Hi.
    destruct (sort.median Less l (a + q * 1 - 1) (a + q * 1) (a + q * 1 + 1) 0)
      as [i s1]. cbn [fst] in Hi.
    pose proof (median_in l (a + q * 2 - 1) (a + q * 2) (a + q * 2 + 1) s1) as Hj.
    destruct (sort.median Less l (a + q * 2 - 1) (a + q * 2) (a + q * 2 + 1) s1)
      as [j s2]. cbn [fst] in Hj.
    pose proof (median_in l (a + q * 3 - 1) (a + q * 3) (a + q * 3 + 1) s2) as Hk.
    destruct (sort.median Less l (a + q * 3 - 1) (a + q * 3) (a + q * 3 + 1) s2)
      as [k s3]. cbn [fst] in Hk.
    pose proof (median_in l i j k s3) as Hm. lia.
  - pose proof (median_in l (a + q * 1) (a + q * 2) (a + q * 3) 0) as Hm. lia.
Qed.

(** *** [pdqsort] *)

Lemma sorted_in_join (a mid b : nat) l (p : K) :
  sorted_in a mid l -> sorted_in (mid + 1) b l -> l !!! mid = p ->
  (forall x, a <= x -> x < mid -> le (l !!! x) p) ->
  (forall y, mid < y -> y < b -> le p (l !!! y)) ->
  sorted_in a b l.
Proof.
  intros Hlo Hhi Hmid Hleft Hright u v Hu Huv Hv.
  destruct (decide (v < mid)); [apply Hlo; lia|].
  destruct (decide (mid < u)); [apply Hhi; lia|].
  destruct (decide (u = mid)) as [->|Hne].
  - rewrite Hmid. destruct (decide (v = mid)) as [->|]; [rewrite Hmid; apply le_refl|].
    apply Hright; lia.
  - apply le_trans with p; [apply Hleft; lia|].
    destruct (decide (v = mid)) as [->|]; [rewrite Hmid; apply le_refl|].
    apply Hright; lia.
Qed.

Lemma pdqsort_spec (steps : nat) :
  forall l a b limit wasBalanced wasPartitioned,
    b - a < steps -> a <= b -> b <= length l -> prefix_le a b l ->
    exists l',
      sort.pdqsort Less Swap Next steps l a b limit wasBalanced wasPartitioned = Some l' /\
      perm_in a b l l' /\ sorted_in a b l'.
Proof.
  induction steps as [|steps IH]; intros l a b limit wB wP Hsteps Hab Hlen Hpre; [lia|].
  cbn [sort.pdqsort].
  destruct (Nat.leb (b - a) sort.maxInsertion) eqn:Hsmall.
  { eexists. split; [reflexivity|]. now apply insertionSort_spec. }
  apply Nat.leb_gt in Hsmall. unfold sort.maxInsertion in Hsmall.
  destruct (Nat.eqb limit 0).
  { eexists. split; [reflexivity|]. now apply heapSort_spec. }
  set (l1 := if wB then l else sort.breakPatterns Swap Next l a b).
  assert (Hp1 : perm_in a b l l1).
  { subst l1. destruct wB; [apply perm_in_refl|now apply breakPatterns_spec]. }
  assert (Hlen1 : length l1 = length l) by apply (perm_in_length _ _ _ _ Hp1).
  generalize (if wB then limit else limit - 1). intros limit'.
  pose proof (choosePivot_spec a b l1 ltac:(lia)) as Hpivot.
  destruct (sort.choosePivot Less l1 a b) as [pivot hint]. cbn [fst] in Hpivot.
  set (l2 := match hint with sort.decreasingHint => sort.reverseRange Swap l1 a b | _ => l1 end).
  assert (Hp2 : perm_in a b l1 l2).
  { subst l2. destruct hint; try apply perm_in_refl. apply reverseRange_spec; lia. }
  assert (Hlen2 : length l2 = length l) by (rewrite (perm_in_length _ _ _ _ Hp2); lia).
  set (pivot' := match hint with sort.decreasingHint => b - 1 - (pivot - a) | _ => pivot end).
  assert (Hpivot' : a <= pivot' /\ pivot' < b) by (subst pivot'; destruct hint; lia).
  clearbody pivot'.
  generalize (match hint with sort.decreasingHint => sort.increasingHint | _ => hint end).
  intros hint'.
  assert (Hp12 : perm_in a b l l2) by (eapply perm_in_trans; eassumption).
  assert (Hpre2 : prefix_le a b l2) by (apply (prefix_le_perm a b l); auto).
  destruct (match hint' with
            | sort.increasingHint =>
                if wB && wP then sort.partialInsertionSort Less Swap l2 a b else (l2, false)
            | _ => (l2, false)
            end) as [l3 sorted] eqn:H3.
  assert (Hp3 : perm_in a b l2 l3 /\ (sorted = true -> sorted_in a b l3)).
  { destruct hint'; try (injection H3 as <- <-; split; [apply perm_in_refl|discriminate]).
    destruct (wB && wP); [|injection H3 as <- <-; split; [apply perm_in_refl|discriminate]].
    apply (partialInsertionSort_spec a b l2 l3 sorted); try lia; assumption. }
  destruct Hp3 as [Hp3 Hs3]. clear H3.
  assert (Hp13 : perm_in a b l l3) by (eapply perm_in_trans; eassumption).
  assert (Hlen3 : length l3 = length l) by apply (perm_in_length _ _ _ _ Hp13).
  assert (Hpre3 : prefix_le a b l3) by (apply (prefix_le_perm a b l); auto).
  destruct sorted.
  { exists l3. split; [reflexivity|]. split; [exact Hp13|now apply Hs3]. }
  clear Hs3. set (p := l3 !!! pivot').
  destruct (Nat.ltb 0 a && negb (Less l3 (a - 1) pivot')) eqn:Hequal.
  - apply andb_true_iff in Hequal as [Ha Hnl]. apply Nat.ltb_lt in Ha.
    apply negb_true_iff in Hnl. rewrite Less_total in Hnl by lia. apply nlt_le in Hnl.
    assert (Hmin : forall x, a <= x -> x < b -> le p (l3 !!! x)).
    { intros x Hx Hxb. apply le_trans with (l3 !!! (a - 1)); [exact Hnl|].
      apply Hpre3; lia. }
    destruct (sort.partitionEqual Less Swap l3 a b pivot') as [l4 mid] eqn:Hpe.
    destruct (partitionEqual_spec a b pivot' l3 l4 mid) as (Hp4 & Hm1 & Hm2 & Heq);
      try lia; try assumption.
    fold p in Heq.
    assert (Hlen4 : length l4 = length l) by (rewrite (perm_in_length _ _ _ _ Hp4); lia).
    assert (Hpre4 : prefix_le a b l4) by (apply (prefix_le_perm a b l3); auto; lia).
    assert (Hmin4 : forall x, a <= x -> x < b -> le p (l4 !!! x)).
    { apply (perm_in_range a b l3 l4 (fun v => le p v)); auto; lia. }
    destruct (IH l4 mid b limit' wB wP) as (l5 & Hrun & Hp5 & Hs5); try lia.
    { intros x y Hx Hy Hyb. destruct (decide (x < a)); [apply Hpre4; lia|].
      rewrite Heq by lia. apply Hmin4; lia. }
    exists l5. split; [exact Hrun|]. split.
    + apply (perm_in_trans a b l l3); [exact Hp13|].
      apply (perm_in_trans a b l3 l4); [exact Hp4|].
      eapply perm_in_weaken; [| |exact Hp5]; lia.
    + assert (Hleft : forall x, a <= x -> x < mid -> l5 !!! x = p).
      { intros x Hx Hxm. rewrite (proj1 (proj2 Hp5)) by lia. apply Heq; lia. }
      assert (Hright : forall y, mid <= y -> y < b -> le p (l5 !!! y)).
      { apply (perm_in_range mid b l4 l5 (fun v => le p v)); auto; try lia.
        intros y Hy Hyb. apply Hmin4; lia. }
      intros u v Hu Huv Hv.
      destruct (decide (mid <= u)); [apply Hs5; lia|].
      rewrite (Hleft u) by lia.
      destruct (decide (v < mid)); [rewrite Hleft by lia; apply le_refl|].
      apply Hright; lia.
  - clear Hequal.
    destruct (sort.partition Less Swap l3 a b pivot') as [[l4 mid] already] eqn:Hpart.
    destruct (partition_spec a b pivot' l3 l4 mid already)
      as (Hp4 & Hm1 & Hm2 & Hmid & Hlt & Hge); try lia; try assumption.
    fold p in Hmid, Hlt, Hge.
    assert (Hlen4 : length l4 = length l) by (rewrite (perm_in_length _ _ _ _ Hp4); lia).
    assert (Hpre4 : prefix_le a b l4) by (apply (prefix_le_perm a b l3); auto; lia).
    assert (Hleft4 : forall x, a <= x -> x < mid -> le (l4 !!! x) p)
      by (intros; apply lt_le; apply Hlt; lia).
    assert (Hright4 : forall y, mid < y -> y < b -> le p (l4 !!! y))
      by (intros; apply nlt_le; apply Hge; lia).
    assert (Hp14 : perm_in a b l l4) by (eapply perm_in_trans; eassumption).
    destruct (Nat.ltb (mid - a) (b - mid)).
    + destruct (IH l4 a mid limit' true true) as (l5 & Hrun5 & Hp5 & Hs5); try lia.
      { intros x y Hx Hy Hym. apply Hpre4; lia. }
      rewrite Hrun5.
      assert (Hlen5 : length l5 = length l) by (rewrite (perm_in_length _ _ _ _ Hp5); lia).
      assert (Hleft5 : forall x, a <= x -> x < mid -> le (l5 !!! x) p).
      { apply (perm_in_range a mid l4 l5 (fun v => le v p)); auto; lia. }
      assert (Hsame5 : forall y, mid <= y -> l5 !!! y = l4 !!! y).
      { intros y Hy. apply (proj1 (proj2 Hp5)). lia. }
      destruct (IH l5 (mid + 1) b limit' (Nat.leb ((b - a) / 8) (mid - a)) already)
        as (l6 & Hrun6 & Hp6 & Hs6); try lia.
      { intros x y Hx Hy Hyb. rewrite (Hsame5 y) by lia.
        destruct (decide (x < a)).
        - rewrite (proj1 (proj2 Hp5) x) by lia. apply Hpre4; lia.
        - apply le_trans with p; [|apply Hright4; lia].
          destruct (decide (x = mid)) as [->|];
            [rewrite Hsame5, Hmid by lia; apply le_refl|apply Hleft5; lia]. }
      exists l6. split; [exact Hrun6|]. split.
      * apply (perm_in_trans a b l l4); [exact Hp14|].
        apply (perm_in_trans a b l4 l5); [eapply perm_in_weaken; [| |exact Hp5]; lia|].
        eapply perm_in_weaken; [| |exact Hp6]; lia.
      * assert (Hsame6 : forall x, x <= mid -> l6 !!! x = l5 !!! x).
        { intros x Hx. apply (proj1 (proj2 Hp6)). lia. }
        apply (sorted_in_join a mid b l6 p).
        -- intros u v Hu Huv Hv. rewrite !Hsame6 by lia. apply Hs5; lia.
        -- exact Hs6.
        -- rewrite Hsame6, Hsame5 by lia. exact Hmid.
        -- intros x Hx Hxm. rewrite Hsame6 by lia. apply Hleft5; lia.
        -- intros y Hy Hyb.
           apply (perm_in_range (mid + 1) b l5 l6 (fun v => le p v)); auto; try lia.
           intros z Hz Hzb. rewrite Hsame5 by lia. apply Hright4; lia.
    + destruct (IH l4 (mid + 1) b limit' true true) as (l5 & Hrun5 & Hp5 & Hs5); try lia.
      { intros x y Hx Hy Hyb. destruct (decide (x < a)); [apply Hpre4; lia|].
        apply le_trans with p; [|apply Hright4; lia].
        destruct (decide (x = mid)) as [->|];
          [rewrite Hmid; apply le_refl|apply Hleft4; lia]. }
      rewrite Hrun5.
      assert (Hlen5 : length l5 = length l) by (rewrite (perm_in_length _ _ _ _ Hp5); lia).
      assert (Hright5 : forall y, mid < y -> y < b -> le p (l5 !!! y)).
      { intros y Hy Hyb.
        apply (perm_in_range (mid + 1) b l4 l5 (fun v => le p v)); auto; try lia.
        intros z Hz Hzb. apply Hright4; lia. }
      assert (Hsame5 : forall x, x <= mid -> l5 !!! x = l4 !!! x).
      { intros x Hx. apply (proj1 (proj2 Hp5)). lia. }
      destruct (IH l5 a mid limit' (Nat.leb ((b - a) / 8) (b - mid)) already)
        as (l6 & Hrun6 & Hp6 & Hs6); try lia.
      { intros x y Hx Hy Hym. rewrite !Hsame5 by lia. apply Hpre4; lia. }
      exists l6. split; [exact Hrun6|]. split.
      * apply (perm_in_trans a b l l4); [exact Hp14|].
        apply (perm_in_trans a b l4 l5); [eapply perm_in_weaken; [| |exact Hp5]; lia|].
        eapply perm_in_weaken; [| |exact Hp6]; lia.
      * assert (Hsame6 : forall y, mid <= y -> l6 !!! y = l5 !!! y).
        { intros y Hy. apply (proj1 (proj2 Hp6)). lia. }
        apply (sorted_in_join a mid b l6 p).
        -- exact Hs6.
        -- intros u v Hu Huv Hv. rewrite !Hsame6 by lia. apply Hs5; lia.
        -- rewrite Hsame6, Hsame5 by lia. exact Hmid.
        -- apply (perm_in_range a mid l5 l6 (fun v => le v p)); auto; try lia.
           intros z Hz Hzm. rewrite Hsame5 by lia. apply Hleft4; lia.
        -- intros y Hy Hyb. rewrite Hsame6 by lia. apply Hright5; lia.
Qed.

(** [sort.Sort] on a list of keys returns, and what it returns is the list
    rearranged in order. *)
Lemma Sort_sorts l :
  exists l', sort.Sort (@length K) Less Swap Next l = Some l' /\ l' ≡ₚ l /\ StronglySorted le l'.
Proof.
  unfold sort.Sort. destruct (Nat.leb (length l) 1) eqn:Hshort.
  - apply Nat.leb_le in Hshort. exists l. split; [reflexivity|]. split; [reflexivity|].
    destruct l as [|x [|y l]]; cbn in Hshort; try lia; repeat constructor.
  - destruct (pdqsort_spec (S (length l)) l 0 (length l) (bits.Len (length l)) true true)
      as (l' & Hrun & Hp & Hs); try lia.
    { intros x y Hx. lia. }
    exists l'. split; [exact Hrun|]. split; [apply Hp|].
    apply sorted_in_StronglySorted. now rewrite (perm_in_length _ _ _ _ Hp).
Qed.
End ListFacts.
End sort_list.

(** ** The collection of widgets as a [sort.Interface] *)

Local Abbreviation sift := (sort.sift Less Swap).
Local Abbreviation insertion_loop := (sort.insertion_loop Less Swap).
Local Abbreviation insertionSort := (sort.insertionSort Less Swap).

Section Adjacent.
Variables (l : ExploreResponse) (y x : ExploreWidget) (q : ExploreResponse).

Lemma lookup_adjacent_l : (l ++ y :: x :: q) !! length l = Some y.
Proof. induction l; simpl; auto. Qed.

Lemma lookup_adjacent_r : (l ++ y :: x :: q) !! S (length l) = Some x.
Proof. induction l; simpl; auto. Qed.

Lemma Swap_adjacent :
  Swap (l ++ y :: x :: q) (S (length l)) (length l) = l ++ x :: y :: q.
Proof.
  unfold Swap. rewrite lookup_adjacent_l, lookup_adjacent_r.
  induction l as [|a l' IH]; simpl; [reflexivity|].
  f_equal. exact IH.
Qed.

Lemma Less_adjacent :
  Less (l ++ y :: x :: q) (S (length l)) (length l) = Less_ID (ID x) (ID y).
Proof. unfold Less. now rewrite lookup_adjacent_l, lookup_adjacent_r. Qed.
End Adjacent.

(** The inner loop of the insertion sort inserts the entry at [j] into the
    run to its left. *)
Lemma sift_insert_right (rp : ExploreResponse) :
  forall (x : ExploreWidget) (q : ExploreResponse),
    sift (rev rp ++ x :: q) 0 (length rp) = rev (insert_right x rp) ++ q.
Proof.
  induction rp as [|y rp IH]; intros x q; [reflexivity|].
  cbn [length sort.sift insert_right rev].
  rewrite <- app_assoc. cbn [app].
  replace (length rp) with (length (rev rp)) by apply length_rev.
  rewrite Less_adjacent, Swap_adjacent.
  rewrite length_rev.
  destruct (Less_ID (ID x) (ID y)); cbn [andb Nat.ltb Nat.leb].
  - rewrite IH. cbn [rev]. now rewrite <- app_assoc.
  - cbn [rev]. now rewrite <- !app_assoc.
Qed.

Lemma length_insert_right (x : ExploreWidget) (rp : ExploreResponse) :
  length (insert_right x rp) = S (length rp).
Proof.
  induction rp as [|y rp IH]; simpl; [reflexivity|].
  destruct (Less_ID (ID x) (ID y)); simpl; congruence.
Qed.

Lemma insertion_loop_fold (q : ExploreResponse) :
  forall rp : ExploreResponse,
    insertion_loop (rev rp ++ q) 0 (length rp) (length q)
    = rev (fold_left (fun rp x => insert_right x rp) q rp).
Proof.
  induction q as [|x q IH]; intros rp; cbn [length sort.insertion_loop fold_left].
  - now rewrite app_nil_r.
  - rewrite sift_insert_right, <- length_insert_right with (x := x). apply IH.
Qed.

(** The index-based insertion sort is the functional one. *)
Lemma insertionSort_fold (e : ExploreResponse) :
  insertionSort e 0 (Len e) = rev (fold_left (fun rp x => insert_right x rp) e []).
Proof.
  unfold sort.insertionSort, Len. destruct e as [|x q]; [reflexivity|].
  cbn [length Nat.add Nat.sub fold_left insert_right].
  rewrite Nat.sub_0_r. exact (insertion_loop_fold q [x]).
Qed.

Lemma suffix_leb_trans (s t u : suffix) :
  suffix_leb s t = true -> suffix_leb t u = true -> suffix_leb s u = true.
Proof.
  destruct s, t, u; simpl; intros H1 H2; try reflexivity; try discriminate.
  apply Z.leb_le. apply Z.leb_le in H1, H2. lia.
Qed.

(** An entry passes the entries it may stand before, and stops behind an
    entry it may stand after. *)
Lemma Less_ID_le (x y : ExploreWidget) :
  Less_ID (ID x) (ID y) = true -> widget_le x y.
Proof.
  unfold widget_le. rewrite Less_ID_suffix.
  destruct (suffix_of (ID x)), (suffix_of (ID y)); simpl; intros H;
    try reflexivity; try discriminate.
  apply Z.leb_le. apply Z.ltb_lt in H. lia.
Qed.

Lemma not_Less_ID_le (x y : ExploreWidget) :
  Less_ID (ID x) (ID y) = false -> widget_le y x.
Proof.
  unfold widget_le. rewrite Less_ID_suffix.
  destruct (suffix_of (ID x)), (suffix_of (ID y)); simpl; intros H;
    try reflexivity; try discriminate.
  apply Z.leb_le. apply Z.ltb_ge in H. lia.
Qed.

(** Entries with the same order number never pass each other. *)
Lemma Less_ID_numbered (k : Z) (x y : ExploreWidget) :
  Less_ID (ID x) (ID y) = true -> numbered k x = true -> numbered k y = false.
Proof.
  unfold numbered. rewrite Less_ID_suffix.
  destruct (suffix_of (ID x)) as [| |a], (suffix_of (ID y)) as [| |b];
    try reflexivity; try discriminate.
  intros Hlt Ha. apply Z.ltb_lt in Hlt. apply Z.eqb_eq in Ha. apply Z.eqb_neq. lia.
Qed.

Section InsertRight.
Variable x : ExploreWidget.

Lemma insert_right_perm (rp : ExploreResponse) : insert_right x rp ≡ₚ x :: rp.
Proof.
  induction rp as [|y rp IH]; simpl; [reflexivity|].
  destruct (Less_ID (ID x) (ID y)); [|reflexivity].
  rewrite IH. apply Permutation_swap.
Qed.

(** The run, read right to left, is descending. *)
Lemma insert_right_sorted (rp : ExploreResponse) :
  StronglySorted (flip widget_le) rp ->
  StronglySorted (flip widget_le) (insert_right x rp).
Proof.
  induction 1 as [|y rp Hrp IH Hy]; simpl.
  - repeat constructor.
  - destruct (Less_ID (ID x) (ID y)) eqn:Hless.
    + constructor; [exact IH|].
      eapply Permutation_Forall; [symmetry; apply insert_right_perm|].
      constructor; [|exact Hy].
      now apply Less_ID_le.
    + apply not_Less_ID_le in Hless.
      constructor; [now constructor|].
      constructor; [exact Hless|].
      eapply Forall_impl; [exact Hy|].
      unfold flip, widget_le. intros z Hz. eapply suffix_leb_trans; eassumption.
Qed.

(** Inserting puts [x] after the entries with its own number. *)
Lemma insert_right_stable (k : Z) (rp : ExploreResponse) :
  List.filter (numbered k) (rev (insert_right x rp))
  = List.filter (numbered k) (rev rp ++ [x]).
Proof.
  induction rp as [|y rp IH]; [reflexivity|].
  cbn [insert_right]. destruct (Less_ID (ID x) (ID y)) eqn:Hless; [|reflexivity].
  cbn [rev]. rewrite !List.filter_app, IH, List.filter_app, <- !app_assoc.
  f_equal. cbn [List.filter].
  destruct (numbered k x) eqn:Hx; [|now rewrite app_nil_r].
  now rewrite (Less_ID_numbered k x y Hless Hx).
Qed.
End InsertRight.

Lemma StronglySorted_rev (rp : ExploreResponse) :
  StronglySorted (flip widget_le) rp -> StronglySorted widget_le (rev rp).
Proof.
  induction 1 as [|y rp Hrp IH Hy]; cbn [rev]; [constructor|].
  apply StronglySorted_app; split; [|split]; [|exact IH|repeat constructor].
  intros x1 x2 H1 H2. apply list_elem_of_singleton in H2. subst x2.
  rewrite Forall_forall in Hy. apply Hy.
  apply list_elem_of_In, in_rev. now apply list_elem_of_In.
Qed.

Section FoldInsert.
Let isort (e rp : ExploreResponse) : ExploreResponse :=
  fold_left (fun rp x => insert_right x rp) e rp.

Lemma isort_perm (e : ExploreResponse) :
  forall rp, rev (isort e rp) ≡ₚ rev rp ++ e.
Proof.
  induction e as [|x e IH]; intros rp; cbn.
  - now rewrite app_nil_r.
  - unfold isort in IH. rewrite IH, <- !Permutation_rev, insert_right_perm.
    apply Permutation_middle.
Qed.

Lemma isort_sorted (e : ExploreResponse) :
  forall rp, StronglySorted (flip widget_le) rp ->
             StronglySorted (flip widget_le) (isort e rp).
Proof.
  induction e as [|x e IH]; intros rp Hrp; cbn; [exact Hrp|].
  apply IH. now apply insert_right_sorted.
Qed.

Lemma isort_stable (k : Z) (e : ExploreResponse) :
  forall rp, List.filter (numbered k) (rev (isort e rp))
             = List.filter (numbered k) (rev rp ++ e).
Proof.
  induction e as [|x e IH]; intros rp; cbn.
  - now rewrite app_nil_r.
  - unfold isort in IH. rewrite IH, !List.filter_app, insert_right_stable.
    rewrite List.filter_app, <- app_assoc. cbn [List.filter].
    now destruct (numbered k x).
Qed.
End FoldInsert.

(** In a sorted collection the entries without order number come first. *)
Lemma sorted_unnumbered_first (l : ExploreResponse) :
  StronglySorted widget_le l ->
  l = List.filter unnumbered l ++ List.filter (fun w => negb (unnumbered w)) l.
Proof.
  induction 1 as [|y l Hl IH Hy]; [reflexivity|].
  cbn [List.filter]. destruct (unnumbered y) eqn:Hu; cbn [negb app].
  - now rewrite <- IH.
  - assert (Hall : Forall (fun w => unnumbered w = false) l).
    { eapply Forall_impl; [exact Hy|]. intros z. unfold widget_le, unnumbered in *.
      destruct (suffix_of (ID y)); try discriminate.
      now destruct (suffix_of (ID z)). }
    assert (H1 : List.filter unnumbered l = []).
    { clear -Hall. induction Hall as [|z l Hz _ IH']; [reflexivity|].
      cbn [List.filter]. now rewrite Hz. }
    assert (H2 : List.filter (fun w => negb (unnumbered w)) l = l).
    { clear -Hall. induction Hall as [|z l Hz _ IH']; [reflexivity|].
      cbn [List.filter]. rewrite Hz. cbn [negb]. now rewrite IH'. }
    now rewrite H1, H2.
Qed.

(** ** [Sort] on every collection *)

Lemma suffix_leb_refl (s : suffix) : suffix_leb s s = true.
Proof. destruct s; cbn; try reflexivity. apply Z.leb_refl. Qed.

Lemma suffix_leb_antisym (s t : suffix) :
  suffix_leb s t = true -> suffix_leb t s = true -> s = t.
Proof.
  destruct s, t; cbn; try discriminate; try reflexivity.
  intros H1 H2. f_equal. lia.
Qed.

Lemma suffix_ltb_leb (s t : suffix) : suffix_ltb s t = true -> suffix_leb s t = true.
Proof. destruct s, t; cbn; try discriminate; try reflexivity. lia. Qed.

Lemma suffix_nltb_leb (s t : suffix) : suffix_ltb s t = false -> suffix_leb t s = true.
Proof. destruct s, t; cbn; try discriminate; try reflexivity. lia. Qed.

(** The methods of the collection are those of the list of what [Less]
    sees of the identifiers. *)
Lemma Less_suffixes (e : ExploreResponse) (i j : nat) :
  Less e i j = less_at suffix_ltb (suffixes e) i j.
Proof.
  unfold Less, less_at, suffixes. rewrite !list_lookup_fmap.
  destruct (e !! i) as [wi|], (e !! j) as [wj|]; cbn; try reflexivity.
  apply Less_ID_suffix.
Qed.

Lemma Swap_suffixes (e : ExploreResponse) (i j : nat) :
  suffixes (Swap e i j) = swap_at (suffixes e) i j.
Proof.
  unfold Swap, swap_at, suffixes. rewrite !list_lookup_fmap.
  destruct (e !! i) as [wi|], (e !! j) as [wj|]; cbn; try reflexivity.
  now rewrite !list_fmap_insert.
Qed.

Lemma sorted_by_suffix (e : ExploreResponse) :
  StronglySorted (fun s t => suffix_leb s t = true) (suffixes e) ->
  StronglySorted widget_le e.
Proof.
  unfold suffixes. induction e as [|w e IH]; cbn; intros H; [constructor|].
  apply StronglySorted_inv in H as [Hs Hall]. constructor; [now apply IH|].
  clear -Hall. induction e as [|v e IH]; [constructor|].
  cbn in Hall. apply Forall_cons in Hall as [Hv Hall]. constructor; [exact Hv|now apply IH].
Qed.

(** [Sort] returns for every collection, and what it returns is the
    collection rearranged in the order of [Less]. *)
Lemma Sort_sorted (Next : Z -> Z) (e : ExploreResponse) :
  exists e', Sort Next e = Some e' /\ e' ≡ₚ e /\ StronglySorted widget_le e'.
Proof.
  pose proof (sort_related.Sort_related
                Len Less Swap length (less_at suffix_ltb) swap_at Next
                (fun e k => k = suffixes e)) as Hkeys.
  specialize (Hkeys ltac:(intros d1 d2 ->; unfold Len, suffixes; now rewrite length_fmap)
                    ltac:(intros d1 d2 i j ->; apply Less_suffixes)
                    ltac:(intros d1 d2 i j ->; symmetry; apply Swap_suffixes)
                    e (suffixes e) eq_refl).
  pose proof (sort_related.Sort_related
                Len Less Swap Len Less Swap Next
                (fun e1 e2 => e1 = e2 /\ e1 ≡ₚ e)) as Hperm.
  specialize (Hperm ltac:(now intros d1 d2 [-> _])
                    ltac:(now intros d1 d2 i j [-> _])
                    ltac:(intros d1 d2 i j [-> H]; split;
                          [reflexivity|now rewrite (sort_list.Swap_perm d2 i j)])
                    e e (conj eq_refl (reflexivity e))).
  destruct (sort_list.Sort_sorts suffix_ltb (fun s t => suffix_leb s t = true)
              suffix_leb_refl suffix_leb_trans suffix_leb_antisym
              suffix_ltb_leb suffix_nltb_leb Next (suffixes e)) as (k' & Hk & _ & Hsorted).
  fold (Sort Next e) in Hkeys, Hperm. rewrite Hk in Hkeys.
  destruct (Sort Next e) as [e'|]; [|contradiction].
  cbn in Hkeys, Hperm. subst k'. exists e'.
  split; [reflexivity|]. split; [apply Hperm|]. now apply sorted_by_suffix.
Qed.

(** Up to twelve entries [Sort] is the insertion sort. *)
Lemma Sort_small (Next : Z -> Z) (e : ExploreResponse) :
  Len e <= 12 -> Sort Next e = Some (insertionSort e 0 (Len e)).
Proof.
  intros Hlen. unfold Sort, sort.Sort. destruct (Nat.leb (Len e) 1) eqn:Hshort.
  - apply Nat.leb_le in Hshort. unfold sort.insertionSort.
    now replace (Len e - (0 + 1)) with 0 by lia.
  - cbn [sort.pdqsort]. rewrite Nat.sub_0_r.
    now replace (Nat.leb (Len e) sort.maxInsertion) with true
      by (symmetry; apply Nat.leb_le; exact Hlen).
Qed.

(** Two entries without order number can change places: ["TIMESERIES"],
    which has no underscore, is moved in front of ["GEO_MAP"].  In a
    collection of thirteen widgets, which [sort.Sort] partitions around
    the seventh ([G_1]) before it sorts the parts by insertion, widgets
    with the same order number change places too.  Neither run draws a
    number from the generator. *)
Lemma Sort_reorders_unsuffixed :
  (forall Next, Sort Next (List.map widget ["GEO_MAP"; "TIMESERIES"])
                = Some (List.map widget ["TIMESERIES"; "GEO_MAP"])) /\
  List.filter unnumbered (List.map widget ["TIMESERIES"; "GEO_MAP"])
  <> List.filter unnumbered (List.map widget ["GEO_MAP"; "TIMESERIES"]) /\
  (forall Next, Sort Next thirteen_widgets = Some thirteen_sorted) /\
  List.filter (numbered 1) thirteen_sorted <> List.filter (numbered 1) thirteen_widgets.
Proof.
  split; [intros Next; vm_compute; reflexivity|]. split; [vm_compute; discriminate|].
  split; [intros Next; vm_compute; reflexivity|vm_compute; discriminate].
Qed.

(** C8 (amended).  Sorting [RELATED_QUERIES_2, RELATED_TOPICS_0,
    RELATED_QUERIES_1, TIMESERIES, GEO_MAP] yields [TIMESERIES, GEO_MAP,
    RELATED_TOPICS_0, RELATED_QUERIES_1, RELATED_QUERIES_2].  For every
    collection, of any length and whatever the generator of the library
    draws, [Sort] returns a rearrangement of the collection in which the
    identifiers without an order number come first and the numbered ones
    follow by ascending number; in a collection of at most 12 widgets the
    widgets with the same order number keep their relative order. *)
Theorem Sort_spec (Next : Z -> Z) :
  Sort Next sort_test_input = Some sort_test_output /\
  forall e : ExploreResponse,
    exists e',
      Sort Next e = Some e' /\
      e' ≡ₚ e /\
      StronglySorted widget_le e' /\
      e' = List.filter unnumbered e' ++ List.filter (fun w => negb (unnumbered w)) e' /\
      (Len e <= 12 ->
       forall k : Z, List.filter (numbered k) e' = List.filter (numbered k) e).
Proof.
  split; [vm_compute; reflexivity|].
  intros e. destruct (Sort_sorted Next e) as (e' & Hrun & Hperm & Hsorted).
  exists e'. split; [exact Hrun|]. split; [exact Hperm|]. split; [exact Hsorted|].
  split; [now apply sorted_unnumbered_first|].
  intros Hlen k. rewrite (Sort_small Next e Hlen) in Hrun. injection Hrun as <-.
  rewrite insertionSort_fold. apply (isort_stable k e []).
Qed.

Lemma Sort_spec_witness :
  sort_test_output ≡ₚ sort_test_input /\
  StronglySorted widget_le sort_test_output /\
  sort_test_output
  = List.filter unnumbered sort_test_output
    ++ List.filter (fun w => negb (unnumbered w)) sort_test_output /\
  forall k : Z,
    List.filter (numbered k) sort_test_output = List.filter (numbered k) sort_test_input.
Proof.
  destruct (proj2 (Sort_spec (fun random => random)) sort_test_input)
    as (e' & Hrun & Hperm & Hsorted & Hfirst & Hstable).
  assert (He : e' = sort_test_output).
  { vm_compute in Hrun. injection Hrun as <-. reflexivity. }
  subst e'. split; [exact Hperm|]. split; [exact Hsorted|]. split; [exact Hfirst|].
  apply Hstable. vm_compute. lia.
Defined.

(** ** Transport *)

Lemma Split_aux_cons (sep : string) (s : string) :
  forall (skip : nat) (cur : list ascii),
    strings.Split_aux sep skip cur s
    = hd "" (strings.Split_aux sep skip cur s) :: tl (strings.Split_aux sep skip cur s).
Proof.
  induction s as [|a s IH]; intros skip cur; cbn [strings.Split_aux]; [reflexivity|].
  destruct skip as [|k]; [|apply IH].
  destruct (String.prefix sep (String a s)); [reflexivity|apply IH].
Qed.

(** [strings.Split] with a separator never returns an empty slice: the
    guard [len(cookie) > 0] of the retry always holds. *)
Lemma Split_cons (s sep : string) :
  strings.Split s sep = hd "" (strings.Split s sep) :: tl (strings.Split s sep).
Proof. apply Split_aux_cons. Qed.

Section TransportFacts.
Context {Ctx Sender : Type}.
Variable Do : Sender -> HTTPRequest Ctx -> Sender * (error + HTTPResponse).
Variable url_check : URL -> option error.

Lemma finish_not_OK (resp : HTTPResponse) :
  resp_StatusCode resp <> StatusOK ->
  finish resp
  = inl (Errorf_w_reqData ErrRequestFailed (resp_StatusCode resp) (resp_Status resp)).
Proof.
  intros H. unfold finish.
  destruct (Z.eqb_spec (resp_StatusCode resp) StatusOK); [contradiction|reflexivity].
Qed.

(** A first answer other than 429 ends the operation. *)
Lemma send_other (c : gClient) (s s1 : Sender) (r : HTTPRequest Ctx) (resp : HTTPResponse) :
  Do s r = (s1, inr resp) ->
  resp_StatusCode resp <> StatusTooManyRequests ->
  send Do c s r
  = {| out_client := c; out_sender := s1; out_sent := [r]; out_result := finish resp |}.
Proof.
  intros HDo Hcode. unfold send. rewrite HDo.
  destruct (Z.eqb_spec (resp_StatusCode resp) StatusTooManyRequests);
    [contradiction|reflexivity].
Qed.

(** A failing first send ends the operation with the wrapped error. *)
Lemma send_error (c : gClient) (s s1 : Sender) (r : HTTPRequest Ctx) (err : error) :
  Do s r = (s1, inl err) ->
  send Do c s r
  = {| out_client := c; out_sender := s1; out_sent := [r];
       out_result := inl (Errorf_s_w errDoRequest err) |}.
Proof. intros HDo. unfold send. now rewrite HDo. Qed.

Lemma send_429 (c : gClient) (s s1 : Sender) (r : HTTPRequest Ctx) (resp : HTTPResponse) :
  Do s r = (s1, inr resp) ->
  resp_StatusCode resp = StatusTooManyRequests ->
  send Do c s r
  = {| out_client := set_cookie c (retry_cookie resp);
       out_sender := (Do s1 (retry_request r resp)).1;
       out_sent := [r; retry_request r resp];
       out_result := match (Do s1 (retry_request r resp)).2 with
                     | inl err => inl err
                     | inr resp' => finish resp'
                     end |}.
Proof.
  intros HDo Hcode. unfold send. rewrite HDo, Hcode. cbn [Z.eqb StatusTooManyRequests].
  rewrite Pos.eqb_refl.
  unfold retry_request, retry_cookie.
  rewrite (Split_cons (Header.Get (resp_Header resp) headerKeySetCookie) ";").
  cbn [hd].
  destruct (Do s1 _) as [s2 [err|resp']]; reflexivity.
Qed.

(** The request that [do] and [doPost] hand to the sender first. *)
Lemma first_request (c : gClient) (s : Sender) (ctx : option Ctx) (u : URL)
      (payload : string) (o : outcome Ctx Sender) (r : HTTPRequest Ctx)
      (rest : list (HTTPRequest Ctx)) :
  o = do Do url_check c s ctx u \/ o = doPost Do url_check c s ctx u payload ->
  out_sent o = r :: rest ->
  o = send Do c s r.
Proof.
  unfold do, doPost.
  intros [-> | ->]; destruct (NewRequestWithContext _ _ _ _ _) as [err|r0];
    cbn [out_sent]; try discriminate;
    set (r1 := with_cookie c _); intros Hsent;
    assert (Hr : out_sent (send Do c s r1) = r1 :: tl (out_sent (send Do c s r1)))
      by (unfold send; destruct (Do s r1) as [s1 [e|resp]];
          [reflexivity|];
          destruct (resp_StatusCode resp =? StatusTooManyRequests)%Z; [|reflexivity];
          destruct (strings.Split _ _); [reflexivity|];
          destruct (Do s1 _) as [s2 [e|resp']]; reflexivity);
    rewrite Hr in Hsent; injection Hsent as -> _; reflexivity.
Qed.
End TransportFacts.

Section TransportClaims.
Context {Ctx Sender : Type}.
Variable Do : Sender -> HTTPRequest Ctx -> Sender * (error + HTTPResponse).
Variable url_check : URL -> option error.

(** The retry: when the first response of a GET or POST operation has
    status 429, the first [;]-separated piece of the [Set-Cookie] value
    becomes the session cookie of the client and the [Cookie] header of the
    current request, which is sent exactly once more; the result is decided
    by the second answer alone, whatever its status. *)
Lemma retry_on_429 (c : gClient) (s s1 : Sender) (ctx : option Ctx) (u : URL)
        (payload : string) (o : outcome Ctx Sender) (r : HTTPRequest Ctx)
        (rest : list (HTTPRequest Ctx)) (resp : HTTPResponse) :
  o = do Do url_check c s ctx u \/ o = doPost Do url_check c s ctx u payload ->
  out_sent o = r :: rest ->
  Do s r = (s1, inr resp) ->
  resp_StatusCode resp = StatusTooManyRequests ->
  let r' := retry_request r resp in
  out_sent o = [r; r'] /\
  cookie (out_client o) = retry_cookie resp /\
  req_Header r' !! headerKeyCookie = Some [retry_cookie resp] /\
  out_sender o = (Do s1 r').1 /\
  out_result o = match (Do s1 r').2 with
                 | inl err => inl err
                 | inr resp' => finish resp'
                 end /\
  forall resp', (Do s1 r').2 = inr resp' ->
                resp_StatusCode resp' <> StatusOK ->
                out_result o
                = inl (Errorf_w_reqData ErrRequestFailed (resp_StatusCode resp')
                                        (resp_Status resp')).
Proof.
  intros Ho Hsent HDo Hcode r'.
  rewrite (first_request Do url_check c s ctx u payload o r rest Ho Hsent).
  rewrite (send_429 Do c s s1 r resp HDo Hcode). cbn.
  repeat split.
  - unfold Header.Set_. apply lookup_insert_eq.
  - intros resp' Hresp' Hstatus. fold r'. rewrite Hresp'. now apply finish_not_OK.
Qed.

(** C4.  When the sender always answers with a status that is neither 429
    nor 200, a GET or POST operation calls it exactly once and fails with
    an error that is [ErrRequestFailed] and whose text carries the status
    code and the status text. *)
Theorem fail_on_other_status (c : gClient) (s : Sender) (ctx : Ctx) (u : URL)
        (payload : string) (o : outcome Ctx Sender) :
  (forall s0 r0, exists s1 resp,
      Do s0 r0 = (s1, inr resp) /\
      resp_StatusCode resp <> StatusTooManyRequests /\
      resp_StatusCode resp <> StatusOK) ->
  url_check u = None ->
  o = do Do url_check c s (Some ctx) u \/ o = doPost Do url_check c s (Some ctx) u payload ->
  exists r s1 resp err,
    Do s r = (s1, inr resp) /\
    out_sent o = [r] /\
    out_sender o = s1 /\
    out_result o = inl err /\
    err = Errorf_w_reqData ErrRequestFailed (resp_StatusCode resp) (resp_Status resp) /\
    errors_Is_ErrRequestFailed err = true /\
    Error err = ("failed to perform http request: request data: code = "
                   ++ itoa (resp_StatusCode resp) ++ ", status = " ++ resp_Status resp)%string.
Proof.
  intros Hall Hurl Ho.
  assert (Hsend : exists r, o = send Do c s r).
  { unfold do, doPost, NewRequestWithContext in Ho. rewrite Hurl in Ho.
    destruct Ho as [-> | ->]; eexists; reflexivity. }
  destruct Hsend as [r ->].
  destruct (Hall s r) as (s1 & resp & HDo & H429 & H200).
  exists r, s1, resp. eexists.
  rewrite (send_other Do c s s1 r resp HDo H429). cbn.
  rewrite (finish_not_OK resp H200).
  split; [exact HDo|]. repeat split; reflexivity.
Qed.

(** The part of C5 that holds: an error of the first send is returned
    at once, wrapped in the "failed to perform request" message. *)
Lemma first_send_error_wrapped (c : gClient) (s s1 : Sender) (ctx : option Ctx) (u : URL)
      (payload : string) (o : outcome Ctx Sender) (r : HTTPRequest Ctx)
      (rest : list (HTTPRequest Ctx)) (err : error) :
  o = do Do url_check c s ctx u \/ o = doPost Do url_check c s ctx u payload ->
  out_sent o = r :: rest ->
  Do s r = (s1, inl err) ->
  out_sent o = [r] /\ out_sender o = s1 /\
  out_result o = inl (Errorf_s_w errDoRequest err).
Proof.
  intros Ho Hsent HDo.
  rewrite (first_request Do url_check c s ctx u payload o r rest Ho Hsent).
  rewrite (send_error Do c s s1 r err HDo). cbn. auto.
Qed.
End TransportClaims.

(** The rate-limit test of the repository: 429 with a cookie, then 200. *)
Example TooManyRequests_test :
  let o := do scripted no_url_error newGClient tooManyRequests_script (Some tt) test_URL in
  out_result o = inr "{'status': 'ok'}" /\
  length (out_sent o) = 2 /\
  cookie (out_client o) = "test_cookie=value".
Proof. vm_compute. auto. Qed.

(** C3, at the failing input: a client that holds the session cookie
    [abc=1] and a first answer with status 429 and no [Set-Cookie] header.
    The retry is guarded by [len(cookie) > 0] on the slice that
    [strings.Split] returns, which holds one empty string here and is never
    empty: the request is sent a second time all the same, with an empty
    [Cookie] header, and the session cookie of the client is lost.  The
    specification retries only when the header is there and not empty. *)
Theorem retry_without_Set_Cookie :
  let first := newMockResponse StatusTooManyRequests "" in
  let o := do scripted no_url_error client_with_cookie throttled_without_cookie
              (Some tt) test_URL in
  let o' := doPost scripted no_url_error client_with_cookie throttled_without_cookie
                   (Some tt) test_URL "f.req=x" in
  resp_Header first !! headerKeySetCookie = None /\
  strings.Split (Header.Get (resp_Header first) headerKeySetCookie) ";" = [""] /\
  (List.map (fun q => req_Header q !! headerKeyCookie) (out_sent o)
   = [Some ["abc=1"]; Some [""]] /\
   out_sender o = [] /\
   cookie (out_client o) = "" /\
   out_result o = inr "ok") /\
  (List.map (fun q => req_Header q !! headerKeyCookie) (out_sent o')
   = [Some ["abc=1"]; Some [""]] /\
   out_sender o' = [] /\
   cookie (out_client o') = "" /\
   out_result o' = inr "ok").
Proof. vm_compute. repeat split; reflexivity. Qed.

(** The rate-limit test again, through the lemma of the retry. *)
Lemma retry_on_429_witness :
  out_sent (do scripted no_url_error newGClient tooManyRequests_script (Some tt) test_URL)
  = [test_request; retry_request test_request tooManyRequests_answer] /\
  cookie (out_client (do scripted no_url_error newGClient tooManyRequests_script
                         (Some tt) test_URL))
  = "test_cookie=value".
Proof.
  destruct (retry_on_429 scripted no_url_error newGClient tooManyRequests_script
              [inr (newMockResponse StatusOK "{'status': 'ok'}")] (Some tt) test_URL ""
              (do scripted no_url_error newGClient tooManyRequests_script (Some tt) test_URL)
              test_request [retry_request test_request tooManyRequests_answer]
              tooManyRequests_answer)
    as (Hsent & Hcookie & _).
  - left. reflexivity.
  - vm_compute. reflexivity.
  - reflexivity.
  - reflexivity.
  - split; [exact Hsent|]. rewrite Hcookie. vm_compute. reflexivity.
Defined.

Lemma fail_on_other_status_witness :
  exists err,
    out_result (do always_500 no_url_error newGClient 0 (Some tt) test_URL) = inl err /\
    out_sender (do always_500 no_url_error newGClient 0 (Some tt) test_URL) = 1 /\
    Error err = "failed to perform http request: request data: code = 500, status = ".
Proof.
  destruct (fail_on_other_status always_500 no_url_error newGClient 0 tt test_URL ""
              (do always_500 no_url_error newGClient 0 (Some tt) test_URL))
    as (r & s1 & resp & err & HDo & Hsent & Hsender & Hres & Herr & His & Hmsg).
  - intros s0 r0. exists (S s0), (newMockResponse 500 "error").
    split; [reflexivity|]. split; vm_compute; discriminate.
  - reflexivity.
  - left. reflexivity.
  - exists err. split; [exact Hres|].
    injection HDo as <- <-. split; [exact Hsender|]. exact Hmsg.
Defined.


(** ** The JSON decoder on examples *)

Example decode_ex1 :
  Json.decode (dq " [1, 'a\nb', [true, null], {'k': -2.5e3}] ")
  = inr (JArray [JNumber "1"; JString (String "a" (String (ascii_of_nat 10) "b"));
                 JArray [JBool true; JNull]; JObject [("k", JNumber "-2.5e3")]]).
Proof. vm_compute. reflexivity. Qed.

Example decode_ex2 :
  Json.decode (dq "['" ++ strings.bytes [195; 169; 240; 159; 152; 128; 255] ++ dq "\ud83d\u00e9']")%string
  = inr (JArray [JString (strings.bytes [195; 169; 240; 159; 152; 128; 239; 191; 189;
                                          239; 191; 189; 195; 169])]).
Proof. vm_compute. reflexivity. Qed.

Example decode_errors :
  (forall t, List.In t ["[1,]"; "[01]"; "[1] x"; "{1:2}"; "[1e400]"; dq "['a"; "tru"; ""] ->
             exists err, Json.decode t = inl err) /\
  Json.decode "1e-400" = inr (JNumber "1e-400") /\
  Json.decode "179769313486231570000000000000000000000000000000000000000000000000000000000000000000000000000000000000000000000000000000000000000000000000000000000000000000000000000000000000000000000000000000000000000000000000000000000000000000000000000000000000000000000000000000000000000000000000000000000000000"
  = inr (JNumber "179769313486231570000000000000000000000000000000000000000000000000000000000000000000000000000000000000000000000000000000000000000000000000000000000000000000000000000000000000000000000000000000000000000000000000000000000000000000000000000000000000000000000000000000000000000000000000000000000000000").
Proof.
  split; [|split; vm_compute; reflexivity].
  intros t Ht. simpl in Ht.
  repeat (destruct Ht as [<- | Ht]; [vm_compute; eexists; reflexivity|]).
  destruct Ht.
Qed.

(** ** The batch-response extractor *)

Section ExtractorFacts.
Variable decode : string -> error + json.

Lemma append_topics_app (items : list json) :
  forall result, append_topics result items = result ++ topics items.
Proof.
  induction items as [|item items IH]; intros result; cbn [append_topics topics omap].
  - now rewrite app_nil_r.
  - fold (topics items).
    destruct item as [| | | |[|[]] |]; rewrite ?IH; try reflexivity.
    now rewrite <- app_assoc.
Qed.

(** A parse error leaves the accumulated result as it was. *)
Lemma parseLine_error (result result' : list string) (trimmed : string) (err : error) :
  parseLine decode result trimmed = (result', Some err) -> result' = result.
Proof.
  unfold parseLine. intros H. repeat case_match; congruence.
Qed.

(** The topics of a line are appended to the result. *)
Lemma parseLine_app (result : list string) (trimmed : string) :
  parseLine decode result trimmed
  = (result ++ (parseLine decode [] trimmed).1, (parseLine decode [] trimmed).2).
Proof.
  unfold parseLine. repeat case_match; cbn [fst snd]; rewrite ?app_nil_r; try reflexivity.
  now rewrite (append_topics_app _ result), (append_topics_app _ []).
Qed.

Lemma scan_lines_error (result : list string) (line : string) (rest : list string)
      (err : error) :
  strings.HasPrefix (strings.TrimSpace line) "[" = true ->
  strings.HasSuffix (strings.TrimSpace line) "]" = true ->
  (parseLine decode result (strings.TrimSpace line)).2 = Some err ->
  scan_lines decode result (line :: rest) = scan_lines decode result rest.
Proof.
  intros Hp Hs Herr. cbn [scan_lines]. rewrite Hp, Hs. cbn [andb].
  destruct (parseLine decode result (strings.TrimSpace line)) as [result' perr] eqn:E.
  cbn [snd] in Herr. subst perr. now rewrite (parseLine_error _ _ _ _ E).
Qed.

Lemma scan_lines_skip (line : string) (rest : list string) :
  line_topics decode line = [] ->
  scan_lines decode [] (line :: rest) = scan_lines decode [] rest.
Proof.
  unfold line_topics. cbn [scan_lines]. intros H.
  destruct (strings.HasPrefix _ "[" && strings.HasSuffix _ "]"); [|reflexivity].
  destruct (parseLine decode [] (strings.TrimSpace line)) as [result' [perr|]];
    cbn [fst] in H; subst result'; reflexivity.
Qed.

Lemma scan_lines_hit (line : string) (rest : list string) :
  line_topics decode line <> [] ->
  scan_lines decode [] (line :: rest) = inr (line_topics decode line).
Proof.
  unfold line_topics. cbn [scan_lines]. intros H.
  destruct (strings.HasPrefix _ "[" && strings.HasSuffix _ "]"); [|contradiction].
  destruct (parseLine decode [] (strings.TrimSpace line)) as [result' [perr|]] eqn:E;
    cbn [fst] in *.
  - apply parseLine_error in E. contradiction.
  - destruct result'; [contradiction|reflexivity].
Qed.

Lemma scan_lines_first (pre post : list string) (line : string) :
  Forall (fun l => line_topics decode l = []) pre ->
  line_topics decode line <> [] ->
  scan_lines decode [] (pre ++ line :: post) = inr (line_topics decode line).
Proof.
  induction 1 as [|l pre Hl _ IH]; intros Hline; cbn [app].
  - now apply scan_lines_hit.
  - rewrite scan_lines_skip by assumption. now apply IH.
Qed.

Lemma scan_lines_none (lines : list string) :
  scan_lines decode [] lines = inl (errors_New "no valid JSON found in response")
  <-> Forall (fun l => line_topics decode l = []) lines.
Proof.
  induction lines as [|line lines IH]; [now split; [constructor|]|].
  destruct (line_topics decode line) as [|t ts] eqn:E.
  - rewrite scan_lines_skip by assumption. rewrite IH. split.
    + now constructor.
    + now inversion 1.
  - rewrite scan_lines_hit by now rewrite E. split; [discriminate|].
    inversion 1; congruence.
Qed.

(** The topics of a line of the nested shape. *)
Lemma line_topics_shape (line js : string) (a b x y d0 : json)
      (t rest items drest : list json) :
  strings.HasPrefix (strings.TrimSpace line) "[" = true ->
  strings.HasSuffix (strings.TrimSpace line) "]" = true ->
  decode (strings.TrimSpace line)
  = inr (JArray (JArray (a :: b :: JString js :: t) :: x :: y :: rest)) ->
  decode js = inr (JArray (d0 :: JArray items :: drest)) ->
  line_topics decode line = topics items.
Proof.
  intros Hp Hs Hline Hjs. unfold line_topics, parseLine, Unmarshal_slice.
  rewrite Hp, Hs, Hline. cbn. rewrite Hjs. cbn.
  apply (append_topics_app items []).
Qed.

(** A line has the nested shape or shows a mismatch, never both. *)
Lemma shape_or_mismatch (result : list string) (trimmed : string) :
  (exists items, nested_shape decode trimmed items /\
                 parseLine decode result trimmed = (result ++ topics items, None)) \/
  (mismatch decode trimmed /\ (parseLine decode result trimmed).1 = result).
Proof.
  unfold parseLine, Unmarshal_slice.
  destruct (decode trimmed) as [err|v] eqn:E;
    [right; split; [eapply line_not_json; eauto|reflexivity]|].
  destruct v as [| | | |l|];
    try solve [right; split; [eapply line_not_list; [eassumption|intros [? [=]]]|reflexivity]].
  destruct l as [|v l];
    [right; split; [eapply line_few_entries; [eassumption|cbn; lia]|reflexivity]|].
  destruct v as [| | | |entry|];
    try solve [right; split; [eapply first_not_list; [eassumption|intros [? [=]]]
                       |cbn; repeat case_match; reflexivity]].
  destruct entry as [|a [|b [|v t]]];
    try solve [right; split; [eapply first_few_elements; [eassumption|cbn; lia]
                       |cbn; repeat case_match; reflexivity]].
  destruct v as [| | |js| |];
    try solve [right; split; [eapply third_not_text; [eassumption|intros [? [=]]]
                       |cbn; repeat case_match; reflexivity]].
  destruct l as [|x [|y rest]];
    try solve [right; split; [eapply line_few_entries; [eassumption|cbn; lia]|reflexivity]].
  cbn.
  destruct (decode js) as [err|v] eqn:E2;
    [right; split; [eapply inner_not_json; eauto|reflexivity]|].
  destruct v as [| | | |data|];
    try solve [right; split; [eapply inner_not_list; [eassumption|eassumption|intros [? [=]]]
                       |reflexivity]].
  destruct data as [|d0 [|v drest]];
    try solve [right; split; [eapply inner_few_entries; [eassumption|eassumption|cbn; lia]
                       |reflexivity]].
  destruct v as [| | | |items|];
    try solve [right; split; [eapply second_not_list; [eassumption|eassumption|intros [? [=]]]
                       |reflexivity]].
  left. exists items. split; [econstructor; eassumption|].
  cbn. now rewrite append_topics_app.
Qed.

Lemma mismatch_not_shape (trimmed : string) (items : list json) :
  mismatch decode trimmed -> nested_shape decode trimmed items -> False.
Proof.
  intros Hm [a b x y d0 js t rest drest H1 H2].
  destruct Hm as [err H|v H Hv|l H Hl|v l H Hv|entry l H Hl|a' b' v t' l H Hv
                 |a' b' js' t' l err H H'|a' b' js' t' l v H H' Hv
                 |a' b' js' t' l data H H' Hl|a' b' js' t' l d0' v drest' H H' Hv];
    rewrite H1 in H; try discriminate; injection H as H; subst.
  - apply Hv. eexists. reflexivity.
  - cbn in Hl. lia.
  - apply Hv. eexists. reflexivity.
  - cbn in Hl. lia.
  - apply Hv. eexists. reflexivity.
  - congruence.
  - rewrite H2 in H'. injection H' as <-. apply Hv. eexists. reflexivity.
  - rewrite H2 in H'. injection H' as <-. cbn in Hl. lia.
  - rewrite H2 in H'. injection H' as <- <- <-. apply Hv. eexists. reflexivity.
Qed.

Lemma nested_shape_unique (trimmed : string) (items items' : list json) :
  nested_shape decode trimmed items -> nested_shape decode trimmed items' -> items' = items.
Proof.
  intros [a b x y d0 js t rest drest H1 H2] [a' b' x' y' d0' js' t' rest' drest' H1' H2'].
  rewrite H1 in H1'. injection H1' as <- <- <- <- <- <- <-.
  rewrite H2 in H2'. now injection H2'.
Qed.

(** What a line contributes, by its shape. *)
Lemma line_topics_mismatch (line : string) :
  mismatch decode (strings.TrimSpace line) -> line_topics decode line = [].
Proof.
  intros Hm. unfold line_topics. destruct (_ && _); [|reflexivity].
  destruct (shape_or_mismatch [] (strings.TrimSpace line)) as [(items & Hs & _)|[_ H]];
    [|exact H].
  destruct (mismatch_not_shape _ _ Hm Hs).
Qed.

Lemma line_topics_yields (line : string) :
  line_topics decode line <> [] <-> exists ts, yields decode line ts /\ ts <> [].
Proof.
  unfold line_topics, yields.
  destruct (strings.HasPrefix _ "[") eqn:Hp; cbn [andb];
    [|split; [contradiction|intros (ts & (H & _) & _); discriminate]].
  destruct (strings.HasSuffix _ "]") eqn:Hs;
    [|split; [contradiction|intros (ts & (_ & H & _) & _); discriminate]].
  destruct (shape_or_mismatch [] (strings.TrimSpace line)) as [(items & Hsh & ->)|[Hm ->]];
    cbn [fst app].
  - split.
    + intros Hne. exists (topics items). split; [|exact Hne].
      split; [reflexivity|]. split; [reflexivity|]. eauto.
    + intros (ts & (_ & _ & items' & Hsh' & ->) & Hne).
      now rewrite (nested_shape_unique _ _ _ Hsh Hsh') in Hne.
  - split; [contradiction|].
    intros (ts & (_ & _ & items & Hsh & _) & _).
    destruct (mismatch_not_shape _ _ Hm Hsh).
Qed.

(** A line that contributes nothing can be left out. *)
Lemma scan_lines_without (pre post : list string) (line : string) :
  line_topics decode line = [] ->
  scan_lines decode [] (pre ++ line :: post) = scan_lines decode [] (pre ++ post).
Proof.
  intros Hline. induction pre as [|l pre IH]; cbn [app].
  - now apply scan_lines_skip.
  - destruct (line_topics decode l) as [|t ts] eqn:E.
    + now rewrite !scan_lines_skip by assumption.
    + now rewrite !scan_lines_hit by (rewrite E; discriminate).
Qed.

(** The only error of the scan. *)
Lemma scan_lines_only_error (lines : list string) (err : error) :
  scan_lines decode [] lines = inl err ->
  err = errors_New "no valid JSON found in response".
Proof.
  induction lines as [|line lines IH]; [now intros [= <-]|].
  destruct (line_topics decode line) as [|t ts] eqn:E.
  - now rewrite scan_lines_skip by assumption.
  - rewrite scan_lines_hit by (rewrite E; discriminate). discriminate.
Qed.
End ExtractorFacts.

Example extract_test_no_json :
  extractJSONFromResponse Json.decode "invalid response"
  = inl (errors_New "no valid JSON found in response") /\
  extractJSONFromResponse Json.decode ""
  = inl (errors_New "no valid JSON found in response").
Proof. split; vm_compute; reflexivity. Qed.

(** A line of the nested shape whose top-level array has the one entry
    only: nothing is extracted. *)
Lemma extract_needs_three_entries :
  exists wrapper,
    Json.decode golang_rust_alone = inr (JArray [wrapper]) /\
    wrapper = JArray [JString "wrb.fr"; JString "i0OFE"; JString golang_rust_inner;
                      JNull; JNull; JNull; JString "generic"] /\
    Json.decode golang_rust_inner
    = inr (JArray [JNull; JArray [JArray [JString "golang"; JNumber "1"];
                                  JArray [JString "rust"; JNumber "2"]]]) /\
    extractJSONFromResponse Json.decode golang_rust_alone
    = inl (errors_New "no valid JSON found in response").
Proof. eexists. repeat split; vm_compute; reflexivity. Qed.

(** C6 (amended).  When a line, trimmed, is a JSON array of more than two
    entries whose first entry is an array whose third element is a string
    that encodes an array whose second element is a list of items, and no
    line before it yields anything, the extractor returns, in order, the
    first element of every item of that line that is a non-empty list
    starting with a string, provided there is one.  The line with the inner
    items [[["golang",1],["rust",2]]] yields ["golang", "rust"]. *)
Theorem extract_nested_shape :
  (forall (decode : string -> error + json) (text : string) (pre post : list string)
          (line js : string) (a b x y d0 : json) (t rest items drest : list json),
      strings.Split text newline = pre ++ line :: post ->
      Forall (fun l => line_topics decode l = []) pre ->
      strings.HasPrefix (strings.TrimSpace line) "[" = true ->
      strings.HasSuffix (strings.TrimSpace line) "]" = true ->
      decode (strings.TrimSpace line)
      = inr (JArray (JArray (a :: b :: JString js :: t) :: x :: y :: rest)) ->
      decode js = inr (JArray (d0 :: JArray items :: drest)) ->
      topics items <> [] ->
      extractJSONFromResponse decode text = inr (topics items)) /\
  extractJSONFromResponse Json.decode golang_rust_response = inr ["golang"; "rust"].
Proof.
  split; [|vm_compute; reflexivity].
  intros decode text pre post line js a b x y d0 t rest items drest
         Hsplit Hpre Hp Hs Hline Hjs Hne.
  unfold extractJSONFromResponse. rewrite Hsplit.
  rewrite <- (line_topics_shape decode line js a b x y d0 t rest items drest Hp Hs Hline Hjs)
    in Hne |- *.
  now apply scan_lines_first.
Qed.

Lemma extract_nested_shape_witness :
  extractJSONFromResponse Json.decode golang_rust_response
  = inr (topics [JArray [JString "golang"; JNumber "1"];
                 JArray [JString "rust"; JNumber "2"]]).
Proof.
  apply (proj1 extract_nested_shape Json.decode golang_rust_response
               [")]}'"; ""; "123"; "[1,2,3]"] [""]
               (" " ++ golang_rust_line)%string golang_rust_inner
               (JString "wrb.fr") (JString "i0OFE") (JArray [JString "di"; JNumber "27"])
               (JArray [JString "af.httprm"; JNumber "27"; JString "x"; JNumber "28"])
               JNull [JNull; JNull; JNull; JString "generic"] []
               [JArray [JString "golang"; JNumber "1"]; JArray [JString "rust"; JNumber "2"]]
               []).
  - vm_compute. reflexivity.
  - repeat constructor.
  - vm_compute. reflexivity.
  - vm_compute. reflexivity.
  - vm_compute. reflexivity.
  - vm_compute. reflexivity.
  - discriminate.
Defined.

(** C7.  A line that shows a structural mismatch at some level (a text
    that is not JSON, a value of the wrong type, an array with too few
    elements) has not the nested shape, appends nothing to the result, and
    the extractor returns what it returns for the response without that
    line: the scan goes on with the next line.  No error of a line is ever
    returned: the only error of the extractor is "no valid JSON found in
    response", and it is returned exactly when no line yields a non-empty
    list of topics. *)
Theorem extract_skips_mismatch (decode : string -> error + json) :
  (forall (result : list string) (line : string),
      mismatch decode (strings.TrimSpace line) ->
      (forall items, ~ nested_shape decode (strings.TrimSpace line) items) /\
      (parseLine decode result (strings.TrimSpace line)).1 = result) /\
  (forall (text : string) (pre post : list string) (line : string),
      strings.Split text newline = pre ++ line :: post ->
      mismatch decode (strings.TrimSpace line) ->
      extractJSONFromResponse decode text = scan_lines decode [] (pre ++ post)) /\
  (forall (text : string) (err : error),
      extractJSONFromResponse decode text = inl err ->
      err = errors_New "no valid JSON found in response") /\
  (forall text : string,
      extractJSONFromResponse decode text
      = inl (errors_New "no valid JSON found in response")
      <-> forall line ts, In line (strings.Split text newline) ->
                          yields decode line ts -> ts = []).
Proof.
  split; [|split; [|split]].
  - intros result line Hm. split.
    + intros items Hs. exact (mismatch_not_shape decode _ _ Hm Hs).
    + destruct (shape_or_mismatch decode result (strings.TrimSpace line))
        as [(items & Hs & _)|[_ H]]; [|exact H].
      destruct (mismatch_not_shape decode _ _ Hm Hs).
  - intros text pre post line Hsplit Hm. unfold extractJSONFromResponse.
    rewrite Hsplit. apply scan_lines_without. now apply line_topics_mismatch.
  - intros text err. apply scan_lines_only_error.
  - intros text. unfold extractJSONFromResponse. rewrite scan_lines_none, List.Forall_forall.
    split.
    + intros H line ts Hin Hy. specialize (H line Hin).
      destruct ts as [|t ts]; [reflexivity|].
      exfalso. apply (proj2 (line_topics_yields decode line)); [|exact H].
      exists (t :: ts). split; [exact Hy|discriminate].
    + intros H line Hin.
      destruct (line_topics decode line) as [|t ts] eqn:E; [reflexivity|].
      destruct (proj1 (line_topics_yields decode line)) as (ts' & Hy & Hne);
        [rewrite E; discriminate|].
      destruct (Hne (H line ts' Hin Hy)).
Qed.

Lemma extract_skips_mismatch_witness :
  extractJSONFromResponse Json.decode ("[1,2,3]" ++ newline ++ golang_rust_line)
  = inr ["golang"; "rust"] /\
  extractJSONFromResponse Json.decode
                          (dq "[[1,2,'x'],3,4]" ++ newline ++ golang_rust_line)
  = inr ["golang"; "rust"] /\
  (parseLine Json.decode ["kept"] (strings.TrimSpace "[[1,2],3,4]")).1 = ["kept"].
Proof.
  destruct (extract_skips_mismatch Json.decode) as (Hline & Hskip & _ & _).
  split; [|split].
  - rewrite (Hskip ("[1,2,3]" ++ newline ++ golang_rust_line)%string [] [golang_rust_line]
                   "[1,2,3]").
    + vm_compute. reflexivity.
    + vm_compute. reflexivity.
    + eapply (first_not_list Json.decode _ (JNumber "1") [JNumber "2"; JNumber "3"]).
      * vm_compute. reflexivity.
      * intros [l [=]].
  - rewrite (Hskip (dq "[[1,2,'x'],3,4]" ++ newline ++ golang_rust_line)%string []
                   [golang_rust_line] (dq "[[1,2,'x'],3,4]")).
    + vm_compute. reflexivity.
    + vm_compute. reflexivity.
    + eapply (inner_not_json Json.decode _ (JNumber "1") (JNumber "2") "x" []
                             [JNumber "3"; JNumber "4"]).
      * vm_compute. reflexivity.
      * vm_compute. reflexivity.
  - apply (Hline ["kept"] "[[1,2],3,4]").
    eapply (first_few_elements Json.decode _ [JNumber "1"; JNumber "2"]
                               [JNumber "3"; JNumber "4"]).
    + vm_compute. reflexivity.
    + cbn. lia.
Defined.

(** ** The detail-fetch operations *)

Section SentRequests.
Context {Ctx Sender : Type}.
Variable Do : Sender -> HTTPRequest Ctx -> Sender * (error + HTTPResponse).
Variable url_check : URL -> option error.

(** Every request handed to the sender is for the URL of the operation. *)
Lemma send_sent_URL (c : gClient) (s : Sender) (r q : HTTPRequest Ctx) :
  In q (out_sent (send Do c s r)) -> req_URL q = req_URL r.
Proof.
  unfold send. destruct (Do s r) as [s1 [err|resp]]; cbn.
  - intros [<- | []]. reflexivity.
  - destruct (resp_StatusCode resp =? StatusTooManyRequests)%Z; cbn;
      [|intros [<- | []]; reflexivity].
    destruct (strings.Split _ _) as [|cookie0 rest]; cbn;
      [intros [<- | []]; reflexivity|].
    destruct (Do s1 _) as [s2 [err|resp']]; cbn;
      intros [<- | [<- | []]]; reflexivity.
Qed.

Lemma do_sent_URL (c : gClient) (s : Sender) (ctx : option Ctx) (u : URL)
      (q : HTTPRequest Ctx) :
  In q (out_sent (do Do url_check c s ctx u)) -> req_URL q = u.
Proof.
  unfold do, NewRequestWithContext.
  destruct ctx as [ctx|]; [|intros []].
  destruct (url_check u); [intros []|].
  intros H. apply send_sent_URL in H. rewrite H.
  unfold with_cookie. now destruct (negb _).
Qed.

Variable json_Marshal : json -> error + string.

(** [fetch] returns; it leaves the widget alone, and what it sends
    carries the text of the sub-request it was given. *)
Lemma fetch_inv {T : Type} (path : string) (unmarshal : string -> error + T)
      (c : gClient) (s : Sender) (ctx : option Ctx) (hl : string)
      (w : ExploreWidget) (r : WidgetResponse) :
  exists c' s' sent res,
    fetch Do url_check json_Marshal path unmarshal c s ctx hl w r
    = Returns w c' s' sent res /\
    forall q, In q sent ->
              exists text, json_Marshal (WidgetResponse_json r) = inr text /\
                           carries_req text q.
Proof.
  unfold fetch. destruct (json_Marshal (WidgetResponse_json r)) as [err|mReq].
  - do 4 eexists. split; [reflexivity|]. intros q [].
  - set (u := {| url_Base := _; url_Query := _ |}).
    assert (Hq : forall q, In q (out_sent (do Do url_check c s ctx u)) ->
                           exists text, (inr mReq : error + string) = inr text /\ carries_req text q).
    { intros q Hq. exists mReq. split; [reflexivity|].
      unfold carries_req. rewrite (do_sent_URL _ _ _ _ _ Hq). subst u. cbn.
      apply lookup_insert_eq. }
    destruct (out_result (do Do url_check c s ctx u)) as [err|b];
      [|destruct (unmarshal _)]; do 4 eexists; (split; [reflexivity|exact Hq]).
Qed.
End SentRequests.

(** The encoding of a map with the one empty entry. *)
Lemma map_json_empty_geo : map_json empty_geo = JObject [("", JString "")].
Proof. vm_compute. reflexivity. Qed.

(** A term is encoded with a [geo] member exactly when its map has an
    entry. *)
Lemma json_member_geo (ci : WidgetComparisonItem) :
  json_member "geo" (WidgetComparisonItem_json ci)
  = match ci_Geo ci with
    | Some m => if (size m =? 0)%nat then None else Some (map_json m)
    | None => None
    end.
Proof.
  unfold WidgetComparisonItem_json, field_map_omitempty, field_omitempty, map_len.
  destruct (ci_Geo ci) as [m|]; [destruct (size m =? 0)%nat|];
    destruct (String.length (ci_Time ci) =? 0)%nat,
             (String.length (OriginalTimeRangeForExploreURL ci) =? 0)%nat;
    reflexivity.
Qed.

Lemma json_member_comparisonItem (r : WidgetResponse) :
  json_member "comparisonItem" (WidgetResponse_json r)
  = Some (slice_json (pointer_json WidgetComparisonItem_json) (CompItem r)).
Proof.
  unfold WidgetResponse_json, field_omitempty.
  destruct (Geo r), (String.length (Time r) =? 0)%nat,
    (String.length (Resolution r) =? 0)%nat, (String.length (Locale r) =? 0)%nat;
    reflexivity.
Qed.

Lemma json_member_restriction (r : WidgetResponse) :
  json_member "restriction" (WidgetResponse_json r)
  = Some (WidgetComparisonItem_json (Restriction r)).
Proof.
  unfold WidgetResponse_json, field_omitempty.
  destruct (Geo r), (String.length (Time r) =? 0)%nat,
    (String.length (Resolution r) =? 0)%nat, (String.length (Locale r) =? 0)%nat;
    reflexivity.
Qed.

(** The loop of [InterestOverTime] on one term. *)
Lemma init_item_Geo_spec (v : option WidgetComparisonItem) :
  item_geo_initialised v (init_item_Geo v) /\ geo_encoded (init_item_Geo v).
Proof.
  destruct v as [ci|]; [|split; exact I].
  unfold init_item_Geo. destruct (map_len (ci_Geo ci) =? 0)%nat eqn:E.
  - apply Nat.eqb_eq in E. split; [right; auto|].
    unfold geo_encoded. rewrite json_member_geo. vm_compute. discriminate.
  - split; [left; reflexivity|].
    unfold geo_encoded. rewrite json_member_geo. unfold map_len in E.
    destruct (ci_Geo ci) as [m|]; [|discriminate]. now rewrite E.
Qed.

Lemma init_Geo_spec (r : WidgetResponse) :
  items_geo_initialised (CompItem r) (CompItem (init_Geo r)) /\
  match CompItem (init_Geo r) with
  | Some items' => Forall geo_encoded items'
  | None => True
  end.
Proof.
  unfold init_Geo. cbn [CompItem set_CompItem].
  destruct (CompItem r) as [items|]; [|split; exact I].
  cbn [option_map items_geo_initialised].
  induction items as [|v items [IH1 IH2]]; cbn [List.map]; [split; constructor|].
  destruct (init_item_Geo_spec v). split; constructor; assumption.
Qed.

(** The step of [Related] on a map that is not nil. *)
Lemma restriction_Geo_spec (r : WidgetResponse) (m : gmap string string) :
  ci_Geo (Restriction r) = Some m ->
  exists r',
    restriction_Geo r = Some r' /\
    geo_initialised (Restriction r) (Restriction r') /\
    geo_encoded (Some (Restriction r')) /\
    CompItem r' = CompItem r /\ DataMode r' = DataMode r /\ same_request_fields r r'.
Proof.
  intros Hm. unfold restriction_Geo. rewrite Hm. cbn [map_len].
  destruct (size m =? 0)%nat eqn:E.
  - apply Nat.eqb_eq, map_size_empty_iff in E. subst m.
    eexists. split; [reflexivity|]. cbn [Restriction set_Restriction].
    replace (<["" := ""]> (∅ : gmap string string)) with empty_geo
      by (unfold empty_geo; now rewrite insert_empty).
    split; [right; split; [now rewrite Hm|reflexivity]|].
    split; [unfold geo_encoded; rewrite json_member_geo; vm_compute; discriminate|].
    repeat split.
  - exists r. split; [reflexivity|]. split; [left; reflexivity|].
    split; [unfold geo_encoded; rewrite json_member_geo, Hm, E; discriminate|].
    repeat split.
Qed.

Section Operations.
Context {Ctx Sender Timeline GeoMap RankedKeyword : Type}.
Variable Do : Sender -> HTTPRequest Ctx -> Sender * (error + HTTPResponse).
Variable url_check : URL -> option error.
Variable json_Marshal : json -> error + string.
Variable unmarshal_multilineOut : string -> error + list Timeline.
Variable unmarshal_geoOut : string -> error + list GeoMap.
Variable unmarshal_relatedOut : string -> error + list (option (list RankedKeyword)).

Local Abbreviation timeline :=
  (InterestOverTime Do url_check json_Marshal unmarshal_multilineOut).
Local Abbreviation by_location :=
  (InterestByLocation Do url_check json_Marshal unmarshal_geoOut).
Local Abbreviation related := (Related Do url_check json_Marshal unmarshal_relatedOut).
Local Abbreviation sends := (sends json_Marshal).

(** The ways an operation can end. *)
Lemma timeline_cases (c : gClient) (s : Sender) (ctx : option Ctx) (w : ExploreWidget)
      (hl : string) :
  (strings.HasPrefix (ID w) IntOverTimeWidgetID = false /\
   timeline c s ctx w hl = Returns w c s [] (inl ErrInvalidWidgetType)) \/
  (strings.HasPrefix (ID w) IntOverTimeWidgetID = true /\ Request w = None /\
   timeline c s ctx w hl = Panics nil_dereference) \/
  (strings.HasPrefix (ID w) IntOverTimeWidgetID = true /\
   exists r c' s' sent res,
     Request w = Some r /\
     timeline c s ctx w hl = Returns (set_Request w (init_Geo r)) c' s' sent res /\
     sends (init_Geo r) sent).
Proof.
  unfold InterestOverTime.
  destruct (strings.HasPrefix (ID w) IntOverTimeWidgetID); cbn [negb]; [|auto].
  right. destruct (Request w) as [r|]; [right|left; auto].
  split; [reflexivity|].
  destruct (fetch_inv Do url_check json_Marshal gSIntOverTime unmarshal_multilineOut
                      c s ctx hl (set_Request w (init_Geo r)) (init_Geo r))
    as (c' & s' & sent & res & Heq & Hsent).
  exists r, c', s', sent, res. auto.
Qed.

Lemma by_location_cases (c : gClient) (s : Sender) (ctx : option Ctx) (w : ExploreWidget)
      (hl : string) :
  (strings.HasPrefix (ID w) IntOverRegionID = false /\
   by_location c s ctx w hl = Returns w c s [] (inl ErrInvalidWidgetType)) \/
  (strings.HasPrefix (ID w) IntOverRegionID = true /\ Request w = None /\
   by_location c s ctx w hl = Panics nil_dereference) \/
  (strings.HasPrefix (ID w) IntOverRegionID = true /\
   exists r c' s' sent res,
     Request w = Some r /\
     by_location c s ctx w hl = Returns (set_Request w (force_DataMode r)) c' s' sent res /\
     sends (force_DataMode r) sent).
Proof.
  unfold InterestByLocation.
  destruct (strings.HasPrefix (ID w) IntOverRegionID); cbn [negb]; [|auto].
  right. destruct (Request w) as [r|]; [right|left; auto].
  split; [reflexivity|].
  destruct (fetch_inv Do url_check json_Marshal gSIntOverReg unmarshal_geoOut
                      c s ctx hl (set_Request w (force_DataMode r)) (force_DataMode r))
    as (c' & s' & sent & res & Heq & Hsent).
  exists r, c', s', sent, res. auto.
Qed.

(** The loop over the ranked lists: it ends without panic exactly when no
    entry is nil, with the lists joined in order. *)
Lemma append_Keywords_Some (ranked : list (option (list RankedKeyword))) :
  forall keywords out,
    append_Keywords keywords ranked = Some out <->
    exists lists, ranked = map Some lists /\ out = keywords ++ List.concat lists.
Proof.
  induction ranked as [|[v|] ranked IH]; intros keywords out; cbn [append_Keywords].
  - split.
    + intros [= <-]. exists []. split; [reflexivity|]. cbn. now rewrite app_nil_r.
    + intros ([|? ?] & [=] & ->). cbn. now rewrite app_nil_r.
  - rewrite IH. split.
    + intros (lists & -> & ->). exists (v :: lists). split; [reflexivity|].
      cbn [List.concat]. now rewrite app_assoc.
    + intros ([|v0 lists] & [=] & ->). subst. exists lists. split; [reflexivity|].
      cbn [List.concat]. now rewrite app_assoc.
  - split; [discriminate|]. intros ([|? ?] & [=] & _).
Qed.

Lemma append_Keywords_None (ranked : list (option (list RankedKeyword))) :
  forall keywords, append_Keywords keywords ranked = None <-> In None ranked.
Proof.
  induction ranked as [|[v|] ranked IH]; intros keywords; cbn [append_Keywords In].
  - split; [discriminate|tauto].
  - rewrite IH. split; [auto|]. now intros [[=]|H].
  - split; auto.
Qed.

(** [Related] once the widget has passed the checks: the fetch, then the
    loop over the ranked lists. *)
Lemma Related_run (c : gClient) (s : Sender) (ctx : option Ctx) (w : ExploreWidget)
      (hl : string) (r r' : WidgetResponse) :
  related_type (ID w) = true -> Request w = Some r -> restriction_Geo r = Some r' ->
  related c s ctx w hl
  = match fetch Do url_check json_Marshal gSRelated unmarshal_relatedOut c s ctx hl
                (set_Request w r') r' with
    | Returns w1 c1 s1 sent (inr ranked) =>
        match append_Keywords [] ranked with
        | Some keywords => Returns w1 c1 s1 sent (inr keywords)
        | None => PanicsAfter nil_dereference w1 c1 s1 sent
        end
    | Returns w1 c1 s1 sent (inl err) => Returns w1 c1 s1 sent (inl err)
    | Panics reason => Panics reason
    | PanicsAfter reason w1 c1 s1 sent => PanicsAfter reason w1 c1 s1 sent
    end.
Proof.
  intros Hid Hr Hr'. unfold Related. rewrite Hr, Hr'.
  unfold related_type in Hid.
  destruct (strings.HasPrefix (ID w) RelatedQueriesID),
    (strings.HasPrefix (ID w) RelatedTopicsID); try discriminate; reflexivity.
Qed.

Lemma related_cases (c : gClient) (s : Sender) (ctx : option Ctx) (w : ExploreWidget)
      (hl : string) :
  (related_type (ID w) = false /\
   related c s ctx w hl = Returns w c s [] (inl ErrInvalidWidgetType)) \/
  (related_type (ID w) = true /\ Request w = None /\
   related c s ctx w hl = Panics nil_dereference) \/
  (related_type (ID w) = true /\
   exists r, Request w = Some r /\ ci_Geo (Restriction r) = None /\
             related c s ctx w hl = Panics "assignment to entry in nil map") \/
  (related_type (ID w) = true /\
   exists r m r' c' s' sent,
     Request w = Some r /\ ci_Geo (Restriction r) = Some m /\
     restriction_Geo r = Some r' /\
     ((exists res, related c s ctx w hl = Returns (set_Request w r') c' s' sent res) \/
      related c s ctx w hl = PanicsAfter nil_dereference (set_Request w r') c' s' sent) /\
     sends r' sent).
Proof.
  destruct (related_type (ID w)) eqn:Hid.
  - right. destruct (Request w) as [r|] eqn:Hr.
    + right. destruct (ci_Geo (Restriction r)) as [m|] eqn:Hm.
      * right. split; [reflexivity|].
        destruct (restriction_Geo_spec r m Hm) as (r' & Hr' & _).
        rewrite (Related_run c s ctx w hl r r' Hid Hr Hr').
        destruct (fetch_inv Do url_check json_Marshal gSRelated unmarshal_relatedOut
                            c s ctx hl (set_Request w r') r')
          as (c' & s' & sent & res & Heq & Hsent).
        rewrite Heq. exists r, m, r', c', s', sent.
        split; [reflexivity|]. split; [exact Hm|]. split; [exact Hr'|].
        split; [|exact Hsent].
        destruct res as [err|ranked]; [left; eauto|].
        destruct (append_Keywords [] ranked); [left; eauto|right; reflexivity].
      * left. split; [reflexivity|]. exists r. split; [reflexivity|]. split; [exact Hm|].
        unfold Related, related_type in *. rewrite Hr.
        unfold restriction_Geo. rewrite Hm.
        destruct (strings.HasPrefix (ID w) RelatedQueriesID),
          (strings.HasPrefix (ID w) RelatedTopicsID); try discriminate; reflexivity.
    + left. split; [reflexivity|]. split; [reflexivity|].
      unfold Related, related_type in *. rewrite Hr.
      destruct (strings.HasPrefix (ID w) RelatedQueriesID),
        (strings.HasPrefix (ID w) RelatedTopicsID); try discriminate; reflexivity.
  - left. split; [reflexivity|]. unfold Related. unfold related_type in Hid.
    apply orb_false_iff in Hid as [-> ->]. reflexivity.
Qed.

(** C1, at the failing input: a related-queries widget whose restriction
    has no [geo] (a nil map).  [Related] panics on the assignment to an
    entry of the nil map, where the specification promises the map with
    the one empty entry and no panic. *)
Theorem Related_panics_on_nil_geo (c : gClient) (s : Sender) (ctx : option Ctx)
        (hl : string) :
  ci_Geo (Restriction zero_request) = None /\
  related c s ctx related_nil_geo hl = Panics "assignment to entry in nil map".
Proof. split; reflexivity. Qed.


Lemma items_geo_initialised_refl (l : option (list (option WidgetComparisonItem))) :
  items_geo_initialised l l.
Proof.
  destruct l as [items|]; [|exact I]. cbn.
  induction items as [|[ci|] items IH]; constructor; auto; cbn; auto.
  now left.
Qed.

Lemma same_request_fields_refl (r : WidgetResponse) : same_request_fields r r.
Proof. repeat split. Qed.

End Operations.

(** With an empty map in place [Related] returns, and the restriction is
    sent with the one empty entry. *)
Example Related_empty_geo :
  match test_related related_empty_geo "EN" with
  | Returns w' _ _ [q] (inr []) =>
      option_map (fun r => ci_Geo (Restriction r)) (Request w') = Some (Some empty_geo)
  | _ => False
  end.
Proof. vm_compute. reflexivity. Qed.

(** An answer whose ranked list holds a [null]: the request was sent and
    the restriction changed when [Related] panics. *)
Example Related_null_ranked_list :
  match Related scripted no_url_error test_Marshal null_ranked newGClient answer_200
                (Some tt) related_empty_geo "EN" with
  | PanicsAfter reason w' _ _ [q] =>
      reason = nil_dereference /\
      option_map (fun r => ci_Geo (Restriction r)) (Request w') = Some (Some empty_geo)
  | _ => False
  end.
Proof. vm_compute. split; reflexivity. Qed.





(** * Further properties of the code *)

(** ** The identifiers of the widgets *)

Lemma drop_app_length (pre rest : string) (n : nat) :
  strings.drop (String.length pre + n) (pre ++ rest)%string = strings.drop n rest.
Proof. induction pre as [|c pre IH]; [reflexivity|exact IH]. Qed.

Lemma string_length_app (s t : string) :
  String.length (s ++ t)%string = String.length s + String.length t.
Proof.
  induction s as [|c s IH]; [reflexivity|].
  change (S (String.length (s ++ t)%string) = S (String.length s + String.length t)).
  now rewrite IH.
Qed.

Lemma LastIndex_from_spec (s : string) :
  forall i last : Z,
    (has_underscore s = false /\ strings.LastIndex_from s "_" i last = last) \/
    (exists pre rest,
        s = (pre ++ "_" ++ rest)%string /\ has_underscore rest = false /\
        strings.LastIndex_from s "_" i last = (i + Z.of_nat (String.length pre))%Z).
Proof.
  unfold has_underscore.
  induction s as [|c s IH]; intros i last; [left; split; reflexivity|].
  cbn [strings.LastIndex_from strings.Contains].
  destruct (IH (i + 1)%Z (if String.prefix "_" (String c s) then i else last))
    as [[Hno Heq] | (pre & rest & -> & Hrest & Heq)].
  - rewrite Heq, Hno, orb_false_r.
    cbn [String.prefix]. destruct (ascii_dec "_" c) as [<- | Hc].
    + right. exists EmptyString, s.
      repeat split; [exact Hno | destruct s; cbn; lia].
    + left. split; reflexivity.
  - right. exists (String c pre), rest. split; [reflexivity|split; [exact Hrest|]].
    rewrite Heq. cbn [String.length]. lia.
Qed.

(** X1.  The text that [Less] and [GetWidgetsByOrder] hand to [ParseInt] is
    the part of the identifier after its last underscore and contains no
    underscore; it is the whole identifier when there is no underscore.  The
    slice expression is always within the bounds of the identifier. *)
Theorem suffix_text (id : string) :
  let num := strings.LastIndex id "_" in
  let text := strings.slice_from id (num + 1) in
  (0 <= num + 1 <= Z.of_nat (String.length id))%Z /\
  has_underscore text = false /\
  ((num = (-1)%Z /\ has_underscore id = false /\ text = id) \/
   (exists pre, num = Z.of_nat (String.length pre) /\ id = (pre ++ "_" ++ text)%string)).
Proof.
  cbv zeta. unfold strings.LastIndex, strings.slice_from.
  destruct (LastIndex_from_spec id 0 (-1)) as [[Hno ->] | (pre & rest & -> & Hrest & ->)].
  - cbn [Z.add Z.to_nat strings.drop]. repeat split; try lia; auto.
  - replace (Z.to_nat (0 + Z.of_nat (String.length pre) + 1)) with (String.length pre + 1)
      by lia.
    rewrite drop_app_length.
    change (strings.drop 1 ("_" ++ rest)%string) with rest.
    split; [|split; [exact Hrest|right; exists pre; split; [lia|reflexivity]]].
    rewrite !string_length_app. cbn [String.length]. lia.
Qed.

(** ** Filtering by order index and by type *)

Lemma filter_sublist {A : Type} (f : A -> bool) (l : list A) :
  sublist (List.filter f l) l.
Proof.
  induction l as [|x l IH]; cbn; [constructor|].
  destruct (f x); now constructor.
Qed.

Lemma GetWidgetsByOrder_loop_take (i : Z) (e : ExploreResponse) :
  forall out,
    exists k, GetWidgetsByOrder_loop e i out = out ++ List.filter (has_order i) (take k e).
Proof.
  induction e as [|v e IH]; intros out.
  - exists 0. cbn. now rewrite app_nil_r.
  - cbn [GetWidgetsByOrder_loop].
    assert (Hv : has_order i v
                 = negb (String.eqb (ID v) IntOverTimeWidgetID
                         || String.eqb (ID v) IntOverRegionID)
                   && match strconv.ParseInt
                              (strings.slice_from (ID v) (strings.LastIndex (ID v) "_" + 1)) 32
                      with
                      | Some val => (val =? i)%Z
                      | None => false
                      end) by reflexivity.
    destruct (String.eqb (ID v) IntOverTimeWidgetID || String.eqb (ID v) IntOverRegionID).
    + destruct (IH out) as [k Hk]. exists (S k). cbn [take List.filter].
      now rewrite Hv.
    + destruct (strconv.ParseInt _ 32) as [val|].
      * destruct (val =? i)%Z.
        -- destruct (IH (out ++ [v])) as [k Hk]. exists (S k). cbn [take List.filter].
           rewrite Hv, Hk. cbn [negb andb]. now rewrite <- app_assoc.
        -- destruct (IH out) as [k Hk]. exists (S k). cbn [take List.filter].
           now rewrite Hv.
      * exists 0. cbn. now rewrite app_nil_r.
Qed.

(** X2.  Whatever the collection, [GetWidgetsByOrder i] returns widgets of
    the collection in their original order, and each of them has an
    identifier other than ["TIMESERIES"] and ["GEO_MAP"] whose text after the
    last underscore is the number [i]. *)
Theorem GetWidgetsByOrder_sound (e : ExploreResponse) (i : Z) :
  sublist (GetWidgetsByOrder e i) e /\
  forall v, In v (GetWidgetsByOrder e i) ->
            ID v <> IntOverTimeWidgetID /\ ID v <> IntOverRegionID /\
            order_suffix (ID v) = Some i.
Proof.
  destruct (GetWidgetsByOrder_loop_take i e []) as [k Hk].
  unfold GetWidgetsByOrder. rewrite Hk. cbn [app]. split.
  - etransitivity; [apply filter_sublist|apply sublist_take].
  - intros v Hv. apply List.filter_In in Hv as [_ Hv].
    unfold has_order, unsuffixed_type in Hv.
    apply andb_true_iff in Hv as [Htype Hord].
    apply negb_true_iff, orb_false_iff in Htype as [H1 H2].
    apply String.eqb_neq in H1, H2.
    destruct (order_suffix (ID v)) as [val|]; [|discriminate].
    apply Z.eqb_eq in Hord. subst val. auto.
Qed.

Lemma GetWidgetsByType_loop_filter (t : string) (e : ExploreResponse) :
  forall out,
    GetWidgetsByType_loop e t out
    = out ++ List.filter (fun v => strings.Contains (ID v) t) e.
Proof.
  induction e as [|v e IH]; intros out; cbn [GetWidgetsByType_loop List.filter].
  - now rewrite app_nil_r.
  - destruct (strings.Contains (ID v) t); rewrite IH; [|reflexivity].
    now rewrite <- app_assoc.
Qed.

Lemma filter_filter_comm {A : Type} (f g : A -> bool) (l : list A) :
  List.filter f (List.filter g l) = List.filter g (List.filter f l).
Proof.
  induction l as [|x l IH]; [reflexivity|]. cbn [List.filter].
  destruct (f x) eqn:Hf, (g x) eqn:Hg; cbn [List.filter]; rewrite ?Hf, ?Hg, IH; reflexivity.
Qed.

Lemma Forall_filter_keep {A : Type} (P : A -> Prop) (f : A -> bool) (l : list A) :
  Forall P l -> Forall P (List.filter f l).
Proof.
  induction 1 as [|x l Hx _ IH]; cbn [List.filter]; [constructor|].
  destruct (f x); [constructor|]; assumption.
Qed.

Lemma GetWidgetsByOrder_filter (e : ExploreResponse) (i : Z) :
  Forall (fun w => unparsable w = false) e ->
  GetWidgetsByOrder e i = List.filter (has_order i) e.
Proof.
  intros He. unfold GetWidgetsByOrder.
  rewrite <- (app_nil_r e) at 1.
  now rewrite GetWidgetsByOrder_loop_app.
Qed.

(** X3.  [GetWidgetsByType t] returns exactly the widgets whose identifier
    contains [t], in their original order.  On a collection in which every
    identifier other than ["TIMESERIES"] and ["GEO_MAP"] ends in a number, the
    filter by type and the filter by order index can be applied in either
    order. *)
Theorem GetWidgetsByType_spec (e : ExploreResponse) (t : string) :
  GetWidgetsByType e t = List.filter (fun v => strings.Contains (ID v) t) e /\
  forall i : Z,
    Forall (fun w => unparsable w = false) e ->
    GetWidgetsByOrder (GetWidgetsByType e t) i = GetWidgetsByType (GetWidgetsByOrder e i) t.
Proof.
  assert (Hfilter : forall e', GetWidgetsByType e' t
                               = List.filter (fun v => strings.Contains (ID v) t) e').
  { intros e'. apply (GetWidgetsByType_loop_filter t e' []). }
  split; [apply Hfilter|].
  intros i He. rewrite !Hfilter.
  rewrite (GetWidgetsByOrder_filter e i He).
  rewrite (GetWidgetsByOrder_filter _ i (Forall_filter_keep _ _ e He)).
  apply filter_filter_comm.
Qed.

Lemma GetWidgetsByType_spec_witness :
  GetWidgetsByOrder (GetWidgetsByType sort_test_input RelatedQueriesID) 1
  = GetWidgetsByType (GetWidgetsByOrder sort_test_input 1) RelatedQueriesID.
Proof.
  apply (proj2 (GetWidgetsByType_spec sort_test_input RelatedQueriesID) 1%Z).
  repeat constructor.
Defined.

(** ** The order of the widgets without number after sorting *)

Lemma plain_Less (x y : ExploreWidget) :
  plain x = true -> Less_ID (ID x) (ID y) = true.
Proof.
  unfold plain. rewrite Less_ID_suffix.
  destruct (suffix_of (ID x)); [reflexivity|discriminate|discriminate].
Qed.

Lemma odd_not_Less (x y : ExploreWidget) :
  odd_suffix x = true -> Less_ID (ID x) (ID y) = false -> plain y = true.
Proof.
  unfold odd_suffix, plain. rewrite Less_ID_suffix.
  destruct (suffix_of (ID x)); try discriminate.
  now destruct (suffix_of (ID y)).
Qed.

Lemma below_plain (y z : ExploreWidget) : plain y = true -> widget_le z y -> plain z = true.
Proof.
  unfold plain, widget_le.
  destruct (suffix_of (ID y)); try discriminate.
  now destruct (suffix_of (ID z)).
Qed.

Lemma filter_none {A : Type} (f : A -> bool) (l : list A) :
  (forall z, In z l -> f z = false) -> List.filter f l = [].
Proof.
  induction l as [|x l IH]; intros H; [reflexivity|].
  cbn [List.filter]. rewrite (H x (or_introl eq_refl)).
  apply IH. intros z Hz. apply H. now right.
Qed.

Lemma insert_right_plain (x : ExploreWidget) (rp : ExploreResponse) :
  List.filter plain (rev (insert_right x rp))
  = (if plain x then [x] else []) ++ List.filter plain (rev rp).
Proof.
  induction rp as [|y rp IH].
  - cbn. destruct (plain x); reflexivity.
  - cbn [insert_right]. destruct (Less_ID (ID x) (ID y)) eqn:Hless.
    + cbn [rev]. rewrite !List.filter_app, IH. now rewrite <- app_assoc.
    + destruct (plain x) eqn:Hx.
      * now rewrite (plain_Less x y Hx) in Hless.
      * change (rev (x :: y :: rp)) with (rev (y :: rp) ++ [x]).
        rewrite List.filter_app. cbn [List.filter]. rewrite Hx. now rewrite app_nil_r.
Qed.

Lemma insert_right_odd (x : ExploreWidget) (rp : ExploreResponse) :
  StronglySorted (flip widget_le) rp ->
  List.filter odd_suffix (rev (insert_right x rp))
  = (if odd_suffix x then [x] else []) ++ List.filter odd_suffix (rev rp).
Proof.
  induction 1 as [|y rp Hrp IH Hy].
  - cbn. destruct (odd_suffix x); reflexivity.
  - cbn [insert_right]. destruct (Less_ID (ID x) (ID y)) eqn:Hless.
    + cbn [rev]. rewrite !List.filter_app, IH. now rewrite <- app_assoc.
    + change (rev (x :: y :: rp)) with (rev (y :: rp) ++ [x]).
      rewrite List.filter_app. cbn [List.filter].
      destruct (odd_suffix x) eqn:Hx; [|now rewrite app_nil_r].
      assert (Hplain : plain y = true) by (eapply odd_not_Less; eassumption).
      assert (Hnone : List.filter odd_suffix (rev (y :: rp)) = []).
      { rewrite List.filter_rev.
        replace (List.filter odd_suffix (y :: rp)) with (@nil ExploreWidget); [reflexivity|].
        symmetry. apply filter_none. intros z [<- | Hz].
        - unfold odd_suffix, plain in *. now destruct (suffix_of (ID y)).
        - rewrite Forall_forall in Hy. apply list_elem_of_In, Hy in Hz.
          pose proof (below_plain y z Hplain Hz) as Hpz.
          unfold odd_suffix, plain in *. now destruct (suffix_of (ID z)). }
      now rewrite Hnone.
Qed.

Lemma fold_insert_right_plain (e : ExploreResponse) :
  forall rp,
    List.filter plain (rev (fold_left (fun rp x => insert_right x rp) e rp))
    = rev (List.filter plain e) ++ List.filter plain (rev rp).
Proof.
  induction e as [|x e IH]; intros rp; [reflexivity|].
  cbn [fold_left List.filter]. rewrite IH, insert_right_plain.
  destruct (plain x); cbn [rev app]; [now rewrite <- app_assoc|reflexivity].
Qed.

Lemma fold_insert_right_odd (e : ExploreResponse) :
  forall rp,
    StronglySorted (flip widget_le) rp ->
    List.filter odd_suffix (rev (fold_left (fun rp x => insert_right x rp) e rp))
    = rev (List.filter odd_suffix e) ++ List.filter odd_suffix (rev rp).
Proof.
  induction e as [|x e IH]; intros rp Hrp; [reflexivity|].
  cbn [fold_left List.filter].
  rewrite IH by now apply insert_right_sorted.
  rewrite insert_right_odd by assumption.
  destruct (odd_suffix x); cbn [rev app]; [now rewrite <- app_assoc|reflexivity].
Qed.

(** In a sorted collection the identifiers without underscore come first,
    then those with an underscore and no number, then the numbered ones. *)
Lemma sorted_three_groups (l : ExploreResponse) :
  StronglySorted widget_le l ->
  l = List.filter plain l ++ List.filter odd_suffix l
        ++ List.filter (fun w => negb (unnumbered w)) l.
Proof.
  induction 1 as [|y l Hl IH Hy]; [reflexivity|].
  assert (Hodd : odd_suffix y = true -> List.filter plain l = []).
  { intros Hodd. apply filter_none. intros z Hz.
    rewrite Forall_forall in Hy. apply list_elem_of_In, Hy in Hz.
    unfold odd_suffix, plain, widget_le in *.
    destruct (suffix_of (ID y)); try discriminate. now destruct (suffix_of (ID z)). }
  assert (Hnum : unnumbered y = false ->
                 List.filter plain l = [] /\ List.filter odd_suffix l = []).
  { intros Hnum. split; apply filter_none; intros z Hz;
      rewrite Forall_forall in Hy; apply list_elem_of_In, Hy in Hz;
      unfold unnumbered, odd_suffix, plain, widget_le in *;
      destruct (suffix_of (ID y)); try discriminate; now destruct (suffix_of (ID z)). }
  cbn [List.filter].
  assert (Hy3 : (plain y, odd_suffix y, unnumbered y)
                = match suffix_of (ID y) with
                  | NoUnderscore => (true, false, true)
                  | BadSuffix => (false, true, true)
                  | Numbered _ => (false, false, false)
                  end)
    by (unfold plain, odd_suffix, unnumbered; now destruct (suffix_of (ID y))).
  destruct (suffix_of (ID y)); injection Hy3 as Hp Ho Hu; rewrite Hp, Ho, Hu;
    cbn [negb app].
  - now rewrite <- IH.
  - rewrite (Hodd Ho) in IH |- *. cbn [app] in *. now rewrite <- IH.
  - destruct (Hnum Hu) as [H1 H2]. rewrite H1, H2 in IH |- *. cbn [app] in *.
    now rewrite <- IH.
Qed.

(** X4.  Sorting a collection of at most 12 widgets reverses the order of
    the widgets whose identifier has no underscore, and the order of those
    whose identifier has an underscore that is not followed by a number;
    the first group comes first, the second next, the numbered widgets
    last. *)
Theorem Sort_reverses_unnumbered (Next : Z -> Z) (e e' : ExploreResponse) :
  Len e <= 12 ->
  Sort Next e = Some e' ->
  List.filter plain e' = rev (List.filter plain e) /\
  List.filter odd_suffix e' = rev (List.filter odd_suffix e) /\
  e' = rev (List.filter plain e) ++ rev (List.filter odd_suffix e)
         ++ List.filter (fun w => negb (unnumbered w)) e'.
Proof.
  intros Hlen. rewrite (Sort_small Next e Hlen).
  intros [= <-]. rewrite insertionSort_fold.
  set (e' := rev (fold_left (fun rp x => insert_right x rp) e [])).
  assert (H1 : List.filter plain e' = rev (List.filter plain e)).
  { subst e'. rewrite fold_insert_right_plain. apply app_nil_r. }
  assert (H2 : List.filter odd_suffix e' = rev (List.filter odd_suffix e)).
  { subst e'. rewrite fold_insert_right_odd by constructor. apply app_nil_r. }
  split; [exact H1|]. split; [exact H2|].
  rewrite <- H1, <- H2. apply sorted_three_groups.
  subst e'. apply StronglySorted_rev, isort_sorted. constructor.
Qed.

Lemma Sort_reverses_unnumbered_witness :
  List.filter plain (List.map widget ["A"; "TIMESERIES"; "B_x"; "GEO_MAP"; "X_1"])
  = rev (List.filter plain (List.map widget ["GEO_MAP"; "TIMESERIES"; "X_1"; "A"; "B_x"])) /\
  List.filter odd_suffix (List.map widget ["A"; "TIMESERIES"; "B_x"; "GEO_MAP"; "X_1"])
  = rev (List.filter odd_suffix
           (List.map widget ["GEO_MAP"; "TIMESERIES"; "X_1"; "A"; "B_x"])).
Proof.
  destruct (Sort_reverses_unnumbered (fun random => random)
              (List.map widget ["GEO_MAP"; "TIMESERIES"; "X_1"; "A"; "B_x"])
              (List.map widget ["A"; "TIMESERIES"; "B_x"; "GEO_MAP"; "X_1"]))
    as (H1 & H2 & _).
  - vm_compute. lia.
  - vm_compute. reflexivity.
  - split; assumption.
Defined.

(** ** Further properties of the transport *)

Section TransportMore.
Context {Ctx Sender : Type}.
Variable Do : Sender -> HTTPRequest Ctx -> Sender * (error + HTTPResponse).
Variable url_check : URL -> option error.

Lemma do_send (c : gClient) (s : Sender) (ctx : Ctx) (u : URL) :
  url_check u = None ->
  do Do url_check c s (Some ctx) u = send Do c s (do_request c ctx u).
Proof. intros Hu. unfold do, NewRequestWithContext. now rewrite Hu. Qed.

Lemma doPost_send (c : gClient) (s : Sender) (ctx : Ctx) (u : URL) (payload : string) :
  url_check u = None ->
  doPost Do url_check c s (Some ctx) u payload
  = send Do c s (doPost_request c ctx u payload).
Proof. intros Hu. unfold doPost, NewRequestWithContext. now rewrite Hu. Qed.

(** The ways [send] can end. *)
Lemma send_cases (c : gClient) (s : Sender) (r : HTTPRequest Ctx) :
  (exists s1 err,
      Do s r = (s1, inl err) /\
      send Do c s r = {| out_client := c; out_sender := s1; out_sent := [r];
                         out_result := inl (Errorf_s_w errDoRequest err) |}) \/
  (exists s1 resp,
      Do s r = (s1, inr resp) /\ resp_StatusCode resp <> StatusTooManyRequests /\
      send Do c s r = {| out_client := c; out_sender := s1; out_sent := [r];
                         out_result := finish resp |}) \/
  (exists s1 resp,
      Do s r = (s1, inr resp) /\ resp_StatusCode resp = StatusTooManyRequests /\
      send Do c s r
      = {| out_client := set_cookie c (retry_cookie resp);
           out_sender := (Do s1 (retry_request r resp)).1;
           out_sent := [r; retry_request r resp];
           out_result := match (Do s1 (retry_request r resp)).2 with
                         | inl err => inl err
                         | inr resp' => finish resp'
                         end |}).
Proof.
  destruct (Do s r) as [s1 [err|resp]] eqn:HDo.
  - left. exists s1, err. split; [reflexivity|]. now apply send_error.
  - right. destruct (Z.eq_dec (resp_StatusCode resp) StatusTooManyRequests) as [H|H].
    + right. exists s1, resp. repeat split; [exact H|]. now apply send_429.
    + left. exists s1, resp. repeat split; [exact H|]. now apply send_other.
Qed.

(** The ways [do] and [doPost] can end without a send. *)
Lemma operation_cases (c : gClient) (s : Sender) (ctx : option Ctx) (u : URL)
      (payload : string) (o : outcome Ctx Sender) :
  o = do Do url_check c s ctx u \/ o = doPost Do url_check c s ctx u payload ->
  (exists err,
      (ctx = None /\ err = errors_New "net/http: nil Context" \/
       ctx <> None /\ url_check u = Some err) /\
      o = {| out_client := c; out_sender := s; out_sent := [];
             out_result := inl (Errorf_s_w errCreateRequest err) |}) \/
  (exists x r, ctx = Some x /\ url_check u = None /\ o = send Do c s r /\
               (r = do_request c x u \/ r = doPost_request c x u payload)).
Proof.
  unfold do, doPost, NewRequestWithContext.
  intros [-> | ->]; (destruct ctx as [x|]; [destruct (url_check u) as [err|] eqn:Hu|]);
    try (left; eexists; split; [|reflexivity]; auto; right; split; auto; discriminate);
    right; exists x; eexists; repeat split; auto.
Qed.
(** What [with_cookie] adds to a request without [Cookie] header. *)
Lemma with_cookie_shape (c : gClient) (r0 : HTTPRequest Ctx) :
  req_Header r0 !! headerKeyCookie = None ->
  req_Method (with_cookie c r0) = req_Method r0 /\
  req_URL (with_cookie c r0) = req_URL r0 /\
  req_Body (with_cookie c r0) = req_Body r0 /\
  req_ctx (with_cookie c r0) = req_ctx r0 /\
  (forall k, k <> headerKeyCookie ->
             req_Header (with_cookie c r0) !! k = req_Header r0 !! k) /\
  req_Header (with_cookie c r0) !! headerKeyCookie = cookie_header c.
Proof.
  intros Hr0. unfold with_cookie, cookie_header.
  destruct (String.length (cookie c) =? 0)%nat; cbn [negb].
  - repeat split; auto.
  - cbn. repeat split.
    + intros k Hk. unfold Header.Add. now rewrite lookup_insert_ne.
    + unfold Header.Add. rewrite lookup_insert_eq, Hr0. reflexivity.
Qed.

(** [send] always hands its request to the sender first. *)
Lemma send_first (c : gClient) (s : Sender) (r : HTTPRequest Ctx) :
  exists rest, out_sent (send Do c s r) = r :: rest.
Proof.
  destruct (send_cases c s r)
    as [(s1 & err & _ & ->) | [(s1 & resp & _ & _ & ->) | (s1 & resp & _ & _ & ->)]];
    eexists; reflexivity.
Qed.

(** The [Cookie] header of the first request of an operation. *)
Lemma first_request_cookie (c : gClient) (s : Sender) (ctx : Ctx) (u : URL)
      (payload : string) (o : outcome Ctx Sender) :
  url_check u = None ->
  o = do Do url_check c s (Some ctx) u \/ o = doPost Do url_check c s (Some ctx) u payload ->
  exists r rest, out_sent o = r :: rest /\
                 req_Header r !! headerKeyCookie = cookie_header c.
Proof.
  intros Hu [-> | ->].
  - rewrite (do_send c s ctx u Hu). unfold do_request.
    match goal with |- context [with_cookie c ?r0] =>
      destruct (with_cookie_shape c r0 eq_refl) as (_ & _ & _ & _ & _ & Hck);
      destruct (send_first c s (with_cookie c r0)) as [rest Hsent]
    end.
    eexists _, rest. split; [exact Hsent|exact Hck].
  - rewrite (doPost_send c s ctx u payload Hu). unfold doPost_request.
    match goal with |- context [with_cookie c ?r0] =>
      destruct (with_cookie_shape c r0 eq_refl) as (_ & _ & _ & _ & _ & Hck);
      destruct (send_first c s (with_cookie c r0)) as [rest Hsent]
    end.
    eexists _, rest. split; [exact Hsent|exact Hck].
Qed.
End TransportMore.

Section TransportProperties.
Context {Ctx Sender : Type}.
Variable Do : Sender -> HTTPRequest Ctx -> Sender * (error + HTTPResponse).
Variable url_check : URL -> option error.

(** X5.  A GET or POST operation hands at most two requests to the sender,
    and two only when the answer to the first had status 429. *)
Theorem at_most_two_sends (c : gClient) (s : Sender) (ctx : option Ctx) (u : URL)
        (payload : string) (o : outcome Ctx Sender) :
  o = do Do url_check c s ctx u \/ o = doPost Do url_check c s ctx u payload ->
  length (out_sent o) <= 2 /\
  (length (out_sent o) = 2 ->
   exists r s1 resp, head (out_sent o) = Some r /\ Do s r = (s1, inr resp) /\
                     resp_StatusCode resp = StatusTooManyRequests).
Proof.
  intros Ho.
  destruct (operation_cases Do url_check c s ctx u payload o Ho)
    as [(err & _ & ->) | (x & r & _ & _ & -> & _)].
  - cbn. split; [lia|discriminate].
  - destruct (send_cases Do c s r)
      as [(s1 & err & _ & ->) | [(s1 & resp & _ & _ & ->) | (s1 & resp & HDo & H & ->)]];
      cbn; (split; [lia|]); try discriminate.
    intros _. exists r, s1, resp. auto.
Qed.

(** X6.  Without a context, or with a URL that does not parse, the operation
    fails with the "failed to create request" error around the cause and
    the sender is not called. *)
Theorem request_creation_failure (c : gClient) (s : Sender) (ctx : option Ctx) (u : URL)
        (payload : string) (o : outcome Ctx Sender) :
  o = do Do url_check c s ctx u \/ o = doPost Do url_check c s ctx u payload ->
  ctx = None \/ url_check u <> None ->
  exists err,
    out_result o = inl (Errorf_s_w errCreateRequest err) /\
    Error (Errorf_s_w errCreateRequest err)
    = ("failed to create request: " ++ Error err)%string /\
    out_sent o = [] /\ out_sender o = s /\ out_client o = c.
Proof.
  intros Ho Hbad.
  destruct (operation_cases Do url_check c s ctx u payload o Ho)
    as [(err & _ & ->) | (x & r & Hctx & Hu & _)].
  - exists err. cbn. auto.
  - destruct Hbad; congruence.
Qed.

(** X7.  When the first answer has status 200 and its body can be read, the
    operation returns the body after that one call and leaves the client as
    it was. *)
Theorem success_returns_body (c : gClient) (s s1 : Sender) (ctx : option Ctx) (u : URL)
        (payload : string) (o : outcome Ctx Sender) (r : HTTPRequest Ctx)
        (rest : list (HTTPRequest Ctx)) (resp : HTTPResponse) :
  o = do Do url_check c s ctx u \/ o = doPost Do url_check c s ctx u payload ->
  out_sent o = r :: rest ->
  Do s r = (s1, inr resp) ->
  resp_StatusCode resp = StatusOK ->
  resp_BodyErr resp = None ->
  out_result o = inr (resp_Body resp) /\
  out_sent o = [r] /\ out_sender o = s1 /\ out_client o = c.
Proof.
  intros Ho Hsent HDo Hcode Hbody.
  rewrite (first_request Do url_check c s ctx u payload o r rest Ho Hsent).
  rewrite (send_other Do c s s1 r resp HDo) by (rewrite Hcode; discriminate).
  cbn. unfold finish. rewrite Hcode, Hbody. cbn. auto.
Qed.

(** X8.  The first request of [do] is a GET for the URL with the [Accept]
    header of JSON and an empty body, that of [doPost] a POST with the form
    content type and the payload as body; either carries a [Cookie] header
    exactly when the client has a cookie stored, with that cookie as its
    one value. *)
Theorem first_request_shape (c : gClient) (s : Sender) (ctx : Ctx) (u : URL)
        (payload : string) :
  url_check u = None ->
  (exists r rest,
      out_sent (do Do url_check c s (Some ctx) u) = r :: rest /\
      req_Method r = "GET" /\ req_URL r = u /\ req_Body r = "" /\ req_ctx r = ctx /\
      req_Header r !! headerKeyAccept = Some [contentTypeJSON] /\
      req_Header r !! headerKeyCookie = cookie_header c) /\
  (exists r rest,
      out_sent (doPost Do url_check c s (Some ctx) u payload) = r :: rest /\
      req_Method r = "POST" /\ req_URL r = u /\ req_Body r = payload /\ req_ctx r = ctx /\
      req_Header r !! headerKeyContentType = Some [contentTypeForm] /\
      req_Header r !! headerKeyCookie = cookie_header c).
Proof.
  intros Hu. split.
  - rewrite (do_send Do url_check c s ctx u Hu). unfold do_request.
    match goal with |- context [with_cookie c ?r0] =>
      destruct (with_cookie_shape c r0 eq_refl) as (Hm & HU & Hb & Hc & Hk & Hck);
      destruct (send_first Do c s (with_cookie c r0)) as [rest Hsent]
    end.
    eexists _, rest. split; [exact Hsent|].
    repeat split; try assumption.
    rewrite Hk by discriminate. reflexivity.
  - rewrite (doPost_send Do url_check c s ctx u payload Hu). unfold doPost_request.
    match goal with |- context [with_cookie c ?r0] =>
      destruct (with_cookie_shape c r0 eq_refl) as (Hm & HU & Hb & Hc & Hk & Hck);
      destruct (send_first Do c s (with_cookie c r0)) as [rest Hsent]
    end.
    eexists _, rest. split; [exact Hsent|].
    repeat split; try assumption.
    rewrite Hk by discriminate. reflexivity.
Qed.

(** X9.  An operation never changes the debug switch of the client, and it
    changes the stored cookie only when the answer to its first request had
    status 429; the cookie is then the one taken from that answer. *)
Theorem client_changes_only_on_429 (c : gClient) (s : Sender) (ctx : option Ctx) (u : URL)
        (payload : string) (o : outcome Ctx Sender) :
  o = do Do url_check c s ctx u \/ o = doPost Do url_check c s ctx u payload ->
  debug (out_client o) = debug c /\
  (out_client o = c \/
   exists r s1 resp,
     head (out_sent o) = Some r /\ Do s r = (s1, inr resp) /\
     resp_StatusCode resp = StatusTooManyRequests /\
     out_client o = set_cookie c (retry_cookie resp)).
Proof.
  intros Ho.
  destruct (operation_cases Do url_check c s ctx u payload o Ho)
    as [(err & _ & ->) | (x & r & _ & _ & -> & _)]; [cbn; auto|].
  destruct (send_cases Do c s r)
    as [(s1 & err & _ & ->) | [(s1 & resp & _ & _ & ->) | (s1 & resp & HDo & H & ->)]];
    cbn; auto.
  split; [reflexivity|]. right. exists r, s1, resp. auto.
Qed.

(** X10.  When the errors of the sender, of the body and of the URL check
    are not themselves [ErrRequestFailed], the error of an operation is
    [ErrRequestFailed] for [errors.Is] exactly when it reports a final
    status other than 200, with the code and the status text. *)
Theorem request_failed_iff_status (c : gClient) (s : Sender) (ctx : option Ctx) (u : URL)
        (payload : string) (o : outcome Ctx Sender) (e : error) :
  (forall s0 r0 s1 err, Do s0 r0 = (s1, inl err) -> errors_Is_ErrRequestFailed err = false) ->
  (forall s0 r0 s1 resp err,
      Do s0 r0 = (s1, inr resp) -> resp_BodyErr resp = Some err ->
      errors_Is_ErrRequestFailed err = false) ->
  (forall err, url_check u = Some err -> errors_Is_ErrRequestFailed err = false) ->
  o = do Do url_check c s ctx u \/ o = doPost Do url_check c s ctx u payload ->
  out_result o = inl e ->
  (errors_Is_ErrRequestFailed e = true <->
   exists code status,
     e = Errorf_w_reqData ErrRequestFailed code status /\ code <> StatusOK).
Proof.
  intros Hsender Hbody Hurl Ho Hres.
  assert (Hfinish : forall s0 r0 s1 resp,
             Do s0 r0 = (s1, inr resp) -> finish resp = inl e ->
             errors_Is_ErrRequestFailed e = true <->
             exists code status,
               e = Errorf_w_reqData ErrRequestFailed code status /\ code <> StatusOK).
  { intros s0 r0 s1 resp HDo. unfold finish.
    destruct (Z.eqb_spec (resp_StatusCode resp) StatusOK) as [H200|H200]; cbn [negb].
    - destruct (resp_BodyErr resp) as [err|] eqn:Herr; [|discriminate].
      intros [= <-]. rewrite (Hbody _ _ _ _ _ HDo Herr).
      split; [discriminate|]. intros (code & status & -> & _).
      now rewrite <- (Hbody _ _ _ _ _ HDo Herr).
    - intros [= <-]. split; [|reflexivity]. intros _. eauto. }
  assert (Hbare : forall err, errors_Is_ErrRequestFailed err = false ->
                              e = err ->
                              errors_Is_ErrRequestFailed e = true <->
                              exists code status,
                                e = Errorf_w_reqData ErrRequestFailed code status /\
                                code <> StatusOK).
  { intros err Herr ->. rewrite Herr. split; [discriminate|].
    intros (code & status & -> & _). discriminate. }
  assert (Hwrapped : forall msg err, errors_Is_ErrRequestFailed err = false ->
                                     e = Errorf_s_w msg err ->
                                     errors_Is_ErrRequestFailed e = true <->
                                     exists code status,
                                       e = Errorf_w_reqData ErrRequestFailed code status /\
                                       code <> StatusOK).
  { intros msg err Herr ->. cbn. rewrite Herr. split; [discriminate|].
    intros (code & status & [=] & _). }
  destruct (operation_cases Do url_check c s ctx u payload o Ho)
    as [(err & Hwhy & ->) | (x & r & _ & _ & -> & _)].
  - cbn in Hres. injection Hres as <-.
    apply (Hwrapped errCreateRequest err); [|reflexivity].
    destruct Hwhy as [[_ ->] | [_ Hwhy]]; [reflexivity|now apply Hurl].
  - destruct (send_cases Do c s r)
      as [(s1 & err & HDo & Heq) | [(s1 & resp & HDo & _ & Heq)
         | (s1 & resp & HDo & _ & Heq)]];
      rewrite Heq in Hres; cbn [out_result] in Hres.
    + injection Hres as <-. eapply Hwrapped; [|reflexivity]. eapply Hsender; eassumption.
    + eapply Hfinish; eassumption.
    + destruct (Do s1 (retry_request r resp)) as [s2 [err|resp']] eqn:HDo2;
        cbn [out_result fst snd] in Hres.
      * injection Hres as <-. eapply Hbare; [|reflexivity]. eapply Hsender; exact HDo2.
      * eapply Hfinish; [exact HDo2|exact Hres].
Qed.

(** X11.  A cookie captured from a 429 answer is sent along at once by the
    next operation of the client. *)
Theorem cookie_is_replayed (c : gClient) (s s1 : Sender) (ctx : option Ctx) (u : URL)
        (payload : string) (o : outcome Ctx Sender) (r : HTTPRequest Ctx)
        (rest : list (HTTPRequest Ctx)) (resp : HTTPResponse)
        (s' : Sender) (ctx' : Ctx) (u' : URL) (payload' : string)
        (o' : outcome Ctx Sender) :
  o = do Do url_check c s ctx u \/ o = doPost Do url_check c s ctx u payload ->
  out_sent o = r :: rest ->
  Do s r = (s1, inr resp) ->
  resp_StatusCode resp = StatusTooManyRequests ->
  retry_cookie resp <> "" ->
  url_check u' = None ->
  o' = do Do url_check (out_client o) s' (Some ctx') u' \/
  o' = doPost Do url_check (out_client o) s' (Some ctx') u' payload' ->
  exists r' rest',
    out_sent o' = r' :: rest' /\
    req_Header r' !! headerKeyCookie = Some [retry_cookie resp].
Proof.
  intros Ho Hsent HDo Hcode Hcookie Hu' Ho'.
  destruct (first_request_cookie Do url_check (out_client o) s' ctx' u' payload' o' Hu' Ho')
    as (r' & rest' & Hsent' & Hck).
  exists r', rest'. split; [exact Hsent'|]. rewrite Hck.
  rewrite (first_request Do url_check c s ctx u payload o r rest Ho Hsent).
  rewrite (send_429 Do c s s1 r resp HDo Hcode). unfold cookie_header. cbn.
  destruct (retry_cookie resp); [contradiction|reflexivity].
Qed.

(** X12.  The request that is sent again after a 429 answer is the first
    request with its [Cookie] header replaced by a single value; method,
    URL, body, context and the other headers are the same. *)
Theorem resend_same_request (c : gClient) (s : Sender) (ctx : option Ctx) (u : URL)
        (payload : string) (o : outcome Ctx Sender) (r r' : HTTPRequest Ctx) :
  o = do Do url_check c s ctx u \/ o = doPost Do url_check c s ctx u payload ->
  out_sent o = [r; r'] ->
  req_Method r' = req_Method r /\ req_URL r' = req_URL r /\ req_Body r' = req_Body r /\
  req_ctx r' = req_ctx r /\
  (forall k, k <> headerKeyCookie -> req_Header r' !! k = req_Header r !! k) /\
  req_Header r' !! headerKeyCookie = Some [cookie (out_client o)].
Proof.
  intros Ho Hsent.
  rewrite (first_request Do url_check c s ctx u payload o r [r'] Ho Hsent) in Hsent |- *.
  destruct (send_cases Do c s r)
    as [(s1 & err & _ & Heq) | [(s1 & resp & _ & _ & Heq) | (s1 & resp & _ & _ & Heq)]];
    rewrite Heq in Hsent |- *; cbn in Hsent; try discriminate.
  injection Hsent as <-. cbn. repeat split.
  - intros k Hk. unfold Header.Set_. now rewrite lookup_insert_ne.
  - unfold Header.Set_. apply lookup_insert_eq.
Qed.
End TransportProperties.

Lemma at_most_two_sends_witness :
  length (out_sent (do scripted no_url_error newGClient tooManyRequests_script (Some tt)
                       test_URL)) <= 2.
Proof.
  apply (at_most_two_sends scripted no_url_error newGClient tooManyRequests_script
                           (Some tt) test_URL "" _ (or_introl eq_refl)).
Defined.

Lemma request_creation_failure_witness :
  exists err,
    out_result (doPost scripted no_url_error newGClient answer_200 None test_URL "x")
    = inl (Errorf_s_w errCreateRequest err) /\
    out_sender (doPost scripted no_url_error newGClient answer_200 None test_URL "x")
    = answer_200.
Proof.
  destruct (request_creation_failure scripted no_url_error newGClient answer_200 None
              test_URL "x" _ (or_intror eq_refl) (or_introl eq_refl))
    as (err & Hres & _ & _ & Hsender & _).
  exists err. split; assumption.
Defined.

Lemma first_request_shape_witness :
  exists r rest,
    out_sent (do scripted no_url_error {| cookie := "abc=1"; debug := false |} answer_200
                 (Some tt) test_URL) = r :: rest /\
    req_Header r !! headerKeyCookie = Some ["abc=1"].
Proof.
  destruct (proj1 (first_request_shape scripted no_url_error
                     {| cookie := "abc=1"; debug := false |} answer_200 tt test_URL ""
                     eq_refl))
    as (r & rest & Hsent & _ & _ & _ & _ & _ & Hcookie).
  exists r, rest. split; [exact Hsent|exact Hcookie].
Defined.

Lemma success_returns_body_witness :
  out_result (do always_ok no_url_error newGClient 0 (Some tt) test_URL) = inr "ok" /\
  out_sender (do always_ok no_url_error newGClient 0 (Some tt) test_URL) = 1.
Proof.
  destruct (success_returns_body always_ok no_url_error newGClient 0 1 (Some tt) test_URL ""
              (do always_ok no_url_error newGClient 0 (Some tt) test_URL)
              test_request [] (newMockResponse StatusOK "ok"))
    as (Hres & _ & Hsender & _).
  - left. reflexivity.
  - vm_compute. reflexivity.
  - reflexivity.
  - reflexivity.
  - reflexivity.
  - split; assumption.
Defined.

Lemma client_changes_only_on_429_witness :
  debug (out_client (do scripted no_url_error newGClient tooManyRequests_script (Some tt)
                        test_URL)) = false.
Proof.
  apply (client_changes_only_on_429 scripted no_url_error newGClient tooManyRequests_script
           (Some tt) test_URL "" _ (or_introl eq_refl)).
Defined.

Lemma request_failed_iff_status_witness :
  errors_Is_ErrRequestFailed (Errorf_w_reqData ErrRequestFailed 500 "") = true <->
  exists code status,
    Errorf_w_reqData ErrRequestFailed 500 "" = Errorf_w_reqData ErrRequestFailed code status /\
    code <> StatusOK.
Proof.
  apply (request_failed_iff_status always_500 no_url_error newGClient 0 (Some tt) test_URL ""
           (do always_500 no_url_error newGClient 0 (Some tt) test_URL)).
  - intros s0 r0 s1 err. discriminate.
  - intros s0 r0 s1 resp err [= _ <-]. discriminate.
  - intros err. discriminate.
  - left. reflexivity.
  - reflexivity.
Defined.

Lemma cookie_is_replayed_witness :
  exists r' rest',
    out_sent (doPost scripted no_url_error
                (out_client (do scripted no_url_error newGClient tooManyRequests_script
                                (Some tt) test_URL))
                answer_200 (Some tt) test_URL "x") = r' :: rest' /\
    req_Header r' !! headerKeyCookie = Some [retry_cookie tooManyRequests_answer].
Proof.
  apply (cookie_is_replayed scripted no_url_error newGClient tooManyRequests_script
           [inr (newMockResponse StatusOK "{'status': 'ok'}")] (Some tt) test_URL ""
           (do scripted no_url_error newGClient tooManyRequests_script (Some tt) test_URL)
           test_request [retry_request test_request tooManyRequests_answer]
           tooManyRequests_answer answer_200 tt test_URL "x").
  - left. reflexivity.
  - vm_compute. reflexivity.
  - reflexivity.
  - reflexivity.
  - vm_compute. discriminate.
  - reflexivity.
  - right. reflexivity.
Defined.

Lemma resend_same_request_witness :
  req_URL (retry_request test_request tooManyRequests_answer) = req_URL test_request.
Proof.
  apply (resend_same_request scripted no_url_error newGClient tooManyRequests_script
           (Some tt) test_URL ""
           (do scripted no_url_error newGClient tooManyRequests_script (Some tt) test_URL)
           test_request (retry_request test_request tooManyRequests_answer)).
  - left. reflexivity.
  - vm_compute. reflexivity.
Defined.

(** ** Further properties of the batch-response extractor *)

Section ExtractorProperties.
Variable decode : string -> error + json.

Lemma scan_lines_found (lines : list string) (l : list string) :
  scan_lines decode [] lines = inr l ->
  exists pre line post,
    lines = pre ++ line :: post /\
    Forall (fun x => line_topics decode x = []) pre /\
    line_topics decode line = l /\ l <> [].
Proof.
  induction lines as [|line lines IH]; [discriminate|].
  destruct (line_topics decode line) as [|t ts] eqn:E.
  - rewrite scan_lines_skip by assumption. intros H.
    destruct (IH H) as (pre & line' & post & -> & Hpre & Hline & Hne).
    exists (line :: pre), line', post. repeat split; auto.
  - rewrite scan_lines_hit by now rewrite E. intros [= <-].
    exists [], line, lines. rewrite E. repeat split; auto; try discriminate.
Qed.

(** X13.  The extractor succeeds exactly when some line yields topics; the
    result is then what the first such line yields, and it is never
    empty. *)
Theorem extract_success_iff (text : string) (l : list string) :
  extractJSONFromResponse decode text = inr l <->
  exists pre line post,
    strings.Split text newline = pre ++ line :: post /\
    Forall (fun x => line_topics decode x = []) pre /\
    line_topics decode line = l /\ l <> [].
Proof.
  unfold extractJSONFromResponse. split.
  - apply scan_lines_found.
  - intros (pre & line & post & -> & Hpre & <- & Hne). now apply scan_lines_first.
Qed.

(** X14.  Lines that, trimmed, do not start with [[] and end with []] are
    never looked into: the result is that of the scan of the other lines
    alone. *)
Theorem extract_ignores_other_lines (text : string) :
  extractJSONFromResponse decode text
  = scan_lines decode [] (List.filter bracketed (strings.Split text newline)).
Proof.
  unfold extractJSONFromResponse. generalize (@nil string) as result.
  induction (strings.Split text newline) as [|line lines IH]; intros result; [reflexivity|].
  cbn [scan_lines List.filter]. fold (bracketed line).
  destruct (bracketed line) eqn:Hb; [|apply IH].
  cbn [scan_lines]. fold (bracketed line). rewrite Hb.
  destruct (parseLine decode result (strings.TrimSpace line)) as [result' [perr|]];
    [apply IH|].
  destruct (Nat.ltb 0 (length result')); [reflexivity|apply IH].
Qed.

(** X15.  A line that decodes to an array of at most two entries, or to
    [null], yields nothing, whatever the entries are. *)
Theorem short_line_yields_nothing (line : string) (items : list json) :
  decode (strings.TrimSpace line) = inr (JArray items) \/
  (decode (strings.TrimSpace line) = inr JNull /\ items = []) ->
  length items <= 2 ->
  line_topics decode line = [] /\
  forall result, parseLine decode result (strings.TrimSpace line) = (result, None).
Proof.
  intros Hdec Hlen.
  assert (Hparse : forall result,
             parseLine decode result (strings.TrimSpace line) = (result, None)).
  { intros result. unfold parseLine, Unmarshal_slice.
    destruct Hdec as [-> | [-> ->]]; [|reflexivity].
    destruct (Nat.ltb_spec 2 (length items)); [lia|reflexivity]. }
  split; [|exact Hparse].
  unfold line_topics. destruct (_ && _); [|reflexivity]. now rewrite Hparse.
Qed.
End ExtractorProperties.

Lemma short_line_yields_nothing_witness :
  line_topics Json.decode golang_rust_alone = [].
Proof.
  apply (short_line_yields_nothing Json.decode golang_rust_alone
           [JArray [JString "wrb.fr"; JString "i0OFE"; JString golang_rust_inner;
                    JNull; JNull; JNull; JString "generic"]]).
  - left. vm_compute. reflexivity.
  - cbn. lia.
Defined.

(** ** Trending searches *)

Section SentShape.
Context {Ctx Sender : Type}.
Variable Do : Sender -> HTTPRequest Ctx -> Sender * (error + HTTPResponse).
Variable url_check : URL -> option error.

(** Every request handed to the sender is the first one, up to its
    [Cookie] header. *)
Lemma send_sent_shape (c : gClient) (s : Sender) (r q : HTTPRequest Ctx) :
  In q (out_sent (send Do c s r)) ->
  req_Method q = req_Method r /\ req_URL q = req_URL r /\ req_Body q = req_Body r /\
  req_ctx q = req_ctx r /\
  forall k, k <> headerKeyCookie -> req_Header q !! k = req_Header r !! k.
Proof.
  assert (Hretry : forall resp k, k <> headerKeyCookie ->
                                  req_Header (retry_request r resp) !! k = req_Header r !! k).
  { intros resp k Hk. cbn. unfold Header.Set_. now rewrite lookup_insert_ne. }
  destruct (send_cases Do c s r)
    as [(s1 & err & _ & ->) | [(s1 & resp & _ & _ & ->) | (s1 & resp & _ & _ & ->)]];
    cbn [out_sent]; intros Hq.
  - destruct Hq as [<- | []]. repeat split.
  - destruct Hq as [<- | []]. repeat split.
  - destruct Hq as [<- | [<- | []]]; repeat split. apply Hretry.
Qed.

Lemma doPost_sent_shape (c : gClient) (s : Sender) (ctx : option Ctx) (u : URL)
      (payload : string) (q : HTTPRequest Ctx) :
  In q (out_sent (doPost Do url_check c s ctx u payload)) ->
  req_Method q = "POST" /\ req_URL q = u /\ req_Body q = payload /\
  req_Header q !! headerKeyContentType = Some [contentTypeForm].
Proof.
  destruct (operation_cases Do url_check c s ctx u payload _ (or_intror eq_refl))
    as [(err & _ & ->) | (x & r & -> & Hu & Heq & _)]; [intros []|].
  rewrite (doPost_send Do url_check c s x u payload Hu). intros Hq.
  apply send_sent_shape in Hq as (Hm & HU & Hb & _ & Hk).
  unfold doPost_request in *.
  match type of Hm with context [with_cookie c ?r0] =>
    destruct (with_cookie_shape c r0 eq_refl) as (Hm0 & HU0 & Hb0 & _ & Hk0 & _)
  end.
  rewrite Hm, HU, Hb, Hm0, HU0, Hb0, Hk, Hk0 by discriminate.
  repeat split.
Qed.

Lemma do_sent_shape (c : gClient) (s : Sender) (ctx : option Ctx) (u : URL)
      (q : HTTPRequest Ctx) :
  In q (out_sent (do Do url_check c s ctx u)) ->
  req_Method q = "GET" /\ req_URL q = u /\ req_Body q = "" /\
  req_Header q !! headerKeyAccept = Some [contentTypeJSON].
Proof.
  destruct (operation_cases Do url_check c s ctx u "" _ (or_introl eq_refl))
    as [(err & _ & ->) | (x & r & -> & Hu & Heq & _)]; [intros []|].
  rewrite (do_send Do url_check c s x u Hu). intros Hq.
  apply send_sent_shape in Hq as (Hm & HU & Hb & _ & Hk).
  unfold do_request in *.
  match type of Hm with context [with_cookie c ?r0] =>
    destruct (with_cookie_shape c r0 eq_refl) as (Hm0 & HU0 & Hb0 & _ & Hk0 & _)
  end.
  rewrite Hm, HU, Hb, Hm0, HU0, Hb0, Hk, Hk0 by discriminate.
  repeat split.
Qed.
End SentShape.

Section Trending.
Context {Ctx Sender : Type}.
Variable Do : Sender -> HTTPRequest Ctx -> Sender * (error + HTTPResponse).
Variable url_check : URL -> option error.
Variable decode : string -> error + json.

(** The ways [trendsNew] can end. *)
Lemma trendsNew_cases (c : gClient) (s : Sender) (ctx : option Ctx) (hl loc : string) :
  let o := doPost Do url_check c s ctx {| url_Base := gBatchExecute; url_Query := ∅ |}
                  (trendsNew_payload loc) in
  trendsNew Do url_check decode c s ctx hl loc
  = after o (match out_result o with
             | inl err => inl err
             | inr data => extractJSONFromResponse decode data
             end).
Proof. cbv zeta. unfold trendsNew. now destruct (out_result _). Qed.

Lemma trendsNew_nonempty (c : gClient) (s : Sender) (ctx : option Ctx) (hl loc : string)
      (terms : list string) :
  ret_result (trendsNew Do url_check decode c s ctx hl loc) = inr terms -> terms <> [].
Proof.
  rewrite trendsNew_cases. cbn [after ret_result].
  destruct (out_result _) as [err|data]; [discriminate|].
  unfold extractJSONFromResponse. intros H.
  apply scan_lines_found in H as (_ & _ & _ & _ & _ & _ & Hne). exact Hne.
Qed.

Lemma lookup_map {A B : Type} (f : A -> B) (l : list A) (i : nat) :
  List.map f l !! i = option_map f (l !! i).
Proof.
  revert i. induction l as [|x l IH]; intros [|i]; cbn; auto.
Qed.

(** X16.  [trendsNew] talks to the batch endpoint only, by POST with the
    form content type and the payload built from the location; when it
    succeeds the list of terms is not empty. *)
Theorem trendsNew_request (c : gClient) (s : Sender) (ctx : option Ctx) (hl loc : string) :
  (forall q, In q (ret_sent (trendsNew Do url_check decode c s ctx hl loc)) ->
             req_Method q = "POST" /\
             req_URL q = {| url_Base := gBatchExecute; url_Query := ∅ |} /\
             req_Body q = trendsNew_payload loc /\
             req_Header q !! headerKeyContentType = Some [contentTypeForm]) /\
  (forall terms, ret_result (trendsNew Do url_check decode c s ctx hl loc) = inr terms ->
                 terms <> []).
Proof.
  split; [|apply trendsNew_nonempty].
  rewrite trendsNew_cases. cbn [after ret_sent].
  intros q Hq. now apply (doPost_sent_shape Do url_check) in Hq.
Qed.

(** X17.  [DailyNew] passes the error of [trendsNew] on unchanged and turns
    the terms, in order, into searches that carry the term as the query of
    their title and nothing else; on success there is at least one search.
    [Daily] is [DailyNew]. *)
Theorem DailyNew_result (c : gClient) (s : Sender) (ctx : option Ctx) (hl loc : string) :
  let t := trendsNew Do url_check decode c s ctx hl loc in
  let d := DailyNew Do url_check decode c s ctx hl loc in
  Daily Do url_check decode c s ctx hl loc = d /\
  ret_client d = ret_client t /\ ret_sender d = ret_sender t /\ ret_sent d = ret_sent t /\
  match ret_result t, ret_result d with
  | inl err, inl err' => err' = err
  | inr terms, inr searches =>
      searches <> [] /\
      length searches = length terms /\
      forall i term, terms !! i = Some term ->
                     exists x, searches !! i = Some x /\
                               ts_Title x = Some {| Query := term |} /\
                               FormattedTraffic x = "" /\ ts_Image x = None /\
                               Articles x = Some []
  | _, _ => False
  end.
Proof.
  cbv zeta. unfold Daily, DailyNew.
  pose proof (trendsNew_nonempty c s ctx hl loc) as Hne.
  destruct (ret_result (trendsNew Do url_check decode c s ctx hl loc)) as [err|terms];
    cbn; repeat split.
  - specialize (Hne terms eq_refl). destruct terms; [contradiction|discriminate].
  - apply length_map.
  - intros i term Hi. exists (search_of term). split; [|repeat split].
    now rewrite lookup_map, Hi.
Qed.

(** X18.  [DailyTrendingSearchNew] does what [DailyNew] does and wraps the
    searches into one day called ["Today"]; the errors are the same. *)
Theorem DailyTrendingSearchNew_result (c : gClient) (s : Sender) (ctx : option Ctx)
        (hl loc : string) :
  let d := DailyNew Do url_check decode c s ctx hl loc in
  let g := DailyTrendingSearchNew Do url_check decode c s ctx hl loc in
  ret_client g = ret_client d /\ ret_sender g = ret_sender d /\ ret_sent g = ret_sent d /\
  match ret_result d, ret_result g with
  | inl err, inl err' => err' = err
  | inr searches, inr days =>
      days = [{| FormattedDate := "Today"; Searches := Some (List.map Some searches) |}]
  | _, _ => False
  end.
Proof.
  cbv zeta. unfold DailyNew, DailyTrendingSearchNew.
  destruct (ret_result (trendsNew Do url_check decode c s ctx hl loc)) as [err|terms];
    cbn; repeat split.
  now rewrite List.map_map.
Qed.
End Trending.

(** ** The cache of the reference trees *)

Section Cache.
Context {Ctx Sender : Type}.
Variable Do : Sender -> HTTPRequest Ctx -> Sender * (error + HTTPResponse).
Variable url_check : URL -> option error.
Variable unmarshal_ExploreCatTree : string -> error + ExploreCatTree.
Variable unmarshal_ExploreLocTree : string -> error + ExploreLocTree.

(** X19.  [ExploreCategories] never touches the cached locations; when it
    fails the cache is as before; when it succeeds the tree it returns is
    cached, and every later call, with any client, sender and context,
    returns that tree without calling the sender. *)
Theorem ExploreCategories_cache (c : gClient) (k k1 : cache) (s : Sender) (ctx : option Ctx)
        (ret1 : returned ExploreCatTree) :
  ExploreCategories Do url_check unmarshal_ExploreCatTree c k s ctx = (k1, ret1) ->
  exploreLocs k1 = exploreLocs k /\
  (forall err, ret_result ret1 = inl err -> k1 = k) /\
  (forall out, ret_result ret1 = inr out ->
               getCategories k1 = Some out /\
               forall c' s' ctx',
                 ExploreCategories Do url_check unmarshal_ExploreCatTree c' k1 s' ctx'
                 = (k1, unsent c' s' (inr out))).
Proof.
  unfold ExploreCategories at 1.
  assert (Hhit : forall k2 out, getCategories k2 = Some out ->
                                forall c' s' ctx',
                                  ExploreCategories Do url_check unmarshal_ExploreCatTree
                                                    c' k2 s' ctx'
                                  = (k2, unsent c' s' (inr out))).
  { intros k2 out Hk2 c' s' ctx'. unfold ExploreCategories. now rewrite Hk2. }
  destruct (getCategories k) as [cats|] eqn:Hk.
  - intros [= <- <-]. cbn [unsent ret_result].
    split; [reflexivity|]. split; [intros err [=]|].
    intros o [= <-]. split; [exact Hk|now apply Hhit].
  - destruct (out_result _) as [err|b].
    + intros [= <- <-]. cbn [after ret_result].
      split; [reflexivity|]. split; [reflexivity|intros o [=]].
    + destruct (unmarshal _ _) as [err|out].
      * intros [= <- <-]. cbn [after ret_result].
        split; [reflexivity|]. split; [reflexivity|intros o [=]].
      * intros [= <- <-]. cbn [after ret_result].
        split; [reflexivity|]. split; [intros err [=]|].
        intros o [= <-]. split; [reflexivity|now apply Hhit].
Qed.

(** X20.  [ExploreLocations] never touches the cached categories; when it
    fails the cache is as before; when it succeeds the tree it returns is
    cached, and every later call, with any client, sender and context,
    returns that tree without calling the sender. *)
Theorem ExploreLocations_cache (c : gClient) (k k1 : cache) (s : Sender) (ctx : option Ctx)
        (ret1 : returned ExploreLocTree) :
  ExploreLocations Do url_check unmarshal_ExploreLocTree c k s ctx = (k1, ret1) ->
  exploreCats k1 = exploreCats k /\
  (forall err, ret_result ret1 = inl err -> k1 = k) /\
  (forall out, ret_result ret1 = inr out ->
               getLocations k1 = Some out /\
               forall c' s' ctx',
                 ExploreLocations Do url_check unmarshal_ExploreLocTree c' k1 s' ctx'
                 = (k1, unsent c' s' (inr out))).
Proof.
  unfold ExploreLocations at 1.
  assert (Hhit : forall k2 out, getLocations k2 = Some out ->
                                forall c' s' ctx',
                                  ExploreLocations Do url_check unmarshal_ExploreLocTree
                                                   c' k2 s' ctx'
                                  = (k2, unsent c' s' (inr out))).
  { intros k2 out Hk2 c' s' ctx'. unfold ExploreLocations. now rewrite Hk2. }
  destruct (getLocations k) as [locs|] eqn:Hk.
  - intros [= <- <-]. cbn [unsent ret_result].
    split; [reflexivity|]. split; [intros err [=]|].
    intros o [= <-]. split; [exact Hk|now apply Hhit].
  - destruct (out_result _) as [err|b].
    + intros [= <- <-]. cbn [after ret_result].
      split; [reflexivity|]. split; [reflexivity|intros o [=]].
    + destruct (unmarshal _ _) as [err|out].
      * intros [= <- <-]. cbn [after ret_result].
        split; [reflexivity|]. split; [reflexivity|intros o [=]].
      * intros [= <- <-]. cbn [after ret_result].
        split; [reflexivity|]. split; [intros err [=]|].
        intros o [= <-]. split; [reflexivity|now apply Hhit].
Qed.
End Cache.

Lemma ExploreCategories_cache_witness :
  ExploreCategories scripted no_url_error one_tree newGClient
                    (setCategories empty_cache (Some (CatTree "X" 1 None))) [] None
  = (setCategories empty_cache (Some (CatTree "X" 1 None)),
     unsent newGClient [] (inr (CatTree "X" 1 None))).
Proof.
  refine (proj2 (proj2 (proj2
            (ExploreCategories_cache scripted no_url_error one_tree newGClient empty_cache
               (setCategories empty_cache (Some (CatTree "X" 1 None))) answer_200 (Some tt)
               (after (do scripted no_url_error newGClient answer_200 (Some tt)
                          {| url_Base := (gAPI ++ gSCategories)%string; url_Query := ∅ |})
                      (inr (CatTree "X" 1 None))) _))
            (CatTree "X" 1 None) _) newGClient [] None).
  - vm_compute. reflexivity.
  - reflexivity.
Defined.

Lemma ExploreLocations_cache_witness :
  fst (ExploreLocations scripted no_url_error no_locs newGClient empty_cache answer_200
                        (Some tt)) = empty_cache.
Proof.
  destruct (ExploreLocations scripted no_url_error no_locs newGClient empty_cache answer_200
                             (Some tt)) as [k1 ret1] eqn:E.
  destruct (ExploreLocations_cache scripted no_url_error no_locs newGClient empty_cache k1
              answer_200 (Some tt) ret1 E) as (_ & Hfail & _).
  apply (Hfail (Errorf_s_w errParsing (errors_New "unexpected end of JSON input"))).
  vm_compute in E. injection E as _ <-. reflexivity.
Defined.

(** ** Further properties of the detail-fetch operations *)

Lemma prefix_app (old rest : string) : String.prefix old (old ++ rest)%string = true.
Proof.
  induction old as [|a old IH]; [now destruct rest|].
  change (String.prefix (String a old) (String a (old ++ rest)%string) = true).
  cbn [String.prefix]. now destruct (ascii_dec a a).
Qed.

Lemma Replace1_prefix (old rest : string) :
  Replace1 (old ++ rest)%string old "" = rest.
Proof.
  assert (Hstep : forall s, String.prefix old s = true ->
                            Replace1 s old "" = strings.drop (String.length old) s)
    by (intros s Hs; destruct s; cbn [Replace1]; now rewrite Hs).
  rewrite Hstep by apply prefix_app.
  rewrite <- (Nat.add_0_r (String.length old)). apply drop_app_length.
Qed.

Lemma init_item_Geo_idem (v : option WidgetComparisonItem) :
  init_item_Geo (init_item_Geo v) = init_item_Geo v.
Proof.
  destruct v as [ci|]; [|reflexivity]. cbn [init_item_Geo].
  destruct (map_len (ci_Geo ci) =? 0)%nat eqn:E.
  - cbn [init_item_Geo ci_Geo set_ci_Geo].
    now change (map_len (Some empty_geo) =? 0)%nat with false.
  - cbn [init_item_Geo]. now rewrite E.
Qed.

Lemma init_Geo_idem (r : WidgetResponse) : init_Geo (init_Geo r) = init_Geo r.
Proof.
  unfold init_Geo. cbn [CompItem set_CompItem]. unfold set_CompItem. f_equal.
  destruct (CompItem r) as [items|]; [|reflexivity]. cbn [option_map]. f_equal.
  rewrite List.map_map. apply List.map_ext. intros v. apply init_item_Geo_idem.
Qed.

Lemma force_DataMode_idem (r : WidgetResponse) :
  force_DataMode (force_DataMode r) = force_DataMode r.
Proof.
  unfold force_DataMode.
  destruct (Nat.ltb 1 (slice_len (CompItem r))) eqn:E; cbn [CompItem set_DataMode];
    now rewrite E.
Qed.

Lemma restriction_Geo_idem (r r' : WidgetResponse) :
  restriction_Geo r = Some r' -> restriction_Geo r' = Some r'.
Proof.
  unfold restriction_Geo at 1.
  destruct (map_len (ci_Geo (Restriction r)) =? 0)%nat eqn:E.
  - destruct (ci_Geo (Restriction r)) as [m|] eqn:Hm; [|discriminate].
    intros [= <-]. cbn in E. apply Nat.eqb_eq, map_size_empty_iff in E. subst m.
    reflexivity.
  - intros [= <-]. unfold restriction_Geo. now rewrite E.
Qed.

Section OperationProperties.
Context {Ctx Sender Timeline GeoMap RankedKeyword : Type}.
Variable Do : Sender -> HTTPRequest Ctx -> Sender * (error + HTTPResponse).
Variable url_check : URL -> option error.
Variable json_Marshal : json -> error + string.
Variable unmarshal_multilineOut : string -> error + list Timeline.
Variable unmarshal_geoOut : string -> error + list GeoMap.
Variable unmarshal_relatedOut : string -> error + list (option (list RankedKeyword)).

Local Abbreviation timeline :=
  (InterestOverTime Do url_check json_Marshal unmarshal_multilineOut).
Local Abbreviation by_location :=
  (InterestByLocation Do url_check json_Marshal unmarshal_geoOut).
Local Abbreviation related := (Related Do url_check json_Marshal unmarshal_relatedOut).

(** [fetch] in full. *)
Lemma fetch_full {T : Type} (path : string) (decoder : string -> error + T)
      (c : gClient) (s : Sender) (ctx : option Ctx) (hl : string)
      (w : ExploreWidget) (r : WidgetResponse) :
  (exists err,
      json_Marshal (WidgetResponse_json r) = inl err /\
      fetch Do url_check json_Marshal path decoder c s ctx hl w r
      = Returns w c s [] (inl (Errorf_s_w errInvalidRequest err))) \/
  (exists text,
      json_Marshal (WidgetResponse_json r) = inr text /\
      let o := do Do url_check c s ctx
                  {| url_Base := (gAPI ++ path)%string;
                     url_Query := widget_query hl (Token w) text |} in
      fetch Do url_check json_Marshal path decoder c s ctx hl w r
      = Returns w (out_client o) (out_sender o) (out_sent o)
                (match out_result o with
                 | inl err => inl err
                 | inr b => unmarshal decoder (Replace1 b ")]}'," "")
                 end)).
Proof.
  unfold fetch. destruct (json_Marshal (WidgetResponse_json r)) as [err|text].
  - left. eauto.
  - right. exists text. split; [reflexivity|]. cbv zeta. fold (widget_query hl (Token w) text).
    destruct (out_result _) as [err|b]; [reflexivity|].
    unfold unmarshal. now destruct (decoder _).
Qed.

(** What [fetch] sends, and what it makes of a readable answer. *)
Lemma fetch_properties {T : Type} (path : string) (decoder : string -> error + T)
      (c : gClient) (s : Sender) (ctx : option Ctx) (hl : string)
      (w : ExploreWidget) (r : WidgetResponse) :
  exists c' s' sent res,
    fetch Do url_check json_Marshal path decoder c s ctx hl w r = Returns w c' s' sent res /\
    (forall q, In q sent -> widget_request json_Marshal path hl (Token w) r q) /\
    (forall payload, answered_with Do s sent (")]}'," ++ payload)%string ->
                     res = unmarshal decoder payload).
Proof.
  destruct (fetch_full path decoder c s ctx hl w r)
    as [(err & Herr & ->) | (text & Htext & Heq)].
  - do 4 eexists. split; [reflexivity|]. split; [intros q []|].
    intros payload (q & _ & _ & [=] & _).
  - cbv zeta in Heq. rewrite Heq. do 4 eexists. split; [reflexivity|]. split.
    + intros q Hq. apply (do_sent_shape Do url_check) in Hq as (Hm & HU & _ & _).
      unfold widget_request. rewrite Hm, HU. cbn. eauto.
    + intros payload (q & s1 & resp & Hsent & HDo & Hcode & Hbody & Hpayload).
      rewrite (first_request Do url_check c s ctx _ "" _ q [] (or_introl eq_refl) Hsent).
      rewrite (send_other Do c s s1 q resp HDo) by (rewrite Hcode; discriminate).
      cbn [out_result]. unfold finish. rewrite Hcode, Hbody, Hpayload. cbn.
      now rewrite Replace1_prefix.
Qed.

(** X21.  The checks before any work: a widget of the wrong type is
    answered with [ErrInvalidWidgetType], nothing is sent and nothing
    changes; a widget of the right type without sub-request (a nil
    [Request]) makes the operation panic. *)
Theorem widget_preconditions (c : gClient) (s : Sender) (ctx : option Ctx)
        (w : ExploreWidget) (hl : string) :
  (strings.HasPrefix (ID w) IntOverTimeWidgetID = false ->
   timeline c s ctx w hl = Returns w c s [] (inl ErrInvalidWidgetType)) /\
  (strings.HasPrefix (ID w) IntOverRegionID = false ->
   by_location c s ctx w hl = Returns w c s [] (inl ErrInvalidWidgetType)) /\
  (related_type (ID w) = false ->
   related c s ctx w hl = Returns w c s [] (inl ErrInvalidWidgetType)) /\
  (Request w = None ->
   (strings.HasPrefix (ID w) IntOverTimeWidgetID = true ->
    timeline c s ctx w hl = Panics nil_dereference) /\
   (strings.HasPrefix (ID w) IntOverRegionID = true ->
    by_location c s ctx w hl = Panics nil_dereference) /\
   (related_type (ID w) = true -> related c s ctx w hl = Panics nil_dereference)).
Proof.
  unfold InterestOverTime, InterestByLocation, Related, related_type.
  repeat split.
  - now intros ->.
  - now intros ->.
  - intros H. apply orb_false_iff in H as [-> ->]. reflexivity.
  - intros ->. now rewrite H.
  - intros ->. now rewrite H.
  - intros Ht. rewrite H.
    destruct (strings.HasPrefix (ID w) RelatedQueriesID),
      (strings.HasPrefix (ID w) RelatedTopicsID); try discriminate; reflexivity.
Qed.


(** X23.  Every request of a detail fetch is a GET to the endpoint of the
    operation whose query has the four parameters [tz] (always ["0"]),
    [hl], [token] (the token of the widget) and [req] (the text of the
    sub-request as the operation leaves it), and no other. *)
Theorem detail_fetch_requests (c : gClient) (s : Sender) (ctx : option Ctx)
        (w w' : ExploreWidget) (hl : string) (c1 : gClient) (s1 : Sender)
        (sent : list (HTTPRequest Ctx)) (q : HTTPRequest Ctx) :
  In q sent ->
  ((exists res, timeline c s ctx w hl = Returns w' c1 s1 sent res) ->
   exists r', Request w' = Some r' /\
              widget_request json_Marshal gSIntOverTime hl (Token w) r' q) /\
  ((exists res, by_location c s ctx w hl = Returns w' c1 s1 sent res) ->
   exists r', Request w' = Some r' /\
              widget_request json_Marshal gSIntOverReg hl (Token w) r' q) /\
  ((exists res, related c s ctx w hl = Returns w' c1 s1 sent res) ->
   exists r', Request w' = Some r' /\
              widget_request json_Marshal gSRelated hl (Token w) r' q).
Proof.
  intros Hq. unfold InterestOverTime, InterestByLocation, Related.
  split; [|split]; intros [res Hret].
  - destruct (negb _); [injection Hret as _ _ _ <- _; destruct Hq|].
    destruct (Request w) as [r|]; [|discriminate].
    destruct (fetch_properties gSIntOverTime unmarshal_multilineOut c s ctx hl
                (set_Request w (init_Geo r)) (init_Geo r))
      as (c3 & s3 & sent3 & res3 & Heq & Hsent & _).
    rewrite Heq in Hret. injection Hret as <- _ _ -> _.
    exists (init_Geo r). split; [reflexivity|]. now apply Hsent.
  - destruct (negb _); [injection Hret as _ _ _ <- _; destruct Hq|].
    destruct (Request w) as [r|]; [|discriminate].
    destruct (fetch_properties gSIntOverReg unmarshal_geoOut c s ctx hl
                (set_Request w (force_DataMode r)) (force_DataMode r))
      as (c3 & s3 & sent3 & res3 & Heq & Hsent & _).
    rewrite Heq in Hret. injection Hret as <- _ _ -> _.
    exists (force_DataMode r). split; [reflexivity|]. now apply Hsent.
  - destruct (_ && _); [injection Hret as _ _ _ <- _; destruct Hq|].
    destruct (Request w) as [r|]; [|discriminate].
    destruct (restriction_Geo r) as [r'|]; [|discriminate].
    destruct (fetch_properties gSRelated unmarshal_relatedOut c s ctx hl
                (set_Request w r') r')
      as (c3 & s3 & sent3 & res3 & Heq & Hsent & _).
    rewrite Heq in Hret.
    destruct res3 as [err|ranked]; [|destruct (append_Keywords [] ranked); [|discriminate]];
      injection Hret as <- _ _ -> _;
      (exists r'; split; [reflexivity|]; now apply Hsent).
Qed.

(** X24.  When the one request of a detail fetch is answered with status
    200 and a body that starts with the guard [)]}',], the operation returns
    what the decoder makes of the rest of the body, a decoding error being
    wrapped as "failed to parse json"; [Related], when it returns, gives
    the keywords of the ranked lists joined in order, none of the lists
    being nil. *)
Theorem guard_prefix_is_removed (c : gClient) (s : Sender) (ctx : option Ctx)
        (w w' : ExploreWidget) (hl : string) (c1 : gClient) (s1 : Sender)
        (sent : list (HTTPRequest Ctx)) (payload : string) :
  answered_with Do s sent (")]}'," ++ payload)%string ->
  (forall res, timeline c s ctx w hl = Returns w' c1 s1 sent res ->
               res = unmarshal unmarshal_multilineOut payload) /\
  (forall res, by_location c s ctx w hl = Returns w' c1 s1 sent res ->
               res = unmarshal unmarshal_geoOut payload) /\
  (forall res, related c s ctx w hl = Returns w' c1 s1 sent res ->
               match unmarshal unmarshal_relatedOut payload with
               | inl err => res = inl err
               | inr ranked => exists lists, ranked = map Some lists /\
                                             res = inr (List.concat lists)
               end).
Proof.
  intros Hans. unfold InterestOverTime, InterestByLocation, Related.
  assert (Hsent : sent <> []) by (destruct Hans as (q & _ & _ & -> & _); discriminate).
  split; [|split]; intros res Hret.
  - destruct (negb _); [injection Hret as _ _ _ <- _; contradiction|].
    destruct (Request w) as [r|]; [|discriminate].
    destruct (fetch_properties gSIntOverTime unmarshal_multilineOut c s ctx hl
                (set_Request w (init_Geo r)) (init_Geo r))
      as (c3 & s3 & sent3 & res3 & Heq & _ & Hres).
    rewrite Heq in Hret. injection Hret as _ _ _ -> ->. now apply Hres.
  - destruct (negb _); [injection Hret as _ _ _ <- _; contradiction|].
    destruct (Request w) as [r|]; [|discriminate].
    destruct (fetch_properties gSIntOverReg unmarshal_geoOut c s ctx hl
                (set_Request w (force_DataMode r)) (force_DataMode r))
      as (c3 & s3 & sent3 & res3 & Heq & _ & Hres).
    rewrite Heq in Hret. injection Hret as _ _ _ -> ->. now apply Hres.
  - destruct (_ && _); [injection Hret as _ _ _ <- _; contradiction|].
    destruct (Request w) as [r|]; [|discriminate].
    destruct (restriction_Geo r) as [r'|]; [|discriminate].
    destruct (fetch_properties gSRelated unmarshal_relatedOut c s ctx hl
                (set_Request w r') r')
      as (c3 & s3 & sent3 & res3 & Heq & _ & Hres).
    rewrite Heq in Hret.
    destruct res3 as [err|ranked].
    + injection Hret as _ _ _ -> <-. now rewrite <- (Hres payload Hans).
    + destruct (append_Keywords [] ranked) as [keywords|] eqn:Hk; [|discriminate].
      injection Hret as _ _ _ -> <-. rewrite <- (Hres payload Hans).
      apply (append_Keywords_Some ranked [] keywords) in Hk as (lists & -> & ->).
      exists lists. split; reflexivity.
Qed.
End OperationProperties.

Lemma widget_preconditions_witness :
  test_timeline (widget "GEO_MAP") "EN"
  = Returns (widget "GEO_MAP") newGClient answer_200 [] (inl ErrInvalidWidgetType) /\
  test_by_location (widget "GEO_MAP") "EN" = Panics nil_dereference.
Proof.
  destruct (widget_preconditions scripted no_url_error test_Marshal
              (@no_rows unit) (@no_rows unit) (@no_rows (option (list unit)))
              newGClient answer_200 (Some tt) (widget "GEO_MAP") "EN")
    as (H1 & _ & _ & H2).
  split; [apply H1; reflexivity|apply (H2 eq_refl); reflexivity].
Defined.


Lemma detail_fetch_requests_witness :
  match test_timeline (widget_with "TIMESERIES" one_term) "EN" with
  | Returns w' _ _ sent _ =>
      forall q, In q sent ->
                exists r', Request w' = Some r' /\
                           widget_request test_Marshal gSIntOverTime "EN" "token" r' q
  | _ => False
  end.
Proof.
  destruct (test_timeline (widget_with "TIMESERIES" one_term) "EN")
    as [reason|w' c1 s1 sent res|reason w' c1 s1 sent] eqn:E;
    [vm_compute in E; discriminate| |vm_compute in E; discriminate].
  intros q Hq.
  apply (proj1 (detail_fetch_requests scripted no_url_error test_Marshal
                  (@no_rows unit) (@no_rows unit) (@no_rows (option (list unit)))
                  newGClient answer_200 (Some tt) (widget_with "TIMESERIES" one_term) w'
                  "EN" c1 s1 sent q Hq)).
  exists res. exact E.
Defined.

Lemma guard_prefix_is_removed_witness :
  match InterestOverTime scripted no_url_error test_Marshal (@no_rows unit)
                         newGClient guarded_answer (Some tt)
                         (widget_with "TIMESERIES" one_term) "EN" with
  | Returns _ _ _ _ res => res = unmarshal (@no_rows unit) "{}"
  | _ => False
  end.
Proof.
  destruct (InterestOverTime scripted no_url_error test_Marshal (@no_rows unit)
                             newGClient guarded_answer (Some tt)
                             (widget_with "TIMESERIES" one_term) "EN")
    as [reason|w' c1 s1 sent res|reason w' c1 s1 sent] eqn:E;
    [vm_compute in E; discriminate| |vm_compute in E; discriminate].
  apply (proj1 (guard_prefix_is_removed scripted no_url_error test_Marshal
                  (@no_rows unit) (@no_rows unit) (@no_rows (option (list unit)))
                  newGClient guarded_answer (Some tt) (widget_with "TIMESERIES" one_term) w'
                  "EN" c1 s1 sent "{}"
                  ltac:(vm_compute in E; injection E as _ _ _ <- _;
                        eexists _, _, _; repeat split; reflexivity))).
  exact E.
Defined.

(** ** The explore request *)

Lemma string_app_nil_r (s : string) : (s ++ "")%string = s.
Proof.
  induction s as [|a s IH]; [reflexivity|].
  change (String a (s ++ "")%string = String a s). now rewrite IH.
Qed.

Lemma string_app_assoc (s t u : string) : ((s ++ t) ++ u)%string = (s ++ t ++ u)%string.
Proof.
  induction s as [|a s IH]; [reflexivity|].
  change (String a ((s ++ t) ++ u)%string = String a (s ++ t ++ u)%string). now rewrite IH.
Qed.

Lemma string_of_list_ascii_app (l1 l2 : list ascii) :
  string_of_list_ascii (l1 ++ l2)
  = (string_of_list_ascii l1 ++ string_of_list_ascii l2)%string.
Proof.
  induction l1 as [|a l1 IH]; [reflexivity|].
  change (String a (string_of_list_ascii (l1 ++ l2))
          = String a (string_of_list_ascii l1 ++ string_of_list_ascii l2)%string).
  now rewrite IH.
Qed.

Lemma Join_cons (x y : string) (rest : list string) (sep : string) :
  Join (x :: y :: rest) sep = (x ++ sep ++ Join (y :: rest) sep)%string.
Proof. reflexivity. Qed.

Lemma Split_plus (s : string) :
  forall cur : list ascii,
    Join (strings.Split_aux "+" 0 cur s) " "
    = (string_of_list_ascii (rev cur) ++ plus_to_space s)%string.
Proof.
  induction s as [|a s IH]; intros cur.
  - cbn [strings.Split_aux Join plus_to_space]. now rewrite string_app_nil_r.
  - cbn [strings.Split_aux plus_to_space].
    assert (Hp : String.prefix "+" (String a s) = Ascii.eqb a "+").
    { cbn [String.prefix]. destruct (ascii_dec "+" a) as [<- | Hne].
      - now destruct s.
      - symmetry. apply Ascii.eqb_neq. congruence. }
    rewrite Hp. destruct (Ascii.eqb a "+").
    + change (String.length "+" - 1) with 0.
      rewrite (Split_aux_cons "+" s 0 []), Join_cons, <- Split_aux_cons, IH.
      reflexivity.
    + rewrite IH. cbn [rev]. rewrite string_of_list_ascii_app, string_app_assoc.
      reflexivity.
Qed.

(** [strings.ReplaceAll(s, "+", " ")] turns every [+] into a space and
    leaves the other bytes alone. *)
Lemma ReplaceAll_plus (s : string) : ReplaceAll s "+" " " = plus_to_space s.
Proof. unfold ReplaceAll, strings.Split. now rewrite Split_plus. Qed.

Lemma plus_to_space_clean (s : string) : strings.Contains (plus_to_space s) "+" = false.
Proof.
  induction s as [|a s IH]; [reflexivity|].
  cbn [plus_to_space strings.Contains]. rewrite IH, orb_false_r.
  cbn [String.prefix]. destruct (Ascii.eqb_spec a "+") as [-> | Hne].
  - reflexivity.
  - destruct (ascii_dec "+" a) as [<- | _]; [contradiction|reflexivity].
Qed.

Lemma fix_times_spec (items : list (option ComparisonItem)) :
  match fix_times items with
  | Some items' => Forall2 time_fixed items items'
  | None => In None items
  end.
Proof.
  induction items as [|[ci|] items IH]; cbn [fix_times]; [constructor| |now left].
  destruct (fix_times items) as [items'|].
  - constructor; [|exact IH]. exists ci. now rewrite ReplaceAll_plus.
  - now right.
Qed.

Section ExploreProperties.
Context {Ctx Sender : Type}.
Variable Do : Sender -> HTTPRequest Ctx -> Sender * (error + HTTPResponse).
Variable url_check : URL -> option error.
Variable json_Marshal : json -> error + string.
Variable unmarshal_exploreOut : string -> error + list ExploreWidget.

Local Abbreviation explore := (Explore Do url_check json_Marshal unmarshal_exploreOut).

(** X25.  [Explore] rewrites the request it is given: when it returns, with
    or without error, every comparison item has each [+] of its time range
    replaced by a space, so that no [+] is left, and nothing else of the
    request is changed; every request it sends is a GET to the explore
    endpoint with the parameters [tz], [hl] and [req], the text of the
    rewritten request, and no token. *)
Theorem Explore_rewrites_times (c : gClient) (s : Sender) (ctx : option Ctx)
        (r r' : ExploreRequest) (hl : string) (ret : returned (list ExploreWidget)) :
  explore c s ctx (Some r) hl = Some (r', ret) ->
  er_Category r' = er_Category r /\ er_Property r' = er_Property r /\
  match er_ComparisonItems r, er_ComparisonItems r' with
  | None, None => True
  | Some items, Some items' =>
      Forall2 time_fixed items items' /\
      Forall (fun v => match v with
                       | Some ci => strings.Contains (cmp_Time ci) "+" = false
                       | None => False
                       end) items'
  | _, _ => False
  end /\
  forall q, In q (ret_sent ret) ->
            req_Method q = "GET" /\
            url_Base (req_URL q) = (gAPI ++ gSExplore)%string /\
            exists text,
              json_Marshal (ExploreRequest_json r') = inr text /\
              url_Query (req_URL q)
              = <[paramReq := [text]]> (<[paramHl := [hl]]> (<[paramTZ := ["0"]]> ∅)).
Proof.
  unfold Explore.
  assert (Hitems : forall items',
             match er_ComparisonItems r with
             | Some items => fix_times items = Some items'
             | None => False
             end ->
             match er_ComparisonItems r with
             | Some items =>
                 Forall2 time_fixed items items' /\
                 Forall (fun v => match v with
                                  | Some ci => strings.Contains (cmp_Time ci) "+" = false
                                  | None => False
                                  end) items'
             | None => False
             end).
  { intros items'. destruct (er_ComparisonItems r) as [items|]; [|tauto].
    intros Hfix. pose proof (fix_times_spec items) as Hspec. rewrite Hfix in Hspec.
    split; [exact Hspec|].
    clear Hfix. induction Hspec as [|a b items items' (ci & -> & ->) _ IH]; constructor.
    - apply plus_to_space_clean.
    - exact IH. }
  assert (Hsent : forall u text,
             url_Base u = (gAPI ++ gSExplore)%string ->
             url_Query u
             = <[paramReq := [text]]> (<[paramHl := [hl]]> (<[paramTZ := ["0"]]> ∅)) ->
             forall q, In q (out_sent (do Do url_check c s ctx u)) ->
                       req_Method q = "GET" /\
                       url_Base (req_URL q) = (gAPI ++ gSExplore)%string /\
                       url_Query (req_URL q)
                       = <[paramReq := [text]]> (<[paramHl := [hl]]> (<[paramTZ := ["0"]]> ∅))).
  { intros u text Hb Hq q Hin.
    apply (do_sent_shape Do url_check) in Hin as (Hm & HU & _).
    rewrite Hm, HU. auto. }
  destruct (er_ComparisonItems r) as [items|] eqn:Hr; cbn [option_map].
  - destruct (fix_times items) as [items'|] eqn:Hfix; [|discriminate].
    specialize (Hitems items' eq_refl).
    destruct (json_Marshal _) as [err|text] eqn:Htext.
    + intros [= <- <-]. cbn.
      split; [reflexivity|]. split; [reflexivity|]. split; [exact Hitems|].
      intros q [].
    + destruct (out_result _) as [err|b]; intros [= <- <-]; cbn;
        (split; [reflexivity|]; split; [reflexivity|]; split; [exact Hitems|]);
        intros q Hin; eapply Hsent in Hin as (Hm & Hb & Hq); try reflexivity;
        (split; [exact Hm|]; split; [exact Hb|]; exists text; split; [exact Htext|exact Hq]).
  - destruct (json_Marshal _) as [err|text] eqn:Htext.
    + intros [= <- <-]. cbn.
      split; [reflexivity|]. split; [reflexivity|]. split; [exact I|].
      intros q [].
    + destruct (out_result _) as [err|b]; intros [= <- <-]; cbn;
        (split; [reflexivity|]; split; [reflexivity|]; split; [exact I|]);
        intros q Hin; eapply Hsent in Hin as (Hm & Hb & Hq); try reflexivity;
        (split; [exact Hm|]; split; [exact Hb|]; exists text; split; [exact Htext|exact Hq]).
Qed.

End ExploreProperties.

Lemma Explore_rewrites_times_witness :
  exists r' ret,
    Explore scripted no_url_error test_Marshal no_widgets newGClient answer_200 (Some tt)
            (Some old_style_request) "EN" = Some (r', ret) /\
    er_Category r' = 31%Z /\
    match er_ComparisonItems r' with
    | Some items' => Forall2 time_fixed
                             [Some {| cmp_Keyword := "Go"; cmp_Geo := "US";
                                      cmp_Time := "today+12-m";
                                      cmp_GranularTimeResolution := false;
                                      cmp_StartTime := ""; cmp_EndTime := "" |}] items'
    | None => False
    end /\
    forall q, In q (ret_sent ret) -> req_Method q = "GET".
Proof.
  destruct (Explore scripted no_url_error test_Marshal no_widgets newGClient answer_200
                    (Some tt) (Some old_style_request) "EN") as [[r' ret]|] eqn:E;
    [|vm_compute in E; discriminate].
  exists r', ret. split; [reflexivity|].
  destruct (Explore_rewrites_times scripted no_url_error test_Marshal no_widgets
              newGClient answer_200 (Some tt) old_style_request r' "EN" ret E)
    as (Hc & _ & Hi & Hs).
  split; [exact Hc|]. split.
  - change (er_ComparisonItems old_style_request) with
      (Some [Some {| cmp_Keyword := "Go"; cmp_Geo := "US"; cmp_Time := "today+12-m";
                     cmp_GranularTimeResolution := false;
                     cmp_StartTime := ""; cmp_EndTime := "" |}]) in Hi.
    destruct (er_ComparisonItems r'); [exact (proj1 Hi)|exact Hi].
  - intros q Hq. exact (proj1 (Hs q Hq)).
Defined.
